(** * Splitting disconnected communities: label propagation, DFS and BFS

    A shallow embedding of [inc/split.hxx] and the properties of the three
    splitters [splitDisconnectedCommunitiesLpaOmpW],
    [splitDisconnectedCommunitiesDfsOmpW] and
    [splitDisconnectedCommunitiesBfsOmpW].

    Vertex ids, labels and community ids have the unsigned integer type [K]
    in the source; the code only copies, compares and takes minima of them,
    so they are natural numbers here (the span is taken to fit [K]).  Flags
    of type [B] are booleans ([B()] is [false], [B(1)] is [true]).  A
    [vector] is a list; indexing is checked in the model, and an index
    outside the vector stops the run with [OutOfBounds] (the source indexes
    with the unchecked [operator[]]).

    The round loop of the label propagation, the recursion of the
    depth-first traversal and the levels of the breadth-first traversal take
    fuel; span * span + 1 units are enough for every run of a splitter.

    OpenMP runs the iterations of a parallel [for], and the threads of a
    parallel region, at the same time.  The embedding has two levels.  In
    the first, the iterations of a round of the label propagation run one
    at a time, in an order that is a parameter of the run, and the threads
    of the two traversing splitters run one after the other in the order of
    their numbers.  In the second, an iteration of the round loop and a call of the lambda [fl]
    are cut in two blocks each, and the blocks of different iterations and
    threads run in any order.  With one thread both levels are the run of
    the source. *)

From stdpp Require Import base numbers list relations.

(** ** The graph capability *)

(** [x.span()], [x.hasVertex(u)] and the keys that [x.forEachEdgeKey(u, f)]
    passes to [f], in order. *)
Record graph := Graph {
  span : nat;
  hasVertex : nat → bool;
  edges : nat → list nat
}.

(** ** Memory and the monad of the embedding *)

Inductive buffer := Bvcom | Bvaff | Bvis | Bcbsy | Bvdom.

Inductive fault :=
| OutOfBounds (b : buffer) (i : nat)
| OutOfFuel.

Inductive res (A : Type) :=
| Val (a : A)
| Err (e : fault).
Arguments Val {A} a.
Arguments Err {A} e.

(** The vectors the splitters write: the output [vcom] and the scratch
    flags [vaff], [vis], [cbsy]. *)
Record mem := Mem {
  vcom : list nat;
  vaff : list bool;
  vis : list bool;
  cbsy : list bool
}.

(** A computation transforms the memory and yields a value or a fault; the
    memory reached when a fault occurs is kept. *)
Definition M (A : Type) : Type := mem → mem * res A.

Definition ret {A} (a : A) : M A := λ m, (m, Val a).

Definition bind {A B} (c : M A) (k : A → M B) : M B :=
  λ m, match c m with
       | (m1, Val a) => k a m1
       | (m1, Err e) => (m1, Err e)
       end.

Definition fail {A} (e : fault) : M A := λ m, (m, Err e).

Notation "x <- c ;; k" := (bind c (λ x, k))
  (at level 100, c at next level, right associativity).
Notation "c ;;; k" := (bind c (λ _, k))
  (at level 100, right associativity).

(** [for (v : l) f(v)] *)
Fixpoint forEach {A} (l : list A) (f : A → M unit) : M unit :=
  match l with
  | [] => ret tt
  | a :: l' => f a ;;; forEach l' f
  end.

(** A loop that carries an accumulator. *)
Fixpoint foldM {A C} (f : C → A → M C) (l : list A) (c : C) : M C :=
  match l with
  | [] => ret c
  | a :: l' => c' <- f c a ;; foldM f l' c'
  end.

(** Reads and writes of the vectors. *)
Definition rd {A} (b : buffer) (l : list A) (i : nat) : M A :=
  match l !! i with
  | Some a => ret a
  | None => fail (OutOfBounds b i)
  end.

Definition get_vcom (i : nat) : M nat := λ m, rd Bvcom (vcom m) i m.
Definition get_vaff (i : nat) : M bool := λ m, rd Bvaff (vaff m) i m.
Definition get_vis (i : nat) : M bool := λ m, rd Bvis (vis m) i m.
Definition get_cbsy (i : nat) : M bool := λ m, rd Bcbsy (cbsy m) i m.

Definition set_vcom (i c : nat) : M unit := λ m,
  if decide (i < length (vcom m))
  then (Mem (<[i:=c]> (vcom m)) (vaff m) (vis m) (cbsy m), Val tt)
  else (m, Err (OutOfBounds Bvcom i)).
Definition set_vaff (i : nat) (b : bool) : M unit := λ m,
  if decide (i < length (vaff m))
  then (Mem (vcom m) (<[i:=b]> (vaff m)) (vis m) (cbsy m), Val tt)
  else (m, Err (OutOfBounds Bvaff i)).
Definition set_vis (i : nat) (b : bool) : M unit := λ m,
  if decide (i < length (vis m))
  then (Mem (vcom m) (vaff m) (<[i:=b]> (vis m)) (cbsy m), Val tt)
  else (m, Err (OutOfBounds Bvis i)).
Definition set_cbsy (i : nat) (b : bool) : M unit := λ m,
  if decide (i < length (cbsy m))
  then (Mem (vcom m) (vaff m) (vis m) (<[i:=b]> (cbsy m)), Val tt)
  else (m, Err (OutOfBounds Bcbsy i)).

(** ** Label propagation: [splitDisconnectedCommunitiesLpaOmpW] *)

Section Splitters.
(** The graph [x] and the community [vdom] of each vertex; both are
    read-only in the source. *)
Variable x : graph.
Variable vdom : list nat.

Definition get_vdom (i : nat) : M nat := rd Bvdom vdom i.

Section Lpa.
(** The template parameter [PRUNE]. *)
Variable PRUNE : bool.

(** The first loop: [vcom[u] = u; if (PRUNE) vaff[u] = B(1);]. *)
Definition lpa_init : M unit :=
  forEach (seq 0 (span x)) (λ u,
    set_vcom u u ;;;
    if PRUNE then set_vaff u true else ret tt).

(** The callback of the first [forEachEdgeKey]:
    [if (vdom[v]==d) c = min(c, vcom[v]);]. *)
Definition lpa_scan (d : nat) (c v : nat) : M nat :=
  dv <- get_vdom v ;;
  if decide (dv = d) then cv <- get_vcom v ;; ret (c `min` cv)
  else ret c.

(** The callback of the second [forEachEdgeKey]:
    [if (vdom[v]==d && !vaff[v]) vaff[v] = B(1);]. *)
Definition lpa_mark (d : nat) (v : nat) : M unit :=
  dv <- get_vdom v ;;
  if decide (dv = d) then
    a <- get_vaff v ;;
    if negb a then set_vaff v true else ret tt
  else ret tt.

(** The body of the round loop for the vertex [u]; the
    value is [true] when the body reaches [++ndel]. *)
Definition lpa_visit (u : nat) : M bool :=
  if negb (hasVertex x u) then ret false else
  a <- (if PRUNE then get_vaff u else ret true) ;;
  if negb a then ret false else
  d <- get_vdom u ;;
  c0 <- get_vcom u ;;
  c <- foldM (lpa_scan d) (edges x u) c0 ;;
  cu <- get_vcom u ;;
  if decide (c = cu) then ret false else
  set_vcom u c ;;;
  if negb PRUNE then ret true else
  set_vaff u false ;;;
  forEach (edges x u) (lpa_mark d) ;;;
  ret true.

(** One round: the iterations of the parallel [for] run once each, in
    the order [us]; the value is [ndel].  OpenMP's dynamic schedule
    fixes no order between the iterations; on one thread the order is
    [seq 0 (span x)]. *)
Definition lpa_round (us : list nat) : M nat :=
  foldM (λ ndel u, b <- lpa_visit u ;; ret (if b then S ndel else ndel)) us 0.

(** [while (true) { ...; if (ndel==0) break; }], where round [r] runs
    its iterations in the order [sched r]. *)
Fixpoint lpa_loop (sched : nat → list nat) (fuel r : nat) : M unit :=
  match fuel with
  | 0 => fail OutOfFuel
  | S fuel' =>
      ndel <- lpa_round (sched r) ;;
      if decide (ndel = 0) then ret tt else lpa_loop sched fuel' (S r)
  end.

Definition splitDisconnectedCommunitiesLpaOmpW
    (sched : nat → list nat) (fuel : nat) : M unit :=
  lpa_init ;;; lpa_loop sched fuel 0.

(** *** Iterations that overlap

    Iterations of the round loop that run on different threads overlap in
    time; the source reads and writes [vcom] and [vaff] with plain loads
    and stores.  The iteration for [u] is cut in two blocks: [lpa_read] is
    lines 38-45, the two tests and the scan of the edges, and yields the
    community [d] and the minimum [c] when the vertex is scanned;
    [lpa_write] is lines 46-52, the comparison, the update and the
    marking. *)
Definition lpa_read (u : nat) : M (option (nat * nat)) :=
  if negb (hasVertex x u) then ret None else
  a <- (if PRUNE then get_vaff u else ret true) ;;
  if negb a then ret None else
  d <- get_vdom u ;;
  c0 <- get_vcom u ;;
  c <- foldM (lpa_scan d) (edges x u) c0 ;;
  ret (Some (d, c)).

Definition lpa_write (u : nat) (dc : nat * nat) : M bool :=
  cu <- get_vcom u ;;
  if decide (dc.2 = cu) then ret false else
  set_vcom u dc.2 ;;;
  if negb PRUNE then ret true else
  set_vaff u false ;;;
  forEach (edges x u) (lpa_mark dc.1) ;;;
  ret true.

(** The blocks of a round in the order in which they run. *)
Inductive event := Scan (u : nat) | Update (u : nat).

(** The iterations that have run their first block only, with its value. *)
Definition scanned := list (nat * (nat * nat)).

Fixpoint take_scanned (u : nat) (sc : scanned) : option ((nat * nat) * scanned) :=
  match sc with
  | [] => None
  | (v, dc) :: sc' =>
      if decide (v = u) then Some (dc, sc') else
      match take_scanned u sc' with
      | Some (dc', rest) => Some (dc', (v, dc) :: rest)
      | None => None
      end
  end.

Definition lpa_event (st : nat * scanned) (e : event) : M (nat * scanned) :=
  match e with
  | Scan u =>
      r <- lpa_read u ;;
      ret (st.1, match r with Some dc => (u, dc) :: st.2 | None => st.2 end)
  | Update u =>
      match take_scanned u st.2 with
      | Some (dc, rest) =>
          b <- lpa_write u dc ;; ret (if b then S st.1 else st.1, rest)
      | None => ret st
      end
  end.

(** One round whose blocks run in the order [es]; the value is [ndel]. *)
Definition lpa_round_events (es : list event) : M nat :=
  st <- foldM lpa_event es (0, []) ;; ret st.1.

Fixpoint lpa_loop_events (sched : nat → list event) (fuel r : nat) : M unit :=
  match fuel with
  | 0 => fail OutOfFuel
  | S fuel' =>
      ndel <- lpa_round_events (sched r) ;;
      if decide (ndel = 0) then ret tt else lpa_loop_events sched fuel' (S r)
  end.

Definition lpa_overlapped (sched : nat → list event) (fuel : nat) : M unit :=
  lpa_init ;;; lpa_loop_events sched fuel 0.

(** The blocks of iterations that do not overlap. *)
Definition one_at_a_time (us : list nat) : list event :=
  us ≫= λ u, [Scan u; Update u].
End Lpa.

(** ** Depth-first splitter: [splitDisconnectedCommunitiesDfsOmpW] *)

(** Modelled from the spec: [belongsOmp], which [split.hxx] uses and does
    not define: "community id modulo workerCount deterministically assigns
    every community to exactly one worker". *)
Definition belongsOmp (d t T : nat) : bool := bool_decide (d `mod` T = t).

(** Modelled from the spec: [dfsVisitedForEachU] of the included [dfs.hxx]:
    "a depth-first traversal restricted to same-community, unvisited
    vertices, assigning every visited vertex the initial label of the
    traversal's root.  Traversal marks vertices visited as it proceeds to
    avoid revisiting."  The test [ft] and the action [fp] are the
    caller's; [fuel] bounds the depth of the recursion. *)
Fixpoint dfsVisitedForEachU (fuel : nat) (ft : nat → M bool)
    (fp : nat → M unit) (u : nat) : M unit :=
  match fuel with
  | 0 => fail OutOfFuel
  | S fuel' =>
      b <- get_vis u ;;
      if b then ret tt else
      t <- ft u ;;
      if negb t then ret tt else
      set_vis u true ;;;
      fp u ;;;
      forEach (edges x u) (dfsVisitedForEachU fuel' ft fp)
  end.

(** The first loop: [vcom[u] = u; vis[u] = B();]. *)
Definition dfs_init : M unit :=
  forEach (seq 0 (span x)) (λ u, set_vcom u u ;;; set_vis u false).

(** The lambdas [ft] and [fp] of both traversals:
    [return vdom[v]==d] and [vcom[v] = c]. *)
Definition split_ft (d : nat) (v : nat) : M bool :=
  dv <- get_vdom v ;; ret (bool_decide (dv = d)).
Definition split_fp (c : nat) (v : nat) : M unit := set_vcom v c.

(** The body of the loop of thread [t] of [T] for the vertex [u]. *)
Definition dfs_visit (fuel t T u : nat) : M unit :=
  if negb (hasVertex x u) then ret tt else
  d <- get_vdom u ;;
  c <- get_vcom u ;;
  if negb (belongsOmp d t T) then ret tt else
  b <- get_vis u ;;
  if b then ret tt else
  dfsVisitedForEachU fuel (split_ft d) (split_fp c) u.

(** The loop of thread [t]: [for (K u=0; u<S; ++u)]. *)
Definition dfs_thread (fuel t T : nat) : M unit :=
  forEach (seq 0 (span x)) (dfs_visit fuel t T).

(** The parallel region with [T] threads; the threads run one after
    the other, thread [0] first. *)
Definition splitDisconnectedCommunitiesDfsOmpW (fuel T : nat) : M unit :=
  dfs_init ;;;
  forEach (seq 0 T) (λ t, dfs_thread fuel t T).

(** *** Threads that interleave

    The threads of the parallel region run at the same time.  A step of
    thread [t] is one iteration of its loop, with the traversal that the
    iteration starts; [ps] holds, for each thread, the vertex of its next
    iteration.  The steps run in the order [sched], a list of thread
    numbers. *)
Definition dfs_step (fuel T : nat) (ps : list nat) (t : nat) : M (list nat) :=
  match ps !! t with
  | Some p =>
      if decide (p < span x)
      then dfs_visit fuel t T p ;;; ret (<[t:=S p]> ps)
      else ret ps
  | None => ret ps
  end.

Definition dfs_interleaved (fuel T : nat) (sched : list nat) : M (list nat) :=
  dfs_init ;;;
  foldM (dfs_step fuel T) sched (replicate T 0).

(** ** Breadth-first splitter: [splitDisconnectedCommunitiesBfsOmpW] *)

(** Modelled from the spec: [bfsVisitedForEachU] of the included [bfs.hxx]:
    "a breadth-first traversal confined to the claimed community using a
    frontier buffer and a start-set buffer, assigning every discovered
    vertex the label of the traversal root".  [us] is the start set and
    then the current frontier, [vs] the next frontier; the second argument
    of [ft] and [fp] is the depth, which the splitter's lambdas ignore;
    [fuel] bounds the number of levels. *)
Definition bfs_discover (ft : nat → nat → M bool) (fp : nat → nat → M unit)
    (d : nat) (vs : list nat) (v : nat) : M (list nat) :=
  b <- get_vis v ;;
  if b then ret vs else
  t <- ft v d ;;
  if negb t then ret vs else
  set_vis v true ;;;
  fp v d ;;;
  ret (vs ++ [v]).

Definition bfs_expand (ft : nat → nat → M bool) (fp : nat → nat → M unit)
    (d : nat) (us : list nat) : M (list nat) :=
  foldM (λ vs u, foldM (bfs_discover ft fp d) (edges x u) vs) us [].

Fixpoint bfs_levels (fuel : nat) (ft : nat → nat → M bool)
    (fp : nat → nat → M unit) (d : nat) (us : list nat) : M unit :=
  match us with
  | [] => ret tt
  | _ :: _ =>
      match fuel with
      | 0 => fail OutOfFuel
      | S fuel' =>
          vs <- bfs_expand ft fp d us ;;
          bfs_levels fuel' ft fp (S d) vs
      end
  end.

Definition bfsVisitedForEachU (fuel : nat) (ft : nat → nat → M bool)
    (fp : nat → nat → M unit) (us : list nat) : M unit :=
  forEach us (λ u, set_vis u true ;;; fp u 0) ;;;
  bfs_levels fuel ft fp 1 us.

(** The first loop: [vcom[u] = u; cbsy[u] = B(); vis[u] = B();]. *)
Definition bfs_init : M unit :=
  forEach (seq 0 (span x)) (λ u,
    set_vcom u u ;;; set_cbsy u false ;;; set_vis u false).

(** [__atomic_exchange_n(&cbsy[d], b, __ATOMIC_SEQ_CST)] *)
Definition exchange_cbsy (d : nat) (b : bool) : M bool :=
  old <- get_cbsy d ;; set_cbsy d b ;;; ret old.

(** The lambda [fl].  The buffers [*us[t]] and [*vs[t]] are cleared
    before each traversal, so the traversal starts from [[u]]. *)
Definition fl (fuel u : nat) : M unit :=
  if negb (hasVertex x u) then ret tt else
  b <- get_vis u ;;
  if b then ret tt else
  d <- get_vdom u ;;
  c <- get_vcom u ;;
  busy <- get_cbsy d ;;
  if busy then ret tt else
  old <- exchange_cbsy d true ;;
  if old then ret tt else
  bfsVisitedForEachU fuel (λ v _, split_ft d v) (λ v _, split_fp c v) [u] ;;;
  set_cbsy d false.

(** [K ub = K((double(t)/T) * S)]: the start offset of thread [t].  The
    source computes it in double precision; the model takes the exact
    quotient, rounded down.  The proofs use only that the offset of thread
    0 is 0 and that no offset exceeds the span. *)
Definition bfs_offset (t T : nat) : nat := (t * span x) `div` T.

(** The two loops of thread [t]:
    [for (K u=ub; u<S; ++u) fl(u); for (K u=0; u<ub; ++u) fl(u);]. *)
Definition bfs_thread (fuel t T : nat) : M unit :=
  let ub := bfs_offset t T in
  forEach (seq ub (span x - ub)) (fl fuel) ;;;
  forEach (seq 0 ub) (fl fuel).

(** The parallel region with [T] threads; the threads run one after
    the other, thread [0] first. *)
Definition splitDisconnectedCommunitiesBfsOmpW (fuel T : nat) : M unit :=
  bfs_init ;;;
  forEach (seq 0 T) (λ t, bfs_thread fuel t T).

(** *** Threads that interleave

    The threads of the parallel region run at the same time.  A call of
    [fl] is cut in two blocks: [fl_claim] is lines 119-121, up to the
    exchange, and yields the community [d] and the label [c] when the
    thread has claimed the community; [fl_work] is lines 122-126, the
    traversal and the release of the community. *)
Definition fl_claim (u : nat) : M (option (nat * nat)) :=
  if negb (hasVertex x u) then ret None else
  b <- get_vis u ;;
  if b then ret None else
  d <- get_vdom u ;;
  c <- get_vcom u ;;
  busy <- get_cbsy d ;;
  if busy then ret None else
  old <- exchange_cbsy d true ;;
  if old then ret None else ret (Some (d, c)).

Definition fl_work (fuel u : nat) (dc : nat * nat) : M unit :=
  bfsVisitedForEachU fuel (λ v _, split_ft dc.1 v) (λ v _, split_fp dc.2 v) [u] ;;;
  set_cbsy dc.1 false.

(** A thread: the vertices its two loops have still to pass to [fl], and
    the vertex and the claim of a call of [fl] between its two blocks. *)
Record thread := Thread {
  todo : list nat;
  claimed : option (nat * (nat * nat))
}.

(** The vertices of the two loops of thread [t], in order. *)
Definition bfs_order (t T : nat) : list nat :=
  let ub := bfs_offset t T in seq ub (span x - ub) ++ seq 0 ub.

(** The next block of a thread. *)
Definition thread_step (fuel : nat) (th : thread) : M thread :=
  match claimed th with
  | Some (u, dc) => fl_work fuel u dc ;;; ret (Thread (todo th) None)
  | None =>
      match todo th with
      | [] => ret th
      | u :: us =>
          r <- fl_claim u ;;
          ret (Thread us (match r with Some dc => Some (u, dc) | None => None end))
      end
  end.

(** What is left of a thread when no other thread runs. *)
Definition thread_rest (fuel : nat) (th : thread) : M unit :=
  match claimed th with
  | Some (u, dc) => fl_work fuel u dc
  | None => ret tt
  end ;;;
  forEach (todo th) (fl fuel).

Definition finished (th : thread) : bool :=
  match todo th, claimed th with
  | [], None => true
  | _, _ => false
  end.

(** The threads [ths] run their blocks in the order [sched], a list of
    thread numbers. *)
Fixpoint run_threads (fuel : nat) (sched : list nat) (ths : list thread) :
    M (list thread) :=
  match sched with
  | [] => ret ths
  | t :: sched' =>
      match ths !! t with
      | Some th =>
          th' <- thread_step fuel th ;;
          run_threads fuel sched' (<[t:=th']> ths)
      | None => run_threads fuel sched' ths
      end
  end.

(** The splitter with [T] threads whose blocks run in the order [sched]. *)
Definition bfs_interleaved (fuel T : nat) (sched : list nat) : M (list thread) :=
  bfs_init ;;;
  run_threads fuel sched (map (λ t, Thread (bfs_order t T) None) (seq 0 T)).
End Splitters.

(** * Reasoning about computations *)

(** [wp c Q m]: run from [m], [c] ends without a fault, and its value and
    final memory satisfy [Q]. *)
Definition wp {A} (c : M A) (Q : A → mem → Prop) (m : mem) : Prop :=
  ∃ a m', c m = (m', Val a) ∧ Q a m'.

Section WpRules.
Context {A B : Type}.
Implicit Types (c : M A) (k : A → M B) (m : mem).

Lemma wp_ret (a : A) (Q : A → mem → Prop) m : Q a m → wp (ret a) Q m.
Proof. intros HQ. by exists a, m. Qed.

Lemma wp_bind c k (Q : B → mem → Prop) m :
  wp c (λ a m1, wp (k a) Q m1) m → wp (bind c k) Q m.
Proof.
  intros (a & m1 & Hc & b & m2 & Hk & HQ).
  exists b, m2. split; [|done]. unfold bind. by rewrite Hc.
Qed.

Lemma wp_mono c (Q Q' : A → mem → Prop) m :
  wp c Q m → (∀ a m', Q a m' → Q' a m') → wp c Q' m.
Proof. intros (a & m' & Hc & HQ) HQQ. exists a, m'. auto. Qed.

Lemma wp_run c (Q : A → mem → Prop) m m' r :
  wp c Q m → c m = (m', r) → ∃ a, r = Val a ∧ Q a m'.
Proof.
  intros (a & m1 & Hc & HQ) Hrun. rewrite Hc in Hrun.
  injection Hrun as -> <-. eauto.
Qed.

Lemma wp_and c (Q Q' : A → mem → Prop) m :
  wp c Q m → wp c Q' m → wp c (λ a m', Q a m' ∧ Q' a m') m.
Proof.
  intros (a & m1 & Hc & HQ) H'.
  destruct (wp_run _ _ _ _ _ H' Hc) as (a' & [= <-] & HQ').
  exists a, m1. auto.
Qed.
End WpRules.

Lemma wp_forEach {A} (I : mem → Prop) (l : list A) (f : A → M unit) m :
  I m →
  (∀ a m1, a ∈ l → I m1 → wp (f a) (λ _, I) m1) →
  wp (forEach l f) (λ _, I) m.
Proof.
  revert m. induction l as [|a l IH]; intros m Hm Hf; simpl.
  - by apply wp_ret.
  - apply wp_bind. eapply wp_mono; [apply Hf; [left|done]|].
    intros [] m1 Hm1. apply IH; [done|].
    intros b m2 Hb. apply Hf. by right.
Qed.

Lemma wp_foldM {A C} (I : C → mem → Prop) (f : C → A → M C) (l : list A) c m :
  I c m →
  (∀ a c1 m1, a ∈ l → I c1 m1 → wp (f c1 a) I m1) →
  wp (foldM f l c) I m.
Proof.
  revert c m. induction l as [|a l IH]; intros c m Hm Hf; simpl.
  - by apply wp_ret.
  - apply wp_bind. eapply wp_mono; [apply Hf; [left|done]|].
    intros c1 m1 Hm1. apply IH; [done|].
    intros b c2 m2 Hb. apply Hf. by right.
Qed.

(** Reads and writes inside their vectors. *)
Lemma wp_rd {A} b (l : list A) i (a : A) (Q : A → mem → Prop) m :
  l !! i = Some a → Q a m → wp (rd b l i) Q m.
Proof. intros Hl HQ. unfold rd. rewrite Hl. by apply wp_ret. Qed.

Lemma wp_get_vcom i c (Q : nat → mem → Prop) m :
  vcom m !! i = Some c → Q c m → wp (get_vcom i) Q m.
Proof. intros. unfold get_vcom. by eapply wp_rd. Qed.

Lemma wp_get_vaff i b (Q : bool → mem → Prop) m :
  vaff m !! i = Some b → Q b m → wp (get_vaff i) Q m.
Proof. intros. unfold get_vaff. by eapply wp_rd. Qed.

Lemma wp_get_vis i b (Q : bool → mem → Prop) m :
  vis m !! i = Some b → Q b m → wp (get_vis i) Q m.
Proof. intros. unfold get_vis. by eapply wp_rd. Qed.

Lemma wp_get_cbsy i b (Q : bool → mem → Prop) m :
  cbsy m !! i = Some b → Q b m → wp (get_cbsy i) Q m.
Proof. intros. unfold get_cbsy. by eapply wp_rd. Qed.

Lemma wp_get_vdom vdom i d (Q : nat → mem → Prop) m :
  vdom !! i = Some d → Q d m → wp (get_vdom vdom i) Q m.
Proof. intros. unfold get_vdom. by eapply wp_rd. Qed.

Lemma wp_set_vcom i c (Q : unit → mem → Prop) m :
  i < length (vcom m) →
  Q tt (Mem (<[i:=c]> (vcom m)) (vaff m) (vis m) (cbsy m)) →
  wp (set_vcom i c) Q m.
Proof. intros Hi HQ. unfold wp, set_vcom. rewrite decide_True by done. eauto. Qed.

Lemma wp_set_vaff i b (Q : unit → mem → Prop) m :
  i < length (vaff m) →
  Q tt (Mem (vcom m) (<[i:=b]> (vaff m)) (vis m) (cbsy m)) →
  wp (set_vaff i b) Q m.
Proof. intros Hi HQ. unfold wp, set_vaff. rewrite decide_True by done. eauto. Qed.

Lemma wp_set_vis i b (Q : unit → mem → Prop) m :
  i < length (vis m) →
  Q tt (Mem (vcom m) (vaff m) (<[i:=b]> (vis m)) (cbsy m)) →
  wp (set_vis i b) Q m.
Proof. intros Hi HQ. unfold wp, set_vis. rewrite decide_True by done. eauto. Qed.

Lemma wp_set_cbsy i b (Q : unit → mem → Prop) m :
  i < length (cbsy m) →
  Q tt (Mem (vcom m) (vaff m) (vis m) (<[i:=b]> (cbsy m))) →
  wp (set_cbsy i b) Q m.
Proof. intros Hi HQ. unfold wp, set_cbsy. rewrite decide_True by done. eauto. Qed.

(** Computations that agree on every memory; the monad laws used below. *)
Lemma bind_ext {A B} (c c' : M A) (k k' : A → M B) m :
  c m = c' m → (∀ a m1, k a m1 = k' a m1) → bind c k m = bind c' k' m.
Proof.
  intros Hc Hk. unfold bind. rewrite Hc. destruct (c' m) as [m1 [a|e]]; auto.
Qed.

Lemma forEach_ext {A} (l : list A) (f g : A → M unit) :
  (∀ a m, a ∈ l → f a m = g a m) → ∀ m, forEach l f m = forEach l g m.
Proof.
  induction l as [|a l IH]; intros Hfg m; simpl; [done|].
  apply bind_ext; [apply Hfg; left|]. intros _ m1. apply IH.
  intros b m2 Hb. apply Hfg. by right.
Qed.

Lemma foldM_ext {A C} (l : list A) (f g : C → A → M C) :
  (∀ c a m, a ∈ l → f c a m = g c a m) → ∀ c m, foldM f l c m = foldM g l c m.
Proof.
  induction l as [|a l IH]; intros Hfg c m; simpl; [done|].
  apply bind_ext; [apply Hfg; left|]. intros c1 m1. apply IH.
  intros c2 b m2 Hb. apply Hfg. by right.
Qed.

Lemma bind_ext_run {A B} (c c' : M A) (k k' : A → M B) m :
  c m = c' m → (∀ a m1, c' m = (m1, Val a) → k a m1 = k' a m1) →
  bind c k m = bind c' k' m.
Proof.
  intros Hc Hk. unfold bind. rewrite Hc. destruct (c' m) as [m1 [a|e]]; auto.
Qed.

Lemma bind_inv {A B} (c : M A) (k : A → M B) m m' b :
  bind c k m = (m', Val b) → ∃ a m1, c m = (m1, Val a) ∧ k a m1 = (m', Val b).
Proof.
  unfold bind. destruct (c m) as [m1 [a|e]]; [eauto|done].
Qed.

Lemma bind_assoc {A B C} (c : M A) (k : A → M B) (k' : B → M C) m :
  bind (bind c k) k' m = bind c (λ a, bind (k a) k') m.
Proof. unfold bind. by destruct (c m) as [m1 [a|e]]. Qed.

Lemma forEach_app {A} (l1 l2 : list A) (f : A → M unit) m :
  forEach (l1 ++ l2) f m = (forEach l1 f ;;; forEach l2 f) m.
Proof.
  revert m. induction l1 as [|a l1 IH]; intros m; simpl; [done|].
  rewrite bind_assoc. apply bind_ext; [done|]. intros _ m1. apply IH.
Qed.

(** * Graphs, communities and connected pieces *)

Section Pieces.
Variable x : graph.
Variable vdom : list nat.

(** [u] is a vertex of the graph. *)
Definition present (u : nat) : Prop := u < span x ∧ hasVertex x u = true.

(** Edges lead from vertices of the graph to vertices of the graph. *)
Definition graph_ok : Prop :=
  ∀ u v, present u → v ∈ edges x u → present v.

(** Every edge has its reverse: the graph is undirected. *)
Definition symmetric : Prop :=
  ∀ u v, present u → v ∈ edges x u → u ∈ edges x v.

(** [vdom] covers the span. *)
Definition vdom_ok : Prop := span x ≤ length vdom.

(** An edge between two vertices of one community. *)
Definition sedge (u v : nat) : Prop :=
  present u ∧ v ∈ edges x u ∧ vdom !! v = vdom !! u.

(** [v] is reached from [u] by a path whose vertices all lie in the
    community of [u]. *)
Definition reach : nat → nat → Prop := rtc sedge.

(** [c] is the smallest vertex id reached from [u] inside its community. *)
Definition min_rep (u c : nat) : Prop :=
  reach u c ∧ ∀ w, reach u w → c ≤ w.

Lemma reach_present u v : graph_ok → present u → reach u v → present v.
Proof.
  intros Hok Hu Hr. induction Hr as [|a b c [_ [Hb _]] _ IH]; [done|].
  apply IH. by eapply Hok.
Qed.

Lemma reach_vdom u v : reach u v → vdom !! v = vdom !! u.
Proof.
  induction 1 as [|a b c [_ [_ Hb]] _ IH]; [done|]. by rewrite IH.
Qed.

Lemma sedge_sym u v : graph_ok → symmetric → sedge u v → sedge v u.
Proof.
  intros Hok Hsym (Hu & Hv & Hd). split; [exact (Hok _ _ Hu Hv)|].
  split; [by apply Hsym|done].
Qed.

Lemma reach_sym u v : graph_ok → symmetric → reach u v → reach v u.
Proof.
  intros Hok Hsym. induction 1 as [|a b c Hab _ IH]; [done|].
  eapply rtc_r; [done|]. by apply sedge_sym.
Qed.

Lemma min_rep_unique u c c' : min_rep u c → min_rep u c' → c = c'.
Proof. intros [H1 H2] [H1' H2']. apply Nat.le_antisymm; auto. Qed.

Lemma min_rep_reach u v c :
  graph_ok → symmetric → reach u v → min_rep u c → min_rep v c.
Proof.
  intros Hok Hsym Huv [Hc Hmin]. split.
  - eapply rtc_trans; [by apply reach_sym|done].
  - intros w Hw. apply Hmin. eapply rtc_trans; [exact Huv|exact Hw].
Qed.
End Pieces.

(** * Verification of the splitters *)

Section Verification.
Variable x : graph.
Variable vdom : list nat.
Hypothesis Hok : graph_ok x.
Hypothesis Hdom : vdom_ok x vdom.

(** ** Label propagation *)

Section LpaProofs.
Variable PRUNE : bool.

(** The label and the community of a vertex. *)
Definition lab (m : mem) (u : nat) : nat := vcom m !!! u.
Definition com (u : nat) : nat := vdom !!! u.

(** The vectors of the label propagation cover the span. *)
Definition lpa_sized (m : mem) : Prop :=
  span x ≤ length (vcom m) ∧ (PRUNE = true → span x ≤ length (vaff m)).

(** The value of [c] after the first [forEachEdgeKey]. *)
Definition minlab (m : mem) (d : nat) (l : list nat) (c : nat) : nat :=
  foldl (λ c v, if decide (com v = d) then c `min` lab m v else c) c l.

Lemma minlab_le m d l c : minlab m d l c ≤ c.
Proof.
  revert c. induction l as [|v l IH]; intros c; simpl; [done|].
  etrans; [apply IH|]. case_decide; lia.
Qed.

Lemma minlab_mono m d l c c' : c ≤ c' → minlab m d l c ≤ minlab m d l c'.
Proof.
  revert c c'. induction l as [|v l IH]; intros c c' Hc; simpl; [done|].
  apply IH. case_decide; lia.
Qed.

Lemma minlab_lower m d l c v :
  v ∈ l → com v = d → minlab m d l c ≤ lab m v.
Proof.
  revert c. induction l as [|a l IH]; intros c Hv Hd; [by apply elem_of_nil in Hv|].
  apply elem_of_cons in Hv as [->|Hv]; simpl.
  - rewrite decide_True by done. etrans; [apply minlab_le|lia].
  - by apply IH.
Qed.

Lemma minlab_attained m d l c :
  minlab m d l c = c ∨ ∃ v, v ∈ l ∧ com v = d ∧ minlab m d l c = lab m v.
Proof.
  revert c. induction l as [|a l IH]; intros c; simpl; [by left|].
  destruct (IH (if decide (com a = d) then c `min` lab m a else c))
    as [Heq|(v & Hv & Hd & Heq)].
  - rewrite Heq. case_decide as Ha; [|by left].
    destruct (Nat.min_spec c (lab m a)) as [[_ ->]|[_ ->]]; [by left|].
    right. exists a. split; [left|done].
  - right. exists v. split; [by right|done].
Qed.

Lemma vdom_lookup v : v < span x → vdom !! v = Some (com v).
Proof. intros Hv. apply list_lookup_lookup_total_lt. unfold vdom_ok in Hdom. lia. Qed.

Lemma vcom_lookup m v : lpa_sized m → v < span x → vcom m !! v = Some (lab m v).
Proof. intros [Hm _] Hv. apply list_lookup_lookup_total_lt. lia. Qed.

Lemma vaff_lookup m v :
  lpa_sized m → PRUNE = true → v < span x → vaff m !! v = Some (vaff m !!! v).
Proof. intros [_ Hm] HP Hv. apply list_lookup_lookup_total_lt. specialize (Hm HP). lia. Qed.

(** The first [forEachEdgeKey] reads only. *)
Lemma lpa_scan_run m d l c :
  lpa_sized m → (∀ v, v ∈ l → v < span x) →
  foldM (lpa_scan vdom d) l c m = (m, Val (minlab m d l c)).
Proof.
  intros Hm. revert c. induction l as [|v l IH]; intros c Hl; simpl; [done|].
  assert (v < span x) as Hv by (apply Hl; left).
  unfold bind at 1, lpa_scan at 1, bind at 1, get_vdom, rd.
  rewrite (vdom_lookup v Hv). simpl.
  case_decide.
  - unfold bind, get_vcom, rd. rewrite (vcom_lookup m v Hm Hv). simpl.
    apply IH. intros w Hw. apply Hl. by right.
  - simpl. apply IH. intros w Hw. apply Hl. by right.
Qed.

(** The flags after the second [forEachEdgeKey]. *)
Lemma lpa_mark_run m d l :
  PRUNE = true → lpa_sized m → (∀ v, v ∈ l → v < span x) →
  wp (forEach l (lpa_mark vdom d)) (λ _ m',
    vcom m' = vcom m ∧ vis m' = vis m ∧ cbsy m' = cbsy m ∧
    length (vaff m') = length (vaff m) ∧
    ∀ w, vaff m' !!! w = vaff m !!! w || bool_decide (w ∈ l ∧ com w = d)) m.
Proof.
  intros HP. revert m. induction l as [|v l IH]; intros m Hm Hl; simpl.
  - apply wp_ret. split_and!; try done. intros w. by rewrite orb_false_r.
  - assert (v < span x) as Hv by (apply Hl; left).
    assert (∀ w, w ∈ l → w < span x) as Hl' by (intros w Hw; apply Hl; by right).
    apply wp_bind. unfold lpa_mark. apply wp_bind.
    eapply wp_get_vdom; [by apply vdom_lookup|].
    case_decide as Hd.
    + apply wp_bind. eapply wp_get_vaff; [by apply vaff_lookup|].
      destruct (vaff m !!! v) eqn:Hav; simpl.
      * apply wp_ret. eapply wp_mono; [by apply IH|].
        intros [] m' (? & ? & ? & ? & Hw). repeat split; try done.
        intros w. rewrite Hw. destruct (decide (w = v)) as [->|Hne].
        -- rewrite Hav. done.
        -- f_equal. apply bool_decide_ext. rewrite elem_of_cons. intuition congruence.
      * apply wp_set_vaff; [destruct Hm as [_ Hm]; specialize (Hm HP); lia|].
        eapply wp_mono; [apply IH; [|done]|].
        { destruct Hm as [? Hm]. split; [done|]. intros _. simpl.
          rewrite length_insert. by apply Hm. }
        simpl. intros [] m' (? & ? & ? & Hlen & Hw). rewrite length_insert in Hlen.
        repeat split; try done.
        intros w. rewrite Hw. destruct (decide (w = v)) as [->|Hne].
        -- rewrite list_lookup_total_insert_eq;
             [|destruct Hm as [_ Hm]; specialize (Hm HP); lia].
           rewrite Hav. simpl. symmetry. apply bool_decide_eq_true_2.
           split; [left|done].
        -- rewrite list_lookup_total_insert_ne by done.
           f_equal. apply bool_decide_ext. rewrite elem_of_cons. intuition congruence.
    + apply wp_ret. eapply wp_mono; [by apply IH|].
      intros [] m' (? & ? & ? & ? & Hw). repeat split; try done.
      intros w. rewrite Hw. f_equal. apply bool_decide_ext.
      rewrite elem_of_cons. intuition congruence.
Qed.

(** ** One visit *)

(** With pruning, only flagged vertices are rescanned. *)
Definition lpa_active (m : mem) (u : nat) : Prop :=
  PRUNE = false ∨ vaff m !!! u = true.

(** The visit of [u] changes its label: the memory after it. *)
Definition lpa_changed (m m' : mem) (u : nat) : Prop :=
  let c := minlab m (com u) (edges x u) (lab m u) in
  present x u ∧ lpa_active m u ∧ c < lab m u ∧
  vcom m' = <[u:=c]> (vcom m) ∧ vis m' = vis m ∧ cbsy m' = cbsy m ∧
  if PRUNE then
    length (vaff m') = length (vaff m) ∧
    ∀ w, vaff m' !!! w =
         (if decide (w = u) then false else vaff m !!! w)
         || bool_decide (w ∈ edges x u ∧ com w = com u)
  else vaff m' = vaff m.

(** The visit of [u] changes nothing: [u] is skipped or holds the
    minimum already. *)
Definition lpa_quiet (m : mem) (u : nat) : Prop :=
  present x u → lpa_active m u →
  minlab m (com u) (edges x u) (lab m u) = lab m u.

Lemma wp_eq {A} (c : M A) (Q : A → mem → Prop) m m' a :
  c m = (m', Val a) → Q a m' → wp c Q m.
Proof. intros Hc HQ. by exists a, m'. Qed.

Lemma edges_in_span u v : present x u → v ∈ edges x u → v < span x.
Proof. intros Hu Hv. by destruct (Hok u v Hu Hv). Qed.

Lemma lpa_visit_spec m u :
  lpa_sized m → u < span x →
  wp (lpa_visit x vdom PRUNE u)
     (λ b m', if b then lpa_changed m m' u else m' = m ∧ lpa_quiet m u) m.
Proof.
  intros Hm Hu. unfold lpa_visit.
  destruct (hasVertex x u) eqn:Hx; simpl.
  2:{ apply wp_ret. split; [done|]. intros [_ ?]. congruence. }
  assert (present x u) as Hpu by done.
  assert (∀ v, v ∈ edges x u → v < span x) as He
    by (intros v; by apply edges_in_span).
  apply wp_bind.
  assert (lpa_active m u →
    wp (d <- get_vdom vdom u;;
        c0 <- get_vcom u;;
        c <- foldM (lpa_scan vdom d) (edges x u) c0;;
        cu <- get_vcom u;;
        if decide (c = cu) then ret false else
        set_vcom u c;;;
        if negb PRUNE then ret true else
        set_vaff u false;;;
        forEach (edges x u) (lpa_mark vdom d);;; ret true)
       (λ b m', if b then lpa_changed m m' u else m' = m ∧ lpa_quiet m u) m)
    as Htail.
  { intros Hact.
    apply wp_bind. eapply wp_get_vdom; [by apply vdom_lookup|].
    apply wp_bind. eapply wp_get_vcom; [by apply vcom_lookup|].
    apply wp_bind. eapply wp_eq; [by apply lpa_scan_run|].
    apply wp_bind. eapply wp_get_vcom; [by apply vcom_lookup|].
    set (c := minlab m (com u) (edges x u) (lab m u)).
    assert (c ≤ lab m u) as Hle by apply minlab_le.
    case_decide as Hc.
    { apply wp_ret. split; [done|]. by intros _ _. }
    apply wp_bind. apply wp_set_vcom; [destruct Hm; lia|].
    destruct (decide (PRUNE = true)) as [HP|HP].
    - rewrite HP. simpl.
      apply wp_bind. apply wp_set_vaff; [simpl; destruct Hm as [_ Hm]; specialize (Hm HP); lia|].
      simpl. apply wp_bind. eapply wp_mono; [apply lpa_mark_run; [done| |done]|].
      { destruct Hm as [Hm1 Hm2]. split; simpl; rewrite length_insert; auto. }
      simpl. intros [] m' (Hvc & Hvis & Hcb & Hlen & Hw).
      apply wp_ret. unfold lpa_changed. fold c. rewrite HP.
      rewrite length_insert in Hlen.
      split_and!; try done; [lia|].
      intros w. rewrite Hw. f_equal. case_decide as Hwu.
      + subst w. apply list_lookup_total_insert_eq.
        destruct Hm as [_ Hm]. specialize (Hm HP). lia.
      + by apply list_lookup_total_insert_ne.
    - apply not_true_is_false in HP. rewrite HP. simpl.
      apply wp_ret. unfold lpa_changed. fold c. rewrite HP.
      split_and!; try done. lia. }
  destruct (decide (PRUNE = true)) as [HP|HP].
  - rewrite HP at 1. eapply wp_get_vaff; [by apply vaff_lookup|].
    destruct (vaff m !!! u) eqn:Ha; simpl.
    + apply Htail. by right.
    + apply wp_ret. split; [done|]. intros _ [?|?]; congruence.
  - apply not_true_is_false in HP. rewrite HP at 1. apply wp_ret. simpl.
    apply Htail. by left.
Qed.

(** ** Invariants of the rounds *)

(** The sum of the labels in the span: it bounds the number of rounds. *)
Definition mu (m : mem) : nat := sum_list (take (span x) (vcom m)).

(** Every label is the id of a vertex reached from its vertex inside the
    community, and is at most the id of its vertex; ids outside the graph
    keep themselves as label. *)
Definition lpa_inv (m : mem) : Prop :=
  lpa_sized m ∧
  ∀ u, u < span x →
    lab m u ≤ u ∧ reach x vdom u (lab m u) ∧ (¬ present x u → lab m u = u).

(** No label can decrease any more. *)
Definition lpa_stable (m : mem) : Prop :=
  ∀ u v, sedge x vdom u v → lab m u ≤ lab m v.

(** With pruning: an unflagged vertex holds the minimum of its
    neighbourhood. *)
Definition lpa_settled (m : mem) : Prop :=
  ∀ u v, present x u → vaff m !!! u = false → sedge x vdom u v →
         lab m u ≤ lab m v.

Lemma sum_list_insert (l : list nat) i c :
  i < length l → sum_list (<[i:=c]> l) + l !!! i = sum_list l + c.
Proof.
  revert i. induction l as [|a l IH]; intros [|i] Hi; simpl in *; try lia.
  specialize (IH i ltac:(lia)).
  change (l !!! i) with (lookup_total i l) in *.
  change ((a :: l) !!! S i) with (l !!! i). lia.
Qed.

Lemma mu_insert m m' u c :
  span x ≤ length (vcom m) → u < span x → c < lab m u →
  vcom m' = <[u:=c]> (vcom m) → mu m' < mu m.
Proof.
  intros Hlen Hu Hc Hm'. unfold mu. rewrite Hm', take_insert_lt by done.
  pose proof (sum_list_insert (take (span x) (vcom m)) u c) as Hs.
  rewrite length_take_le in Hs by done. specialize (Hs Hu).
  rewrite lookup_total_take_lt in Hs by done. unfold lab in Hc. lia.
Qed.

Lemma lab_insert m m' u c w :
  u < length (vcom m) → vcom m' = <[u:=c]> (vcom m) →
  lab m' w = if decide (w = u) then c else lab m w.
Proof.
  intros Hu Hm'. unfold lab. rewrite Hm'. case_decide as Hw.
  - subst w. by apply list_lookup_total_insert_eq.
  - by apply list_lookup_total_insert_ne.
Qed.

Lemma sedge_com u v :
  sedge x vdom u v → present x v ∧ com v = com u.
Proof.
  intros (Hu & Hv & Hd). pose proof (Hok u v Hu Hv) as Hpv. split; [done|].
  destruct Hu as [Hu _], Hpv as [Hpv _].
  rewrite (vdom_lookup u Hu), (vdom_lookup v Hpv) in Hd. congruence.
Qed.

Lemma sedge_intro u v :
  present x u → v ∈ edges x u → com v = com u → sedge x vdom u v.
Proof.
  intros Hu Hv Hd. split; [done|]. split; [done|].
  pose proof (Hok u v Hu Hv) as [Hpv _]. destruct Hu as [Hu _].
  rewrite (vdom_lookup u Hu), (vdom_lookup v Hpv). by rewrite Hd.
Qed.

Lemma lpa_changed_sized m m' u :
  lpa_sized m → lpa_changed m m' u → lpa_sized m'.
Proof.
  intros [Hm1 Hm2] (_ & _ & _ & Hvc & _ & _ & Haff). split.
  - rewrite Hvc, length_insert. done.
  - intros HP. rewrite HP in Haff. destruct Haff as [-> _]. auto.
Qed.

Lemma lpa_changed_lab m m' u w :
  lpa_sized m → u < span x → lpa_changed m m' u →
  lab m' w = if decide (w = u)
             then minlab m (com u) (edges x u) (lab m u) else lab m w.
Proof.
  intros [Hm _] Hu (_ & _ & _ & Hvc & _). apply lab_insert; [lia|done].
Qed.

Lemma lpa_changed_le m m' u w :
  lpa_sized m → u < span x → lpa_changed m m' u → lab m' w ≤ lab m w.
Proof.
  intros Hm Hu Hch. rewrite (lpa_changed_lab m m' u w Hm Hu Hch).
  destruct Hch as (_ & _ & Hlt & _). case_decide; [subst; lia|done].
Qed.

Lemma lpa_changed_inv m m' u :
  lpa_inv m → u < span x → lpa_changed m m' u → lpa_inv m' ∧ mu m' < mu m.
Proof.
  intros [Hm Hinv] Hu Hch. split; [split|].
  - by eapply lpa_changed_sized.
  - intros w Hw. rewrite (lpa_changed_lab m m' u w Hm Hu Hch).
    destruct Hch as (Hpu & _ & Hlt & _).
    destruct (Hinv w Hw) as (Hle & Hreach & Habs).
    case_decide as Hwu; [subst w|done].
    split; [lia|]. split; [|done].
    destruct (minlab_attained m (com u) (edges x u) (lab m u))
      as [Heq|(v & Hv & Hd & Heq)]; [lia|].
    rewrite Heq. eapply rtc_l; [by apply sedge_intro|].
    apply Hinv. by eapply edges_in_span.
  - destruct Hm as [Hm _]. destruct Hch as (_ & _ & Hlt & Hvc & _).
    by eapply mu_insert.
Qed.

Lemma lpa_quiet_lower m u v :
  lpa_quiet m u → lpa_active m u → sedge x vdom u v → lab m u ≤ lab m v.
Proof.
  intros Hq Hact Huv. destruct (sedge_com u v Huv) as [_ Hd].
  destruct Huv as (Hu & Hv & _). rewrite <- (Hq Hu Hact). by apply minlab_lower.
Qed.

Lemma lpa_changed_settled m m' u :
  PRUNE = true → symmetric x → lpa_sized m → u < span x →
  lpa_settled m → lpa_changed m m' u → lpa_settled m'.
Proof.
  intros HP Hsym Hm Hu Hset Hch w v Hw Hfl Hwv.
  rewrite !(lpa_changed_lab m m' u _ Hm Hu Hch).
  destruct Hch as (Hpu & _ & Hlt & _ & _ & _ & Haff).
  rewrite HP in Haff. destruct Haff as [_ Haff].
  rewrite Haff in Hfl. apply orb_false_iff in Hfl as [Hfl1 Hfl2].
  apply bool_decide_eq_false in Hfl2.
  destruct (sedge_com w v Hwv) as [Hpv Hd].
  destruct (decide (w = u)) as [->|Hwu].
  - destruct (decide (v = u)) as [->|Hvu]; [done|].
    apply minlab_lower; [by destruct Hwv as (_ & ? & _)|done].
  - destruct (decide (v = u)) as [->|Hvu].
    + exfalso. apply Hfl2. split; [|done].
      destruct Hwv as (? & ? & _). by apply Hsym.
    + by apply Hset.
Qed.

Lemma lpa_stable_min_rep m u :
  lpa_inv m → lpa_stable m → present x u → min_rep x vdom u (lab m u).
Proof.
  intros [_ Hinv] Hst Hu. split; [apply Hinv, Hu|].
  intros w Hr. pose proof (reach_present x vdom u w Hok Hu Hr) as [Hw _].
  etrans; [|apply (Hinv w Hw)].
  clear Hw Hu. induction Hr as [|a b c Hab _ IH]; [done|].
  etrans; [by apply Hst|done].
Qed.

(** Labels only decrease, and only inside the span. *)
Definition lpa_mono (m m' : mem) : Prop :=
  length (vcom m') = length (vcom m) ∧
  (∀ w, lab m' w ≤ lab m w) ∧
  (∀ w, span x ≤ w → lab m' w = lab m w).

Lemma lpa_mono_refl m : lpa_mono m m.
Proof. by split_and!. Qed.

Lemma lpa_mono_trans m1 m2 m3 : lpa_mono m1 m2 → lpa_mono m2 m3 → lpa_mono m1 m3.
Proof.
  intros (Hl1 & Hle1 & Hf1) (Hl2 & Hle2 & Hf2). split_and!.
  - congruence.
  - intros w. etrans; [apply Hle2|apply Hle1].
  - intros w Hw. rewrite Hf2, Hf1; done.
Qed.

Lemma lpa_changed_mono m m' u :
  lpa_sized m → u < span x → lpa_changed m m' u → lpa_mono m m'.
Proof.
  intros Hm Hu Hch. split_and!.
  - destruct Hch as (_ & _ & _ & -> & _). by rewrite length_insert.
  - intros w. by eapply lpa_changed_le.
  - intros w Hw. rewrite (lpa_changed_lab m m' u w Hm Hu Hch).
    rewrite decide_False by lia. done.
Qed.

(** ** Rounds *)

Lemma lpa_round_from us n0 m :
  lpa_sized m → (∀ u, u ∈ us → u < span x) →
  wp (foldM (λ ndel u, b <- lpa_visit x vdom PRUNE u;;
                       ret (if b then S ndel else ndel)) us n0)
     (λ ndel m',
        lpa_sized m' ∧ n0 ≤ ndel ∧ mu m' + ndel ≤ mu m + n0 ∧
        lpa_mono m m' ∧
        (ndel = n0 → m' = m ∧ ∀ u, u ∈ us → lpa_quiet m u) ∧
        (lpa_inv m → lpa_inv m') ∧
        (PRUNE = true → symmetric x → lpa_settled m → lpa_settled m')) m.
Proof.
  revert n0 m. induction us as [|u us IH]; intros n0 m Hm Hus; simpl.
  - apply wp_ret. split_and!; try done; try apply lpa_mono_refl.
    intros _. split; [done|].
    intros u Hu. by apply elem_of_nil in Hu.
  - assert (u < span x) as Hu by (apply Hus; left).
    assert (∀ w, w ∈ us → w < span x) as Hus' by (intros w Hw; apply Hus; by right).
    apply wp_bind, wp_bind.
    eapply wp_mono; [by apply lpa_visit_spec|].
    intros [] m1 H1; apply wp_ret.
    + pose proof (lpa_changed_sized m m1 u Hm H1) as Hm1.
      eapply wp_mono; [by apply IH|]. simpl.
      intros ndel m' (Hm' & Hn & Hmu & Hle & Hq & Hinv & Hset).
      assert (mu m1 ≤ mu m) as Hmu1.
      { unfold mu. destruct H1 as (_ & _ & Hlt & Hvc & _).
        destruct Hm as [Hm _].
        pose proof (mu_insert m m1 u _ Hm Hu Hlt Hvc). unfold mu in *. lia. }
      split_and!; try done; try lia.
      * destruct H1 as (_ & _ & Hlt & Hvc & _). destruct Hm as [Hm _].
        pose proof (mu_insert m m1 u _ Hm Hu Hlt Hvc). lia.
      * eapply lpa_mono_trans; [|done]. by eapply lpa_changed_mono.
      * intros Hi. apply Hinv. exact (proj1 (lpa_changed_inv m m1 u Hi Hu H1)).
      * intros HP Hsym Hs. apply Hset; try done.
        exact (lpa_changed_settled m m1 u HP Hsym Hm Hu Hs H1).
    + destruct H1 as [-> Hqu].
      eapply wp_mono; [by apply IH|]. simpl.
      intros ndel m' (Hm' & Hn & Hmu & Hle & Hq & Hinv & Hset).
      split_and!; try done.
      intros ->. destruct (Hq eq_refl) as [-> Hq']. split; [done|].
      intros w [->|Hw]%elem_of_cons; auto.
Qed.

Lemma lpa_round_spec us m :
  lpa_sized m → (∀ u, u ∈ us → u < span x) →
  wp (lpa_round x vdom PRUNE us)
     (λ ndel m',
        lpa_sized m' ∧ mu m' + ndel ≤ mu m ∧
        lpa_mono m m' ∧
        (ndel = 0 → m' = m ∧ ∀ u, u ∈ us → lpa_quiet m u) ∧
        (lpa_inv m → lpa_inv m') ∧
        (PRUNE = true → symmetric x → lpa_settled m → lpa_settled m')) m.
Proof.
  intros Hm Hus. eapply wp_mono; [by apply lpa_round_from|].
  simpl. intros ndel m' (? & ? & ? & ? & ? & ? & ?).
  split_and!; try done. lia.
Qed.

(** ** The round loop *)

(** The rounds [r], [r+1], ... [r+k-1], run unconditionally; the value
    is the list of their change counts. *)
Fixpoint lpa_rounds (sched : nat → list nat) (k r : nat) : M (list nat) :=
  match k with
  | 0 => ret []
  | S k' =>
      ndel <- lpa_round x vdom PRUNE (sched r) ;;
      ns <- lpa_rounds sched k' (S r) ;;
      ret (ndel :: ns)
  end.

(** A schedule orders, in every round, ids of the span. *)
Definition sched_in_span (sched : nat → list nat) : Prop :=
  ∀ r u, u ∈ sched r → u < span x.

Lemma lpa_loop_spec sched r m :
  lpa_sized m → sched_in_span sched →
  ∃ k ns m',
    k ≤ mu m ∧ length ns = k ∧ Forall (λ n, n ≠ 0) ns ∧
    lpa_rounds sched (S k) r m = (m', Val (ns ++ [0])) ∧
    (∀ fuel, k < fuel → lpa_loop x vdom PRUNE sched fuel r m = (m', Val tt)) ∧
    (∀ fuel, fuel ≤ k →
       ∃ m1, lpa_loop x vdom PRUNE sched fuel r m = (m1, Err OutOfFuel)) ∧
    lpa_sized m' ∧ lpa_mono m m' ∧
    (∀ u, u ∈ sched (r + k) → lpa_quiet m' u) ∧
    (lpa_inv m → lpa_inv m') ∧
    (PRUNE = true → symmetric x → lpa_settled m → lpa_settled m').
Proof.
  intros Hm Hsched. remember (mu m) as n eqn:Hn.
  revert r m Hm Hn. induction n as [n IH] using lt_wf_ind; intros r m Hm ->.
  destruct (lpa_round_spec (sched r) m Hm (Hsched r))
    as (ndel & m1 & Hrun & Hm1 & Hmu & Hlab & Hq & Hinv & Hset).
  destruct (decide (ndel = 0)) as [->|Hnd].
  - destruct (Hq eq_refl) as [-> Hq'].
    exists 0, [], m. split_and!.
    + lia.
    + done.
    + done.
    + simpl. unfold bind. rewrite Hrun. done.
    + intros [|fuel] Hf; [lia|]. simpl. unfold bind. by rewrite Hrun.
    + intros fuel Hf. assert (fuel = 0) as -> by lia. by exists m.
    + done.
    + done.
    + by rewrite Nat.add_0_r.
    + done.
    + done.
  - destruct (IH (mu m1) ltac:(lia) (S r) m1 Hm1 eq_refl)
      as (k & ns & m' & Hk & Hlen & Hns & Hrounds & Hloop & Hstuck
          & Hm' & Hlab' & Hq' & Hinv' & Hset').
    exists (S k), (ndel :: ns), m'. split_and!.
    + lia.
    + simpl. by rewrite Hlen.
    + by constructor.
    + change (lpa_rounds sched (S (S k)) r m) with
        ((ndel <- lpa_round x vdom PRUNE (sched r) ;;
          ns <- lpa_rounds sched (S k) (S r) ;;
          ret (ndel :: ns)) m).
      unfold bind at 1. rewrite Hrun. unfold bind at 1. rewrite Hrounds. done.
    + intros [|fuel] Hf; [lia|]. simpl. unfold bind. rewrite Hrun.
      rewrite decide_False by done. apply Hloop. lia.
    + intros [|fuel] Hf; [by exists m|]. simpl. unfold bind. rewrite Hrun.
      rewrite decide_False by done. apply Hstuck. lia.
    + done.
    + by eapply lpa_mono_trans.
    + replace (r + S k) with (S r + k) by lia. done.
    + auto.
    + auto.
Qed.

(** ** The first loop *)

Lemma lpa_init_from a n m :
  lpa_sized m → a + n ≤ span x →
  wp (forEach (seq a n) (λ u, set_vcom u u;;;
                              if PRUNE then set_vaff u true else ret tt))
     (λ _ m',
        lpa_sized m' ∧ length (vcom m') = length (vcom m) ∧
        (∀ u, lab m' u = if decide (a ≤ u < a + n) then u else lab m u) ∧
        (PRUNE = true → ∀ u, vaff m' !!! u =
           if decide (a ≤ u < a + n) then true else vaff m !!! u)) m.
Proof.
  revert a m. induction n as [|n IH]; intros a m Hm Han; simpl.
  - apply wp_ret. split_and!; [done|done|..].
    + intros u. rewrite decide_False by lia. done.
    + intros _ u. rewrite decide_False by lia. done.
  - apply wp_bind, wp_bind. apply wp_set_vcom; [destruct Hm; lia|].
    set (m1 := Mem (<[a:=a]> (vcom m)) (vaff m) (vis m) (cbsy m)).
    assert (lpa_sized m1) as Hm1.
    { destruct Hm as [Hm1 Hm2]. split; simpl; [by rewrite length_insert|done]. }
    assert (∀ u, lab m1 u = if decide (u = a) then a else lab m u) as Hlab1.
    { intros u. apply lab_insert; [destruct Hm; lia|done]. }
    destruct (decide (PRUNE = true)) as [HP|HP].
    + rewrite HP at 1.
      assert (a < length (vaff m)) as Ha
        by (destruct Hm as [_ Hm]; specialize (Hm HP); lia).
      apply wp_set_vaff; [done|]. simpl.
      set (m2 := Mem (<[a:=a]> (vcom m)) (<[a:=true]> (vaff m)) (vis m) (cbsy m)).
      assert (lpa_sized m2) as Hm2.
      { destruct Hm1 as [? Hl]. split; simpl; [done|]. intros _.
        rewrite length_insert. by apply Hl. }
      eapply wp_mono; [apply IH; [done|lia]|]. simpl.
      intros [] m' (Hm' & Hlen & Hlab & Haff).
      split_and!; [done|by rewrite Hlen, length_insert| |].
      * intros u. rewrite Hlab. change (lab m2 u) with (lab m1 u). rewrite Hlab1.
        repeat case_decide; try lia; done.
      * intros _ u. rewrite (Haff HP). simpl.
        destruct (decide (u = a)) as [->|Hne].
        -- rewrite list_lookup_total_insert_eq by done.
           repeat case_decide; try lia; done.
        -- rewrite list_lookup_total_insert_ne by done.
           repeat case_decide; try lia; done.
    + apply not_true_is_false in HP. rewrite HP at 1. apply wp_ret.
      eapply wp_mono; [apply IH; [done|lia]|]. simpl.
      intros [] m' (Hm' & Hlen & Hlab & Haff).
      split_and!; [done|by rewrite Hlen, length_insert| |intros; congruence].
      intros u. rewrite Hlab, Hlab1. repeat case_decide; try lia; done.
Qed.

Lemma sum_list_bound (l : list nat) b :
  (∀ i, i < length l → l !!! i ≤ b) → sum_list l ≤ length l * b.
Proof.
  induction l as [|a l IH]; intros Hl; simpl; [lia|].
  pose proof (Hl 0 ltac:(simpl; lia)) as H0. simpl in H0.
  assert (sum_list l ≤ length l * b); [|lia].
  apply IH. intros i Hi. apply (Hl (S i)). simpl. lia.
Qed.

Lemma lpa_init_spec m :
  lpa_sized m →
  wp (lpa_init x PRUNE)
     (λ _ m', lpa_inv m' ∧ (PRUNE = true → lpa_settled m') ∧
              mu m' ≤ span x * span x ∧
              length (vcom m') = length (vcom m) ∧
              ∀ u, lab m' u = if decide (u < span x) then u else lab m u) m.
Proof.
  intros Hm. unfold lpa_init.
  eapply wp_mono; [apply (lpa_init_from 0 (span x) m Hm); lia|]. simpl.
  intros [] m' (Hm' & Hlen & Hlab & Haff).
  assert (∀ u, u < span x → lab m' u = u) as Hlab'.
  { intros u Hu. rewrite Hlab. rewrite decide_True by lia. done. }
  split_and!; [split; [done|]|..|done|].
  - intros u Hu. rewrite (Hlab' u Hu). split_and!; done.
  - intros HP u v Hu Hfl Huv.
    rewrite (Haff HP), decide_True in Hfl; [done|]. destruct Hu. lia.
  - unfold mu. destruct Hm' as [Hsz _].
    pose proof (sum_list_bound (take (span x) (vcom m')) (span x)) as Hb.
    rewrite length_take_le in Hb by done. apply Hb.
    intros i Hi. rewrite lookup_total_take_lt by done.
    fold (lab m' i). rewrite Hlab' by done. lia.
  - intros u. rewrite Hlab. repeat case_decide; try lia; done.
Qed.

(** ** The whole splitter *)

(** Every round runs each iteration of the parallel [for] once. *)
Definition sched_ok (sched : nat → list nat) : Prop :=
  ∀ r, sched r ≡ₚ seq 0 (span x).

Lemma sched_ok_in_span sched : sched_ok sched → sched_in_span sched.
Proof.
  intros Hs r u Hu. rewrite (Hs r) in Hu. apply elem_of_seq in Hu. lia.
Qed.

Lemma sched_ok_complete sched r u : sched_ok sched → u < span x → u ∈ sched r.
Proof. intros Hs Hu. rewrite (Hs r). apply elem_of_seq. lia. Qed.

Lemma lpa_quiet_stable m (us : list nat) :
  (∀ u, u < span x → u ∈ us) →
  (∀ u, u ∈ us → lpa_quiet m u) →
  (PRUNE = true → lpa_settled m) →
  lpa_stable m.
Proof.
  intros Hall Hq Hset u v Huv. pose proof Huv as ([Hu Hxu] & _ & _).
  destruct (decide (PRUNE = true)) as [HP|HP].
  - destruct (vaff m !!! u) eqn:Ha.
    + eapply lpa_quiet_lower; [by apply Hq, Hall| |done]. by right.
    + by apply (Hset HP).
  - apply not_true_is_false in HP.
    eapply lpa_quiet_lower; [by apply Hq, Hall| |done]. by left.
Qed.

(** The result of the label propagation. *)
Definition lpa_result (m m' : mem) : Prop :=
  lpa_inv m' ∧
  length (vcom m') = length (vcom m) ∧
  (∀ u, span x ≤ u → lab m' u = lab m u) ∧
  (PRUNE = false ∨ symmetric x → lpa_stable m').

Lemma lpa_run sched m :
  lpa_sized m → sched_ok sched →
  ∃ k ns m1 m',
    lpa_init x PRUNE m = (m1, Val tt) ∧
    k ≤ span x * span x ∧ length ns = k ∧ Forall (λ n, n ≠ 0) ns ∧
    lpa_rounds sched (S k) 0 m1 = (m', Val (ns ++ [0])) ∧
    (∀ fuel, k < fuel →
       splitDisconnectedCommunitiesLpaOmpW x vdom PRUNE sched fuel m = (m', Val tt)) ∧
    (∀ fuel, fuel ≤ k → ∃ m2,
       splitDisconnectedCommunitiesLpaOmpW x vdom PRUNE sched fuel m
       = (m2, Err OutOfFuel)) ∧
    lpa_result m m'.
Proof.
  intros Hm Hs.
  destruct (lpa_init_spec m Hm)
    as ([] & m1 & Hinit & Hinv1 & Hset1 & Hmu1 & Hlen1 & Hlab1).
  destruct (lpa_loop_spec sched 0 m1 (proj1 Hinv1) (sched_ok_in_span _ Hs))
    as (k & ns & m' & Hk & Hlen & Hns & Hrounds & Hloop & Hstuck
        & Hm' & Hlab' & Hq' & Hinv' & Hset').
  exists k, ns, m1, m'. split_and!; try done.
  - lia.
  - intros fuel Hf. unfold splitDisconnectedCommunitiesLpaOmpW, bind.
    rewrite Hinit. by apply Hloop.
  - intros fuel Hf. unfold splitDisconnectedCommunitiesLpaOmpW, bind.
    rewrite Hinit. by apply Hstuck.
  - destruct Hlab' as (Hlen' & _ & Hfr'). split_and!.
    + by apply Hinv'.
    + congruence.
    + intros u Hu. rewrite Hfr', Hlab1 by done. rewrite decide_False by lia. done.
    + intros Hcase. eapply (lpa_quiet_stable m' (sched (0 + k))).
      * intros u Hu. by apply sched_ok_complete.
      * done.
      * intros HP. destruct Hcase as [?|Hsym]; [congruence|]. auto.
Qed.
End LpaProofs.

(** ** Traversals *)

(** ** Counting unvisited vertices *)

Definition cnt (l : list bool) : nat :=
  sum_list_with (λ b : bool, if b then 0 else 1) l.

Lemma cnt_le_length l : cnt l ≤ length l.
Proof. induction l as [|[] l IH]; simpl; lia. Qed.

Lemma cnt_mono (l l' : list bool) :
  length l' = length l →
  (∀ i, l !!! i = true → l' !!! i = true) →
  cnt l' ≤ cnt l.
Proof.
  revert l'. induction l as [|b l IH]; intros [|b' l'] Hlen Hmono; simpl in *; try lia.
  assert (cnt l' ≤ cnt l) as Hrec.
  { apply IH; [lia|]. intros i Hi. apply (Hmono (S i)). done. }
  pose proof (Hmono 0) as H0. simpl in H0.
  destruct b, b'; simpl; try lia; by specialize (H0 eq_refl).
Qed.

Lemma cnt_lt (l l' : list bool) i :
  length l' = length l →
  (∀ j, l !!! j = true → l' !!! j = true) →
  i < length l → l !!! i = false → l' !!! i = true →
  cnt l' < cnt l.
Proof.
  revert l' i. induction l as [|b l IH]; intros [|b' l'] i Hlen Hmono Hi Hf Ht;
    simpl in *; try lia.
  assert (∀ j, l !!! j = true → l' !!! j = true) as Hmono'.
  { intros j Hj. apply (Hmono (S j)). done. }
  destruct i as [|i].
  - simpl in Hf, Ht. subst b b'. pose proof (cnt_mono l l' ltac:(lia) Hmono'). simpl. lia.
  - assert (cnt l' < cnt l) as Hrec.
    { apply (IH l' i); try done; lia. }
    pose proof (Hmono 0) as H0. simpl in H0.
    destruct b, b'; simpl; try lia; by specialize (H0 eq_refl).
Qed.

Section Traversal.
Local Abbreviation reach := (reach x vdom).
Local Abbreviation sedge := (sedge x vdom).

(** The vectors of a traversal cover the span. *)
Definition trav_sized (m : mem) : Prop :=
  span x ≤ length (vcom m) ∧ span x ≤ length (vis m).

(** The number of unvisited ids of the span. *)
Definition unvis (m : mem) : nat := cnt (take (span x) (vis m)).

(** [w] is visited between [m] and [m']. *)
Definition newly (m m' : mem) (w : nat) : Prop :=
  vis m !!! w = false ∧ vis m' !!! w = true.

Global Instance newly_dec m m' w : Decision (newly m m' w).
Proof. unfold newly. apply _. Defined.

Lemma unvis_le_span m : unvis m ≤ span x.
Proof.
  unfold unvis. etrans; [apply cnt_le_length|]. rewrite length_take. lia.
Qed.

Lemma unvis_mono m m' :
  length (vis m') = length (vis m) →
  (∀ w, vis m !!! w = true → vis m' !!! w = true) →
  unvis m' ≤ unvis m.
Proof.
  intros Hlen Hmono. unfold unvis. apply cnt_mono.
  - rewrite !length_take. lia.
  - intros i. destruct (decide (i < span x)) as [Hi|Hi].
    + rewrite !lookup_total_take_lt by done. apply Hmono.
    + rewrite !lookup_total_take_ge by lia. done.
Qed.

Lemma unvis_lt m m' w :
  trav_sized m →
  length (vis m') = length (vis m) →
  (∀ w, vis m !!! w = true → vis m' !!! w = true) →
  w < span x → newly m m' w →
  unvis m' < unvis m.
Proof.
  intros [_ Hm] Hlen Hmono Hw [Hf Ht]. unfold unvis. apply (cnt_lt _ _ w).
  - rewrite !length_take. lia.
  - intros i. destruct (decide (i < span x)) as [Hi|Hi].
    + rewrite !lookup_total_take_lt by done. apply Hmono.
    + rewrite !lookup_total_take_ge by lia. done.
  - rewrite length_take. lia.
  - by rewrite lookup_total_take_lt.
  - by rewrite lookup_total_take_lt.
Qed.

Lemma reach_com s w : reach s w → com w = com s.
Proof.
  intros Hr%reach_vdom. unfold com. rewrite !list_lookup_total_alt.
  by rewrite Hr.
Qed.

Section Root.
(** The community [d] of the root and the label [c] it hands out. *)
Variables d c : nat.

(** Between [m] and [m'] vertices are only marked visited, and the
    vertices marked get the label [c]. *)
Definition trav_frame (m m' : mem) : Prop :=
  length (vcom m') = length (vcom m) ∧
  length (vis m') = length (vis m) ∧
  cbsy m' = cbsy m ∧ vaff m' = vaff m ∧
  (∀ w, vis m !!! w = true → vis m' !!! w = true) ∧
  (∀ w, lab m' w = if decide (newly m m' w) then c else lab m w).

(** What a traversal from the sources [srcs] and the pending frontier
    [pend] has done between [m] and [m']. *)
Definition trav_post (srcs pend : list nat) (m m' : mem) : Prop :=
  trav_frame m m' ∧
  (∀ w, newly m m' w → com w = d ∧ ∃ s, s ∈ srcs ++ pend ∧ reach s w) ∧
  (∀ w v, newly m m' w ∨ w ∈ pend → v ∈ edges x w → com v = d →
          vis m' !!! v = true) ∧
  (∀ s, s ∈ srcs → com s = d → vis m' !!! s = true).

Lemma trav_frame_sized m m' : trav_sized m → trav_frame m m' → trav_sized m'.
Proof. intros [? ?] (Hl1 & Hl2 & _). split; lia. Qed.

Lemma trav_frame_unvis m m' : trav_frame m m' → unvis m' ≤ unvis m.
Proof. intros (_ & Hl & _ & _ & Hmono & _). by apply unvis_mono. Qed.

Lemma trav_frame_refl m : trav_frame m m.
Proof.
  split_and!; try done.
  intros w. rewrite decide_False; [done|]. intros [? ?]. congruence.
Qed.

Lemma newly_trans m m1 m2 w :
  trav_frame m m1 → trav_frame m1 m2 →
  newly m m2 w ↔ newly m m1 w ∨ newly m1 m2 w.
Proof.
  intros (_ & _ & _ & _ & Hm1 & _) (_ & _ & _ & _ & Hm2 & _).
  unfold newly. split.
  - intros [Hf Ht]. destruct (vis m1 !!! w) eqn:E; auto.
  - intros [[Hf Ht]|[Hf Ht]]; split; auto.
    destruct (vis m !!! w) eqn:E; [|done]. rewrite Hm1 in Hf; done.
Qed.

Lemma trav_frame_trans m m1 m2 :
  trav_frame m m1 → trav_frame m1 m2 → trav_frame m m2.
Proof.
  intros H1 H2. pose proof (λ w, newly_trans m m1 m2 w H1 H2) as Hnew.
  destruct H1 as (Hl1 & Hv1 & Hc1 & Ha1 & Hm1 & Hlab1).
  destruct H2 as (Hl2 & Hv2 & Hc2 & Ha2 & Hm2 & Hlab2).
  split_and!; try congruence.
  - auto.
  - intros w. rewrite Hlab2, Hlab1.
    repeat case_decide; try done; rewrite Hnew in *; tauto.
Qed.

(** Marking and labelling one unvisited vertex. *)
Lemma trav_frame_mark m u :
  trav_sized m → u < span x → vis m !!! u = false →
  let m2 := Mem (<[u:=c]> (vcom m)) (vaff m) (<[u:=true]> (vis m)) (cbsy m) in
  trav_frame m m2 ∧ ∀ w, newly m m2 w ↔ w = u.
Proof.
  intros [Hsz1 Hsz2] Hu Hvu m2.
  assert (vis m2 !!! u = true) as Hu2.
  { simpl. apply list_lookup_total_insert_eq. lia. }
  assert (∀ w, w ≠ u → vis m2 !!! w = vis m !!! w) as Hne2.
  { intros w Hw. simpl. by apply list_lookup_total_insert_ne. }
  assert (∀ w, newly m m2 w ↔ w = u) as Hnew.
  { intros w. unfold newly. destruct (decide (w = u)) as [->|Hw]; [tauto|].
    rewrite (Hne2 w Hw). split; [|done]. intros [? ?]. congruence. }
  split; [|done]. split_and!; simpl; try done.
  - by rewrite length_insert.
  - by rewrite length_insert.
  - intros w Hw. destruct (decide (w = u)) as [->|Hne]; [done|].
    by rewrite list_lookup_total_insert_ne.
  - intros w. unfold lab. simpl. destruct (decide (w = u)) as [->|Hne].
    + rewrite decide_True by (by apply Hnew).
      apply list_lookup_total_insert_eq. lia.
    + rewrite decide_False by (by rewrite Hnew).
      by apply list_lookup_total_insert_ne.
Qed.

Lemma trav_refl srcs pend m :
  (∀ s, s ∈ srcs → com s = d → vis m !!! s = true) →
  (∀ w v, w ∈ pend → v ∈ edges x w → com v = d → vis m !!! v = true) →
  trav_post srcs pend m m.
Proof.
  intros Hs Hp. split_and!; try done.
  - apply trav_frame_refl.
  - intros w [? ?]. congruence.
  - intros w v [[? ?]|Hw]; [congruence|]. by apply Hp.
Qed.

Lemma trav_comp s1 p1 s2 p2 m m1 m2 :
  trav_post s1 p1 m m1 → trav_post s2 p2 m1 m2 →
  trav_post (s1 ++ s2) (p1 ++ p2) m m2.
Proof.
  intros (Hf1 & Hr1 & Hcl1 & Hs1) (Hf2 & Hr2 & Hcl2 & Hs2).
  pose proof (λ w, newly_trans m m1 m2 w Hf1 Hf2) as Hnew.
  pose proof Hf2 as (_ & _ & _ & _ & Hm2 & _).
  split_and!.
  - by eapply trav_frame_trans.
  - intros w [Hw|Hw]%Hnew.
    + destruct (Hr1 w Hw) as (Hd & s & Hs & Hr). split; [done|].
      exists s. split; [|done]. rewrite !elem_of_app in *. tauto.
    + destruct (Hr2 w Hw) as (Hd & s & Hs & Hr). split; [done|].
      exists s. split; [|done]. rewrite !elem_of_app in *. tauto.
  - intros w v Hw Hv Hd.
    assert ((newly m m1 w ∨ w ∈ p1) ∨ (newly m1 m2 w ∨ w ∈ p2)) as [H1|H2].
    { destruct Hw as [Hw|Hw]; [apply Hnew in Hw|apply elem_of_app in Hw]; tauto. }
    + apply Hm2. by eapply Hcl1.
    + by eapply Hcl2.
  - intros s [Hs|Hs]%elem_of_app Hd; [apply Hm2|]; auto.
Qed.

(** The root [u] is marked and labelled, then the traversal goes on
    from its edges or from the frontier [[u]]. *)
Lemma trav_root srcs pend u m m3 :
  trav_sized m → present x u → com u = d → vis m !!! u = false →
  trav_post srcs pend
    (Mem (<[u:=c]> (vcom m)) (vaff m) (<[u:=true]> (vis m)) (cbsy m)) m3 →
  (∀ s, s ∈ srcs ++ pend → com s = d → reach u s) →
  (∀ v, v ∈ edges x u → com v = d → vis m3 !!! v = true) →
  trav_post [u] [] m m3.
Proof.
  intros Hsz [Hu Hxu] Hdu Hvu (Hf & Hr & Hcl & Hs) Hsrc Hclu.
  destruct (trav_frame_mark m u Hsz Hu Hvu) as [Hf2 Hnew2].
  set (m2 := Mem (<[u:=c]> (vcom m)) (vaff m) (<[u:=true]> (vis m)) (cbsy m)) in *.
  pose proof (λ w, newly_trans m m2 m3 w Hf2 Hf) as Hnew.
  split_and!.
  - by eapply trav_frame_trans.
  - intros w [->%Hnew2|Hw]%Hnew.
    + split; [done|]. exists u. split; [left|done].
    + destruct (Hr w Hw) as (Hd & s & Hs' & Hrs). split; [done|].
      exists u. split; [left|]. eapply rtc_trans; [|exact Hrs].
      apply Hsrc; [done|]. rewrite <- Hd. symmetry. by apply reach_com.
  - intros w v [[->%Hnew2|Hw]%Hnew|Hw] Hv' Hd.
    + by apply Hclu.
    + eapply Hcl; [by left|done|done].
    + by apply elem_of_nil in Hw.
  - intros s ->%list_elem_of_singleton _.
    destruct Hf as (_ & _ & _ & _ & Hm & _). apply Hm.
    simpl. apply list_lookup_total_insert_eq. destruct Hsz. lia.
Qed.

Lemma vis_lookup m v :
  trav_sized m → v < span x → vis m !! v = Some (vis m !!! v).
Proof. intros [_ Hm] Hv. apply list_lookup_lookup_total_lt. lia. Qed.

(** ** The depth-first traversal *)

Lemma dfs_spec fuel u m :
  trav_sized m → present x u → unvis m < fuel →
  wp (dfsVisitedForEachU x fuel (split_ft vdom d) (split_fp c) u)
     (λ _ m', trav_post [u] [] m m') m.
Proof.
  revert u m. induction fuel as [|f IH]; intros u m Hm Hu Hf; [lia|].
  simpl. pose proof Hu as [Hus Hxu].
  apply wp_bind. eapply wp_get_vis; [by apply vis_lookup|].
  destruct (vis m !!! u) eqn:Hvu.
  { apply wp_ret. apply trav_refl.
    - by intros s ->%list_elem_of_singleton _.
    - intros w v Hw. by apply elem_of_nil in Hw. }
  apply wp_bind. unfold split_ft. apply wp_bind.
  eapply wp_get_vdom; [by apply vdom_lookup|]. apply wp_ret.
  case_bool_decide as Hd; simpl.
  2:{ apply wp_ret. apply trav_refl.
      - by intros s ->%list_elem_of_singleton ?.
      - intros w v Hw. by apply elem_of_nil in Hw. }
  apply wp_bind. apply wp_set_vis; [destruct Hm; lia|].
  apply wp_bind. unfold split_fp. apply wp_set_vcom; [destruct Hm; simpl; lia|].
  simpl.
  destruct (trav_frame_mark m u Hm Hus Hvu) as [Hf2 Hnew2].
  set (m2 := Mem (<[u:=c]> (vcom m)) (vaff m) (<[u:=true]> (vis m)) (cbsy m)) in *.
  pose proof (trav_frame_sized m m2 Hm Hf2) as Hm2.
  assert (unvis m2 < f) as Hf'.
  { destruct Hf2 as (_ & Hl & _ & _ & Hmono & _).
    pose proof (unvis_lt m m2 u Hm Hl Hmono Hus (proj2 (Hnew2 u) eq_refl)). lia. }
  assert (∀ l m1, (∀ v, v ∈ l → present x v) → trav_sized m1 → unvis m1 < f →
            wp (forEach l (dfsVisitedForEachU x f (split_ft vdom d) (split_fp c)))
               (λ _ m', trav_post l [] m1 m') m1) as Hloop.
  { clear -IH Hok Hdom. induction l as [|v l IHl]; intros m1 Hl Hm1 Hf1; simpl.
    - apply wp_ret. apply trav_refl.
      + intros s Hs. by apply elem_of_nil in Hs.
      + intros w v Hw. by apply elem_of_nil in Hw.
    - apply wp_bind. eapply wp_mono; [apply IH; [done| |done]|].
      { apply Hl. left. }
      intros [] m' Hp1. eapply wp_mono; [apply IHl|].
      + intros w Hw. apply Hl. by right.
      + eapply trav_frame_sized; [done|apply Hp1].
      + pose proof (trav_frame_unvis m1 m' (proj1 Hp1)). lia.
      + intros [] m'' Hp2. simpl. apply (trav_comp [v] [] l [] m1 m' m''); done. }
  eapply wp_mono; [apply Hloop; [|done|done]|].
  { intros v Hv. by eapply Hok. }
  intros [] m3 Hp. eapply trav_root; try done.
  - intros s Hs Hds. rewrite app_nil_r in Hs. apply rtc_once.
    apply sedge_intro; try done. congruence.
  - intros v Hv Hdv. destruct Hp as (_ & _ & _ & Hsrc). by apply Hsrc.
Qed.

(** ** The breadth-first traversal *)

(** One level: the candidates [cand] are examined between [m] and
    [m'], and the vertices discovered are appended to the frontier. *)
Definition disc_post (cand vs0 vs : list nat) (m m' : mem) : Prop :=
  trav_frame m m' ∧
  (∀ w, w ∈ vs ↔ w ∈ vs0 ∨ newly m m' w) ∧
  (∀ w, newly m m' w → com w = d ∧ w ∈ cand) ∧
  (∀ v, v ∈ cand → com v = d → vis m' !!! v = true).

Lemma disc_refl vs m : disc_post [] vs vs m m.
Proof.
  split_and!.
  - apply trav_frame_refl.
  - intros w. split; [by left|]. intros [?|[? ?]]; [done|congruence].
  - intros w [? ?]. congruence.
  - intros v Hv. by apply elem_of_nil in Hv.
Qed.

Lemma disc_comp c1 c2 vs0 vs1 vs2 m m1 m2 :
  disc_post c1 vs0 vs1 m m1 → disc_post c2 vs1 vs2 m1 m2 →
  disc_post (c1 ++ c2) vs0 vs2 m m2.
Proof.
  intros (Hf1 & Hvs1 & Hn1 & Hs1) (Hf2 & Hvs2 & Hn2 & Hs2).
  pose proof (λ w, newly_trans m m1 m2 w Hf1 Hf2) as Hnew.
  pose proof Hf2 as (_ & _ & _ & _ & Hm2 & _).
  split_and!.
  - by eapply trav_frame_trans.
  - intros w. rewrite Hvs2, Hvs1, Hnew. tauto.
  - intros w [Hw|Hw]%Hnew.
    + destruct (Hn1 w Hw). split; [done|]. apply elem_of_app. by left.
    + destruct (Hn2 w Hw). split; [done|]. apply elem_of_app. by right.
  - intros v [Hv|Hv]%elem_of_app Hd; [apply Hm2|]; auto.
Qed.

Lemma bfs_discover_spec dep vs v m :
  trav_sized m → v < span x →
  wp (bfs_discover (λ v _, split_ft vdom d v) (λ v _, split_fp c v) dep vs v)
     (λ vs' m', disc_post [v] vs vs' m m') m.
Proof.
  intros Hm Hv. unfold bfs_discover.
  apply wp_bind. eapply wp_get_vis; [by apply vis_lookup|].
  destruct (vis m !!! v) eqn:Hvv.
  { apply wp_ret. split_and!.
    - apply trav_frame_refl.
    - intros w. split; [by left|]. intros [?|[? ?]]; [done|congruence].
    - intros w [? ?]. congruence.
    - by intros s ->%list_elem_of_singleton _. }
  apply wp_bind. unfold split_ft. apply wp_bind.
  eapply wp_get_vdom; [by apply vdom_lookup|]. apply wp_ret.
  case_bool_decide as Hd; simpl.
  2:{ apply wp_ret. split_and!.
      - apply trav_frame_refl.
      - intros w. split; [by left|]. intros [?|[? ?]]; [done|congruence].
      - intros w [? ?]. congruence.
      - by intros s ->%list_elem_of_singleton ?. }
  apply wp_bind. apply wp_set_vis; [destruct Hm; lia|].
  apply wp_bind. unfold split_fp. apply wp_set_vcom; [destruct Hm; simpl; lia|].
  simpl. apply wp_ret.
  destruct (trav_frame_mark m v Hm Hv Hvv) as [Hf2 Hnew2]. split_and!.
  - done.
  - intros w. rewrite elem_of_app, list_elem_of_singleton, Hnew2. done.
  - intros w ->%Hnew2. split; [done|left].
  - intros s ->%list_elem_of_singleton _. simpl.
    apply list_lookup_total_insert_eq. destruct Hm. lia.
Qed.

Lemma bfs_inner_spec dep l vs m :
  trav_sized m → (∀ v, v ∈ l → v < span x) →
  wp (foldM (bfs_discover (λ v _, split_ft vdom d v) (λ v _, split_fp c v) dep) l vs)
     (λ vs' m', disc_post l vs vs' m m') m.
Proof.
  revert vs m. induction l as [|v l IH]; intros vs m Hm Hl; simpl.
  - apply wp_ret. apply disc_refl.
  - apply wp_bind. eapply wp_mono; [apply bfs_discover_spec; [done|]|].
    { apply Hl. left. }
    intros vs1 m1 H1. eapply wp_mono; [apply IH|].
    + eapply trav_frame_sized; [done|apply H1].
    + intros w Hw. apply Hl. by right.
    + intros vs2 m2 H2. simpl. apply (disc_comp [v] l vs vs1 vs2 m m1 m2); done.
Qed.

Lemma bfs_expand_from dep us vs m :
  trav_sized m → (∀ u, u ∈ us → present x u) →
  wp (foldM (λ vs u, foldM (bfs_discover (λ v _, split_ft vdom d v)
                                         (λ v _, split_fp c v) dep)
                           (edges x u) vs) us vs)
     (λ vs' m', disc_post (us ≫= edges x) vs vs' m m') m.
Proof.
  revert vs m. induction us as [|u us IH]; intros vs m Hm Hus; simpl.
  - apply wp_ret. apply disc_refl.
  - apply wp_bind. eapply wp_mono; [apply bfs_inner_spec; [done|]|].
    { intros v Hv. eapply edges_in_span; [|done]. apply Hus. left. }
    intros vs1 m1 H1. eapply wp_mono; [apply IH|].
    + eapply trav_frame_sized; [done|apply H1].
    + intros w Hw. apply Hus. by right.
    + intros vs2 m2 H2.
      apply (disc_comp (edges x u) (us ≫= edges x) vs vs1 vs2 m m1 m2); done.
Qed.

Lemma bfs_levels_spec fuel dep us m :
  trav_sized m → (∀ u, u ∈ us → present x u ∧ com u = d) →
  (us ≠ [] → unvis m < fuel) →
  wp (bfs_levels x fuel (λ v _, split_ft vdom d v) (λ v _, split_fp c v) dep us)
     (λ _ m', trav_post [] us m m') m.
Proof.
  revert dep us m. induction fuel as [|f IH]; intros dep us m Hm Hus Hf.
  - destruct us as [|u us]; [|specialize (Hf ltac:(done)); lia].
    simpl. apply wp_ret. apply trav_refl.
    + intros s Hs. by apply elem_of_nil in Hs.
    + intros w v Hw. by apply elem_of_nil in Hw.
  - destruct us as [|u0 us0] eqn:Eus.
    { simpl. apply wp_ret. apply trav_refl.
      + intros s Hs. by apply elem_of_nil in Hs.
      + intros w v Hw. by apply elem_of_nil in Hw. }
    rewrite <- Eus in *. specialize (Hf ltac:(by rewrite Eus)).
    replace (bfs_levels x (S f) (λ v _, split_ft vdom d v)
               (λ v _, split_fp c v) dep us)
      with (vs <- bfs_expand x (λ v _, split_ft vdom d v)
                    (λ v _, split_fp c v) dep us ;;
            bfs_levels x f (λ v _, split_ft vdom d v)
              (λ v _, split_fp c v) (S dep) vs)
      by (by rewrite Eus).
    clear Eus u0 us0.
    apply wp_bind. unfold bfs_expand.
    eapply wp_mono; [apply bfs_expand_from; [done|]|].
    { intros u Hu. by apply Hus. }
    intros vs m1 (Hf1 & Hvs & Hn1 & Hs1).
    assert (∀ v, v ∈ vs → ∃ u, u ∈ us ∧ sedge u v) as Hvs'.
    { intros v Hv. apply Hvs in Hv as [Hv|Hv]; [by apply elem_of_nil in Hv|].
      destruct (Hn1 v Hv) as [Hdv (u & Hvu & Hu)%list_elem_of_bind].
      exists u. split; [done|]. destruct (Hus u Hu) as [Hpu Hdu].
      apply sedge_intro; try done. congruence. }
    pose proof (trav_frame_sized m m1 Hm Hf1) as Hm1.
    eapply wp_mono; [apply IH; [done|..]|].
    + intros v Hv. destruct (Hvs' v Hv) as (u & Hu & Huv).
      destruct (sedge_com u v Huv) as [Hpv Hdv]. split; [done|].
      rewrite Hdv. by apply Hus.
    + intros Hne. destruct vs as [|v vs]; [done|].
      assert (newly m m1 v) as Hnv.
      { destruct (Hvs v) as [[Hv|Hv] _]; [left|by apply elem_of_nil in Hv|done]. }
      destruct (Hvs' v ltac:(left)) as (u & Hu & Huv).
      destruct (sedge_com u v Huv) as [[Hpv _] _].
      destruct Hf1 as (_ & Hl & _ & _ & Hmono & _).
      pose proof (unvis_lt m m1 v Hm Hl Hmono Hpv Hnv). lia.
    + intros [] m2 (Hf2 & Hr2 & Hcl2 & _). simpl.
      pose proof (λ w, newly_trans m m1 m2 w Hf1 Hf2) as Hnew.
      pose proof Hf2 as (_ & _ & _ & _ & Hm2 & _).
      split_and!.
      * by eapply trav_frame_trans.
      * intros w [Hw|Hw]%Hnew.
        -- destruct (Hn1 w Hw) as [Hdw _]. split; [done|].
           destruct (Hvs' w) as (u & Hu & Huw); [apply Hvs; by right|].
           exists u. split; [done|]. by apply rtc_once.
        -- destruct (Hr2 w Hw) as (Hdw & s & Hs & Hsw). split; [done|].
           simpl in Hs. destruct (Hvs' s Hs) as (u & Hu & Hus').
           exists u. split; [done|]. by eapply rtc_l.
      * intros w v [[Hw|Hw]%Hnew|Hw] Hv Hdv.
        -- eapply Hcl2; [right|done|done]. apply Hvs. by right.
        -- eapply Hcl2; [by left|done|done].
        -- apply Hm2, Hs1; [|done]. apply list_elem_of_bind. eauto.
      * intros s Hs. by apply elem_of_nil in Hs.
Qed.

Lemma bfs_spec fuel u m :
  trav_sized m → present x u → com u = d → vis m !!! u = false →
  unvis m < fuel →
  wp (bfsVisitedForEachU x fuel (λ v _, split_ft vdom d v)
        (λ v _, split_fp c v) [u])
     (λ _ m', trav_post [u] [] m m') m.
Proof.
  intros Hm Hu Hd Hvu Hf. unfold bfsVisitedForEachU. simpl.
  pose proof Hu as [Hus _].
  apply wp_bind, wp_bind, wp_bind. apply wp_set_vis; [destruct Hm; lia|].
  unfold split_fp. apply wp_set_vcom; [destruct Hm; simpl; lia|].
  simpl. apply wp_ret.
  destruct (trav_frame_mark m u Hm Hus Hvu) as [Hf2 Hnew2].
  set (m2 := Mem (<[u:=c]> (vcom m)) (vaff m) (<[u:=true]> (vis m)) (cbsy m)) in *.
  pose proof (trav_frame_sized m m2 Hm Hf2) as Hm2.
  eapply wp_mono; [apply bfs_levels_spec; [done|..]|].
  - by intros s ->%list_elem_of_singleton.
  - intros _. pose proof (trav_frame_unvis m m2 Hf2). lia.
  - intros [] m3 Hp. eapply trav_root; try done.
    + simpl. by intros s ->%list_elem_of_singleton _.
    + intros v Hv Hdv. destruct Hp as (_ & _ & Hcl & _).
      eapply Hcl; [right; left|done|done].
Qed.
End Root.

(** ** Invariants of the traversing splitters *)

(** Unvisited ids keep themselves as label, and only vertices of the
    graph are visited. *)
Definition split_inv (m : mem) : Prop :=
  trav_sized m ∧
  (∀ w, w < span x → vis m !!! w = false → lab m w = w) ∧
  (∀ w, w < span x → vis m !!! w = true → present x w).

(** On an undirected graph: the visited vertices form whole pieces, and
    each carries the smallest id of its piece. *)
Definition split_full (m : mem) : Prop :=
  (∀ w v, present x w → vis m !!! w = true → sedge w v → vis m !!! v = true) ∧
  (∀ w, present x w → vis m !!! w = true → min_rep x vdom w (lab m w)).

(** What every step of a splitter keeps. *)
Definition split_keep (m m' : mem) : Prop :=
  length (vcom m') = length (vcom m) ∧
  (∀ w, span x ≤ w → lab m' w = lab m w) ∧
  (∀ w, vis m !!! w = true → vis m' !!! w = true).

Lemma split_keep_refl m : split_keep m m.
Proof. by split_and!. Qed.

Lemma split_keep_trans m1 m2 m3 :
  split_keep m1 m2 → split_keep m2 m3 → split_keep m1 m3.
Proof.
  intros (Hl1 & Hf1 & Hm1) (Hl2 & Hf2 & Hm2). split_and!.
  - congruence.
  - intros w Hw. rewrite Hf2, Hf1; done.
  - auto.
Qed.

Lemma full_reach m u w :
  split_full m → present x u → vis m !!! u = true → reach u w →
  vis m !!! w = true.
Proof.
  intros [Hcl _] Hu Hvu Hr. induction Hr as [|a b e Hab _ IH]; [done|].
  apply IH.
  - by destruct (sedge_com a b Hab).
  - by eapply Hcl.
Qed.

(** A traversal from an unvisited root. *)
Lemma split_step u m m' :
  split_inv m → present x u → vis m !!! u = false →
  trav_post (com u) (lab m u) [u] [] m m' →
  split_inv m' ∧ split_keep m m' ∧ vis m' !!! u = true ∧
  (symmetric x → split_full m → (∀ w, reach u w → u ≤ w) → split_full m').
Proof.
  intros (Hsz & Hun & Hvi) Hu Hvu (Hf & Hr & Hcl & Hsrc).
  pose proof Hf as (Hl1 & Hl2 & _ & _ & Hmono & Hlab).
  assert (lab m u = u) as Hlu by (apply Hun; [by destruct Hu|done]).
  assert (∀ w, newly m m' w → present x w) as Hnp.
  { intros w Hw. destruct (Hr w Hw) as (_ & s & Hs & Hsw).
    rewrite app_nil_r in Hs. apply list_elem_of_singleton in Hs as ->.
    by eapply reach_present. }
  split_and!.
  - split_and!.
    + by eapply trav_frame_sized.
    + intros w Hw Hvw. rewrite Hlab, decide_False by (intros [_ ?]; congruence).
      apply Hun; [done|]. destruct (vis m !!! w) eqn:E; [|done].
      rewrite (Hmono w E) in Hvw. done.
    + intros w Hw Hvw. destruct (vis m !!! w) eqn:E; [by apply Hvi|].
      by apply Hnp.
  - split_and!; [done| |done].
    intros w Hw. rewrite Hlab, decide_False; [done|].
    intros Hn. apply Hnp in Hn as [? _]. lia.
  - apply Hsrc; [left|done].
  - intros Hsym Hfull Hmin. pose proof Hfull as [Hclo Hrep]. split.
    + intros w v Hw Hvw Hwv. destruct (vis m !!! w) eqn:E.
      * apply Hmono. by eapply Hclo.
      * destruct (Hr w (conj E Hvw)) as [Hdw _].
        destruct (sedge_com w v Hwv) as [_ Hdv].
        destruct Hwv as (_ & Hv & _).
        eapply Hcl; [left; by split|done|congruence].
    + intros w Hw Hvw. rewrite Hlab. case_decide as Hn.
      * destruct (Hr w Hn) as (_ & s & Hs & Hsw).
        rewrite app_nil_r in Hs. apply list_elem_of_singleton in Hs as ->.
        rewrite Hlu. split; [by apply reach_sym|].
        intros z Hz. apply Hmin. eapply rtc_trans; [exact Hsw|exact Hz].
      * apply Hrep; [done|]. destruct (vis m !!! w) eqn:E; [done|].
        exfalso. apply Hn. by split.
Qed.

(** The root of a traversal is the least vertex of its piece when the
    smaller vertices [ow] of its community are visited already. *)
Lemma root_least (ow : nat → Prop) u m :
  symmetric x → split_full m → present x u → vis m !!! u = false →
  (∀ w, com w = com u → ow w) →
  (∀ w, w < u → present x w → ow w → vis m !!! w = true) →
  ∀ w, reach u w → u ≤ w.
Proof.
  intros Hsym Hfull Hu Hvu Hown Hprog w Hr.
  destruct (decide (u ≤ w)) as [|Hlt]; [done|]. exfalso.
  pose proof (reach_present x vdom u w Hok Hu Hr) as Hw.
  assert (vis m !!! w = true) as Hvw.
  { apply Hprog; [lia|done|]. apply Hown. by apply reach_com. }
  pose proof (full_reach m w u Hfull Hw Hvw (reach_sym x vdom u w Hok Hsym Hr)).
  congruence.
Qed.

Lemma trav_vcom_lookup m v :
  trav_sized m → v < span x → vcom m !! v = Some (lab m v).
Proof. intros [Hm _] Hv. apply list_lookup_lookup_total_lt. lia. Qed.

(** The result of a traversing splitter. *)
Definition split_result (m m' : mem) : Prop :=
  split_inv m' ∧
  length (vcom m') = length (vcom m) ∧
  (∀ w, span x ≤ w → lab m' w = lab m w) ∧
  (∀ w, present x w → vis m' !!! w = true) ∧
  (symmetric x → split_full m').

(** ** The depth-first splitter *)

Section Dfs.
Variables fuel T : nat.
Hypothesis Hfuel : span x < fuel.

(** Thread [t] owns the community of [w]. *)
Definition owned (t w : nat) : Prop := belongsOmp (com w) t T = true.

Lemma dfs_visit_spec t u m :
  split_inv m → u < span x →
  wp (dfs_visit x vdom fuel t T u)
     (λ _ m',
        split_inv m' ∧ split_keep m m' ∧
        (present x u → owned t u → vis m' !!! u = true) ∧
        (symmetric x → split_full m →
         (∀ w, w < u → present x w → owned t w → vis m !!! w = true) →
         split_full m')) m.
Proof.
  intros Hinv Hu. pose proof Hinv as (Hsz & _ & _). unfold dfs_visit.
  destruct (hasVertex x u) eqn:Hxu; simpl.
  2:{ apply wp_ret. split_and!; try done; try apply split_keep_refl.
      intros [_ ?]. congruence. }
  assert (present x u) as Hpu by done.
  apply wp_bind. eapply wp_get_vdom; [by apply vdom_lookup|].
  apply wp_bind. eapply wp_get_vcom; [by apply trav_vcom_lookup|].
  destruct (belongsOmp (com u) t T) eqn:Hown; simpl.
  2:{ apply wp_ret. split_and!; try done; try apply split_keep_refl.
      intros _ Ho. unfold owned in Ho. congruence. }
  apply wp_bind. eapply wp_get_vis; [by apply vis_lookup|].
  destruct (vis m !!! u) eqn:Hvu.
  { apply wp_ret. split_and!; try done; apply split_keep_refl. }
  eapply wp_mono; [apply dfs_spec; [done|done|]|].
  { pose proof (unvis_le_span m). lia. }
  intros [] m' Hp.
  destruct (split_step u m m' Hinv Hpu Hvu Hp) as (Hinv' & Hkeep & Hvu' & Hfull).
  split_and!; try done.
  intros Hsym Hf Hprog. apply Hfull; try done.
  apply (root_least (owned t) u m); try done.
  intros w Hw. unfold owned. by rewrite Hw.
Qed.

Lemma dfs_thread_from t a n m :
  split_inv m → a + n ≤ span x →
  wp (forEach (seq a n) (dfs_visit x vdom fuel t T))
     (λ _ m',
        split_inv m' ∧ split_keep m m' ∧
        (∀ w, a ≤ w < a + n → present x w → owned t w → vis m' !!! w = true) ∧
        (symmetric x → split_full m →
         (∀ w, w < a → present x w → owned t w → vis m !!! w = true) →
         split_full m')) m.
Proof.
  revert a m. induction n as [|n IH]; intros a m Hinv Han; simpl.
  - apply wp_ret.
    split_and!; try done; try apply split_keep_refl; try (intros; lia).
  - apply wp_bind. eapply wp_mono; [apply dfs_visit_spec; [done|lia]|].
    intros [] m1 (Hinv1 & Hk1 & Hv1 & Hf1).
    eapply wp_mono; [apply IH; [done|lia]|].
    intros [] m2 (Hinv2 & Hk2 & Hv2 & Hf2). simpl.
    pose proof Hk1 as (_ & _ & Hmono1). pose proof Hk2 as (_ & _ & Hmono2).
    split_and!; try done.
    + by eapply split_keep_trans.
    + intros w Hw Hpw How. destruct (decide (w = a)) as [->|Hne].
      * apply Hmono2. by apply Hv1.
      * apply Hv2; [lia|done|done].
    + intros Hsym Hfull Hprog. apply Hf2; [done|by apply Hf1|].
      intros w Hw Hpw How. destruct (decide (w = a)) as [->|Hne].
      * by apply Hv1.
      * apply Hmono1. apply Hprog; [lia|done|done].
Qed.

Lemma dfs_threads_from a n m :
  split_inv m →
  wp (forEach (seq a n) (λ t, dfs_thread x vdom fuel t T))
     (λ _ m',
        split_inv m' ∧ split_keep m m' ∧
        (∀ t w, a ≤ t < a + n → present x w → owned t w → vis m' !!! w = true) ∧
        (symmetric x → split_full m → split_full m')) m.
Proof.
  revert a m. induction n as [|n IH]; intros a m Hinv; simpl.
  - apply wp_ret.
    split_and!; try done; try apply split_keep_refl; try (intros; lia).
  - apply wp_bind. unfold dfs_thread at 1.
    eapply wp_mono; [apply (dfs_thread_from a 0 (span x)); [done|lia]|].
    intros [] m1 (Hinv1 & Hk1 & Hv1 & Hf1).
    eapply wp_mono; [by apply IH|].
    intros [] m2 (Hinv2 & Hk2 & Hv2 & Hf2). simpl.
    pose proof Hk2 as (_ & _ & Hmono2).
    split_and!; try done.
    + by eapply split_keep_trans.
    + intros t w Ht Hpw How. destruct (decide (t = a)) as [->|Hne].
      * apply Hmono2. apply Hv1; [destruct Hpw; lia|done|done].
      * apply (Hv2 t); [lia|done|done].
    + intros Hsym Hfull. apply Hf2; [done|]. apply Hf1; [done|done|].
      intros w Hw. lia.
Qed.

Lemma dfs_init_from a n m :
  trav_sized m → a + n ≤ span x →
  wp (forEach (seq a n) (λ u, set_vcom u u;;; set_vis u false))
     (λ _ m',
        trav_sized m' ∧ length (vcom m') = length (vcom m) ∧
        (∀ u, lab m' u = if decide (a ≤ u < a + n) then u else lab m u) ∧
        (∀ u, vis m' !!! u =
              if decide (a ≤ u < a + n) then false else vis m !!! u)) m.
Proof.
  revert a m. induction n as [|n IH]; intros a m Hm Han; simpl.
  - apply wp_ret. split_and!; try done.
    + intros u. rewrite decide_False by lia. done.
    + intros u. rewrite decide_False by lia. done.
  - destruct Hm as [Hm1 Hm2].
    apply wp_bind, wp_bind. apply wp_set_vcom; [lia|].
    apply wp_set_vis; [simpl; lia|]. simpl.
    set (m1 := Mem (<[a:=a]> (vcom m)) (vaff m) (<[a:=false]> (vis m)) (cbsy m)).
    assert (trav_sized m1) as Hsz1.
    { split; simpl; rewrite length_insert; lia. }
    assert (∀ u, lab m1 u = if decide (u = a) then a else lab m u) as Hlab1.
    { intros u. apply lab_insert; [lia|done]. }
    assert (∀ u, vis m1 !!! u = if decide (u = a) then false else vis m !!! u)
      as Hvis1.
    { intros u. simpl. case_decide as Hu.
      - subst u. apply list_lookup_total_insert_eq. lia.
      - by apply list_lookup_total_insert_ne. }
    eapply wp_mono; [apply IH; [done|lia]|].
    intros [] m' (Hsz' & Hlen & Hlab & Hvis). simpl in Hlen.
    rewrite length_insert in Hlen. split_and!; try done.
    + intros u. rewrite Hlab, Hlab1. repeat case_decide; try lia; done.
    + intros u. rewrite Hvis, Hvis1. repeat case_decide; try lia; done.
Qed.

Lemma dfs_run m :
  trav_sized m → 0 < T →
  wp (splitDisconnectedCommunitiesDfsOmpW x vdom fuel T)
     (λ _ m', split_result m m') m.
Proof.
  intros Hm HT. unfold splitDisconnectedCommunitiesDfsOmpW, dfs_init.
  apply wp_bind.
  eapply wp_mono; [apply (dfs_init_from 0 (span x)); [done|lia]|].
  intros [] m1 (Hsz1 & Hlen1 & Hlab1 & Hvis1).
  assert (split_inv m1) as Hinv1.
  { split_and!; [done|..].
    - intros w Hw _. rewrite Hlab1, decide_True by lia. done.
    - intros w Hw Hv. rewrite Hvis1, decide_True in Hv by lia. done. }
  assert (split_full m1) as Hfull1.
  { split.
    - intros w v [Hw _] Hv. rewrite Hvis1, decide_True in Hv by lia. done.
    - intros w [Hw _] Hv. rewrite Hvis1, decide_True in Hv by lia. done. }
  eapply wp_mono; [by apply dfs_threads_from|].
  intros [] m2 (Hinv2 & (Hlen2 & Hfr2 & _) & Hv2 & Hf2). simpl.
  split_and!; try done.
  - congruence.
  - intros w Hw. rewrite Hfr2, Hlab1 by done. rewrite decide_False by lia. done.
  - intros w Hpw. apply (Hv2 (com w `mod` T)); [|done|].
    + split; [lia|]. simpl. apply Nat.mod_upper_bound. lia.
    + unfold owned, belongsOmp. by apply bool_decide_eq_true_2.
  - auto.
Qed.

(** The depth-first splitter with interleaved threads: the positions [ps]
    of the threads and what the threads have visited so far. *)
Definition dfs_progress (ps : list nat) (m : mem) : Prop :=
  length ps = T ∧
  ∀ t p, ps !! t = Some p →
         p ≤ span x ∧ ∀ w, w < p → present x w → owned t w → vis m !!! w = true.

Lemma dfs_step_spec m0 ps t m :
  split_inv m → split_keep m0 m → dfs_progress ps m →
  (symmetric x → split_full m) →
  wp (dfs_step x vdom fuel T ps t)
     (λ ps' m', split_inv m' ∧ split_keep m0 m' ∧ dfs_progress ps' m' ∧
                (symmetric x → split_full m')) m.
Proof.
  intros Hinv Hkeep [Hlen Hps] Hfull. unfold dfs_step.
  destruct (ps !! t) as [p|] eqn:Ht; [|by apply wp_ret].
  case_decide as Hp; [|by apply wp_ret].
  destruct (Hps t p Ht) as [_ Hprog].
  apply wp_bind. eapply wp_mono; [by apply dfs_visit_spec|].
  intros [] m' (Hinv' & Hk' & Hv' & Hf'). apply wp_ret.
  pose proof Hk' as (_ & _ & Hmono).
  split_and!; [done|by eapply split_keep_trans| |].
  - split; [by rewrite length_insert|]. intros t' p' Ht'.
    destruct (decide (t' = t)) as [->|Hne].
    + rewrite list_lookup_insert_eq in Ht' by (by eapply lookup_lt_Some).
      injection Ht' as <-. split; [lia|]. intros w Hw Hpw How.
      destruct (decide (w = p)) as [->|Hwp]; [by apply Hv'|].
      apply Hmono. apply Hprog; [lia|done|done].
    + rewrite list_lookup_insert_ne in Ht' by done.
      destruct (Hps t' p' Ht') as [Hle Hprog']. split; [done|].
      intros w Hw Hpw How. apply Hmono. by apply Hprog'.
  - intros Hsym. apply Hf'; [done|by apply Hfull|]. done.
Qed.

(** However the threads interleave, the run ends; when every thread has
    passed the whole span, the result is the result of the splitter. *)
Lemma dfs_interleaved_run sched m :
  trav_sized m → 0 < T →
  wp (dfs_interleaved x vdom fuel T sched)
     (λ ps m', ps = replicate T (span x) → split_result m m') m.
Proof.
  intros Hm HT. unfold dfs_interleaved, dfs_init.
  apply wp_bind.
  eapply wp_mono; [apply (dfs_init_from 0 (span x)); [done|lia]|].
  intros [] m1 (Hsz1 & Hlen1 & Hlab1 & Hvis1).
  assert (split_inv m1) as Hinv1.
  { split_and!; [done|..].
    - intros w Hw _. rewrite Hlab1, decide_True by lia. done.
    - intros w Hw Hv. rewrite Hvis1, decide_True in Hv by lia. done. }
  assert (split_full m1) as Hfull1.
  { split.
    - intros w v [Hw _] Hv. rewrite Hvis1, decide_True in Hv by lia. done.
    - intros w [Hw _] Hv. rewrite Hvis1, decide_True in Hv by lia. done. }
  eapply wp_mono.
  { apply (wp_foldM (λ ps m', split_inv m' ∧ split_keep m1 m' ∧ dfs_progress ps m' ∧
                              (symmetric x → split_full m'))).
    - split_and!; [done|apply split_keep_refl| |done].
      split; [by rewrite length_replicate|].
      intros t p [-> _]%lookup_replicate. split; [lia|]. intros w Hw. lia.
    - intros t ps m2 _ (Hinv2 & Hk2 & Hp2 & Hf2). by apply (dfs_step_spec m1). }
  intros ps m2 (Hinv2 & (Hlen2 & Hfr2 & _) & [_ Hps] & Hf2) ->. simpl.
  split_and!; try done.
  - congruence.
  - intros w Hw. rewrite Hfr2, Hlab1 by done. rewrite decide_False by lia. done.
  - intros w Hpw. pose proof Hpw as [Hw _].
    assert (com w `mod` T < T) as Hlt by (apply Nat.mod_upper_bound; lia).
    destruct (Hps (com w `mod` T) (span x)) as [_ Hprog].
    { by apply lookup_replicate. }
    apply Hprog; [done|done|].
    unfold owned, belongsOmp. by apply bool_decide_eq_true_2.
Qed.
End Dfs.

(** ** The breadth-first splitter *)

Section Bfs.
Variables fuel T : nat.
Hypothesis Hfuel : span x < fuel.
(** Community ids index the busy flags: they are below the span. *)
Hypothesis Hcom : ∀ u, present x u → com u < span x.

(** The busy flags cover the span and are all free. *)
Definition cbsy_clear (m : mem) : Prop :=
  span x ≤ length (cbsy m) ∧ ∀ i, i < span x → cbsy m !!! i = false.

Lemma fl_spec u m :
  split_inv m → cbsy_clear m → u < span x →
  wp (fl x vdom fuel u)
     (λ _ m',
        split_inv m' ∧ cbsy_clear m' ∧ split_keep m m' ∧
        (present x u → vis m' !!! u = true) ∧
        (symmetric x → split_full m →
         (∀ w, w < u → present x w → vis m !!! w = true) →
         split_full m')) m.
Proof.
  intros Hinv [Hcl1 Hcl2] Hu. pose proof Hinv as (Hsz & _ & _). unfold fl.
  destruct (hasVertex x u) eqn:Hxu; simpl.
  2:{ apply wp_ret. split_and!; try done; try apply split_keep_refl.
      intros [_ ?]. congruence. }
  assert (present x u) as Hpu by done.
  apply wp_bind. eapply wp_get_vis; [by apply vis_lookup|].
  destruct (vis m !!! u) eqn:Hvu.
  { apply wp_ret. split_and!; try done; apply split_keep_refl. }
  apply wp_bind. eapply wp_get_vdom; [by apply vdom_lookup|].
  apply wp_bind. eapply wp_get_vcom; [by apply trav_vcom_lookup|].
  pose proof (Hcom u Hpu) as Hd.
  assert (cbsy m !! com u = Some false) as Hbusy.
  { rewrite <- (Hcl2 (com u) Hd). apply list_lookup_lookup_total_lt. lia. }
  apply wp_bind. eapply wp_get_cbsy; [done|].
  apply wp_bind. unfold exchange_cbsy. apply wp_bind.
  eapply wp_get_cbsy; [done|]. apply wp_bind. apply wp_set_cbsy; [lia|].
  apply wp_ret. apply wp_bind.
  set (m1 := Mem (vcom m) (vaff m) (vis m) (<[com u:=true]> (cbsy m))).
  assert (split_inv m1) as Hinv1 by done.
  eapply wp_mono; [apply (bfs_spec (com u) (lab m u) fuel u m1); try done|].
  { pose proof (unvis_le_span m1). lia. }
  intros [] m2 Hp.
  pose proof Hp as ((_ & _ & Hcb & _) & _).
  destruct (split_step u m1 m2 Hinv1 Hpu Hvu Hp) as (Hinv2 & Hkeep & Hvu' & Hfull).
  apply wp_set_cbsy.
  { rewrite Hcb. unfold m1. cbn [cbsy]. rewrite length_insert. lia. }
  split_and!; try done.
  - split; cbn [cbsy]; rewrite Hcb; unfold m1; cbn [cbsy];
      rewrite ?length_insert; [done|].
    intros i Hi. destruct (decide (i = com u)) as [->|Hne].
    + apply list_lookup_total_insert_eq. rewrite length_insert. lia.
    + rewrite !list_lookup_total_insert_ne by done. by apply Hcl2.
  - intros Hsym Hf Hprog.
    assert (split_full m2) as Hf2; [|done].
    apply Hfull; try done.
    apply (root_least (λ _, True) u m1); try done.
    intros w Hw Hpw _. by apply Hprog.
Qed.

Lemma bfs_scan_from a n m :
  split_inv m → cbsy_clear m → a + n ≤ span x →
  wp (forEach (seq a n) (fl x vdom fuel))
     (λ _ m',
        split_inv m' ∧ cbsy_clear m' ∧ split_keep m m' ∧
        (∀ w, a ≤ w < a + n → present x w → vis m' !!! w = true) ∧
        (symmetric x → split_full m →
         (∀ w, w < a → present x w → vis m !!! w = true) →
         split_full m')) m.
Proof.
  revert a m. induction n as [|n IH]; intros a m Hinv Hcl Han; simpl.
  - apply wp_ret.
    split_and!; try done; try apply split_keep_refl; try (intros; lia).
  - apply wp_bind. eapply wp_mono; [apply fl_spec; [done|done|lia]|].
    intros [] m1 (Hinv1 & Hcl1 & Hk1 & Hv1 & Hf1).
    eapply wp_mono; [apply IH; [done|done|lia]|].
    intros [] m2 (Hinv2 & Hcl2 & Hk2 & Hv2 & Hf2). simpl.
    pose proof Hk1 as (_ & _ & Hmono1). pose proof Hk2 as (_ & _ & Hmono2).
    split_and!; try done.
    + by eapply split_keep_trans.
    + intros w Hw Hpw. destruct (decide (w = a)) as [->|Hne].
      * apply Hmono2. by apply Hv1.
      * apply Hv2; [lia|done].
    + intros Hsym Hfull Hprog. apply Hf2; [done|by apply Hf1|].
      intros w Hw Hpw. destruct (decide (w = a)) as [->|Hne].
      * by apply Hv1.
      * apply Hmono1. apply Hprog; [lia|done].
Qed.

(** Once every vertex is visited, [fl] does nothing. *)
Lemma fl_noop u m :
  trav_sized m → u < span x → (present x u → vis m !!! u = true) →
  fl x vdom fuel u m = (m, Val tt).
Proof.
  intros Hsz Hu Hv. unfold fl.
  destruct (hasVertex x u) eqn:Hxu; simpl; [|done].
  unfold bind, get_vis, rd. rewrite (vis_lookup m u Hsz Hu).
  rewrite Hv by done. done.
Qed.

Lemma forEach_noop (l : list nat) (f : nat → M unit) m :
  (∀ a, a ∈ l → f a m = (m, Val tt)) → forEach l f m = (m, Val tt).
Proof.
  induction l as [|a l IH]; intros Hl; simpl; [done|].
  unfold bind. rewrite Hl by left. apply IH. intros b Hb. apply Hl. by right.
Qed.

Lemma bfs_offset_le t : t < T → bfs_offset x t T ≤ span x.
Proof.
  intros Ht. unfold bfs_offset. apply Nat.Div0.div_le_upper_bound. nia.
Qed.

Lemma bfs_thread_noop t m :
  trav_sized m → t < T → (∀ w, present x w → vis m !!! w = true) →
  bfs_thread x vdom fuel t T m = (m, Val tt).
Proof.
  intros Hsz Ht Hv. unfold bfs_thread. pose proof (bfs_offset_le t Ht) as Hub.
  unfold bind. rewrite forEach_noop.
  - apply forEach_noop. intros u Hu%elem_of_seq. apply fl_noop; [done|lia|auto].
  - intros u Hu%elem_of_seq. apply fl_noop; [done|lia|auto].
Qed.

Lemma bfs_init_from a n m :
  trav_sized m → span x ≤ length (cbsy m) → a + n ≤ span x →
  wp (forEach (seq a n) (λ u, set_vcom u u;;; set_cbsy u false;;; set_vis u false))
     (λ _ m',
        trav_sized m' ∧ length (vcom m') = length (vcom m) ∧
        length (cbsy m') = length (cbsy m) ∧
        (∀ u, lab m' u = if decide (a ≤ u < a + n) then u else lab m u) ∧
        (∀ u, vis m' !!! u =
              if decide (a ≤ u < a + n) then false else vis m !!! u) ∧
        (∀ u, cbsy m' !!! u =
              if decide (a ≤ u < a + n) then false else cbsy m !!! u)) m.
Proof.
  revert a m. induction n as [|n IH]; intros a m Hm Hcb Han; simpl.
  - apply wp_ret. split_and!; try done.
    + intros u. rewrite decide_False by lia. done.
    + intros u. rewrite decide_False by lia. done.
    + intros u. rewrite decide_False by lia. done.
  - destruct Hm as [Hm1 Hm2].
    apply wp_bind, wp_bind. apply wp_set_vcom; [lia|].
    apply wp_bind. apply wp_set_cbsy; [simpl; lia|].
    apply wp_set_vis; [simpl; lia|]. simpl.
    set (m1 := Mem (<[a:=a]> (vcom m)) (vaff m) (<[a:=false]> (vis m))
                   (<[a:=false]> (cbsy m))).
    assert (trav_sized m1) as Hsz1.
    { split; simpl; rewrite length_insert; lia. }
    assert (∀ u, lab m1 u = if decide (u = a) then a else lab m u) as Hlab1.
    { intros u. apply lab_insert; [lia|done]. }
    assert (∀ u, vis m1 !!! u = if decide (u = a) then false else vis m !!! u)
      as Hvis1.
    { intros u. simpl. case_decide as Hu.
      - subst u. apply list_lookup_total_insert_eq. lia.
      - by apply list_lookup_total_insert_ne. }
    assert (∀ u, cbsy m1 !!! u = if decide (u = a) then false else cbsy m !!! u)
      as Hcb1.
    { intros u. simpl. case_decide as Hu.
      - subst u. apply list_lookup_total_insert_eq. lia.
      - by apply list_lookup_total_insert_ne. }
    eapply wp_mono; [apply IH; [done|simpl; rewrite length_insert; lia|lia]|].
    intros [] m' (Hsz' & Hlen & Hlenc & Hlab & Hvis & Hcbs). simpl in Hlen, Hlenc.
    rewrite length_insert in Hlen. rewrite length_insert in Hlenc.
    split_and!; try done.
    + intros u. rewrite Hlab, Hlab1. repeat case_decide; try lia; done.
    + intros u. rewrite Hvis, Hvis1. repeat case_decide; try lia; done.
    + intros u. rewrite Hcbs, Hcb1. repeat case_decide; try lia; done.
Qed.

Lemma bfs_run m :
  trav_sized m → span x ≤ length (cbsy m) → 0 < T →
  wp (splitDisconnectedCommunitiesBfsOmpW x vdom fuel T)
     (λ _ m', split_result m m' ∧ cbsy_clear m') m.
Proof.
  intros Hm Hcb HT. unfold splitDisconnectedCommunitiesBfsOmpW, bfs_init.
  apply wp_bind.
  eapply wp_mono; [apply (bfs_init_from 0 (span x)); [done|done|lia]|].
  intros [] m1 (Hsz1 & Hlen1 & Hlenc1 & Hlab1 & Hvis1 & Hcb1).
  assert (split_inv m1) as Hinv1.
  { split_and!; [done|..].
    - intros w Hw _. rewrite Hlab1, decide_True by lia. done.
    - intros w Hw Hv. rewrite Hvis1, decide_True in Hv by lia. done. }
  assert (split_full m1) as Hfull1.
  { split.
    - intros w v [Hw _] Hv. rewrite Hvis1, decide_True in Hv by lia. done.
    - intros w [Hw _] Hv. rewrite Hvis1, decide_True in Hv by lia. done. }
  assert (cbsy_clear m1) as Hclear1.
  { split; [lia|]. intros i Hi. rewrite Hcb1, decide_True by lia. done. }
  assert (seq 0 T = 0 :: seq 1 (T - 1)) as ->.
  { clear -HT. destruct T; [lia|]. simpl. by rewrite Nat.sub_0_r. }
  simpl. apply wp_bind. unfold bfs_thread at 1.
  assert (bfs_offset x 0 T = 0) as ->
    by (unfold bfs_offset; apply Nat.Div0.div_0_l).
  simpl. apply wp_bind. rewrite Nat.sub_0_r.
  eapply wp_mono; [apply (bfs_scan_from 0 (span x)); [done|done|lia]|].
  intros [] m2 (Hinv2 & Hcl2 & (Hlen2 & Hfr2 & _) & Hv2 & Hf2). apply wp_ret.
  assert (∀ w, present x w → vis m2 !!! w = true) as Hall.
  { intros w Hw. apply Hv2; [destruct Hw; lia|done]. }
  eapply wp_eq.
  { apply forEach_noop. intros t Ht%elem_of_seq.
    apply bfs_thread_noop; [by destruct Hinv2|lia|done]. }
  split; [|done]. split_and!; try done.
  - congruence.
  - intros w Hw. rewrite Hfr2, Hlab1 by done. rewrite decide_False by lia. done.
  - intros Hsym. apply Hf2; [done|done|]. intros w Hw. lia.
Qed.
End Bfs.
End Traversal.
End Verification.

(** * The three splitters under one contract *)

(** A splitter with its parameters: the template parameter [PRUNE] and the
    order of the iterations of each round, or the number of threads. *)
Inductive splitter :=
| Lpa (PRUNE : bool) (sched : nat → list nat)
| Dfs (T : nat)
| Bfs (T : nat).

Definition split (s : splitter) (x : graph) (vdom : list nat) (fuel : nat) : M unit :=
  match s with
  | Lpa PRUNE sched => splitDisconnectedCommunitiesLpaOmpW x vdom PRUNE sched fuel
  | Dfs T => splitDisconnectedCommunitiesDfsOmpW x vdom fuel T
  | Bfs T => splitDisconnectedCommunitiesBfsOmpW x vdom fuel T
  end.

(** The output and the scratch vectors of a splitter cover the span. *)
Definition buffers_ok (x : graph) (s : splitter) (m : mem) : Prop :=
  span x ≤ length (vcom m) ∧
  match s with
  | Lpa PRUNE _ => PRUNE = true → span x ≤ length (vaff m)
  | Dfs _ => span x ≤ length (vis m)
  | Bfs _ => span x ≤ length (vis m) ∧ span x ≤ length (cbsy m)
  end.

(** Community ids of the vertices are below the span. *)
Definition com_in_span (x : graph) (vdom : list nat) : Prop :=
  ∀ u, present x u → com vdom u < span x.

(** Every round of the label propagation runs each iteration once; the
    traversing splitters have a thread; the breadth-first splitter indexes
    its busy flags with community ids, which are below the span. *)
Definition splitter_ok (x : graph) (vdom : list nat) (s : splitter) : Prop :=
  match s with
  | Lpa _ sched => sched_ok x sched
  | Dfs T => 0 < T
  | Bfs T => 0 < T ∧ com_in_span x vdom
  end.

(** The label propagation without pruning needs no undirected graph. *)
Definition undirected_or_plain (x : graph) (s : splitter) : Prop :=
  symmetric x ∨ ∃ sched, s = Lpa false sched.

Lemma span_le_square n : n ≤ n * n.
Proof. nia. Qed.

Lemma split_run s x vdom fuel m :
  graph_ok x → vdom_ok x vdom → buffers_ok x s m → splitter_ok x vdom s →
  span x * span x < fuel →
  ∃ m', split s x vdom fuel m = (m', Val tt) ∧
        length (vcom m') = length (vcom m) ∧
        (∀ u, span x ≤ u → lab m' u = lab m u) ∧
        (∀ u, u < span x → ¬ present x u → lab m' u = u) ∧
        (undirected_or_plain x s → ∀ u, present x u → min_rep x vdom u (lab m' u)).
Proof.
  intros Hok Hdom [Hvc Hbuf] Hs Hfuel.
  pose proof (span_le_square (span x)) as Hsq.
  destruct s as [PRUNE sched|T|T]; simpl in *.
  - destruct (lpa_run x vdom Hok Hdom PRUNE sched m (conj Hvc Hbuf) Hs)
      as (k & ns & m1 & m' & _ & Hk & _ & _ & _ & Hrun & _ & Hinv & Hlen & Hfr & Hst).
    exists m'. split_and!; try done.
    + apply Hrun. lia.
    + intros u Hu Hnu. by apply Hinv.
    + intros Hcase u Hu. eapply lpa_stable_min_rep; try done. apply Hst.
      destruct Hcase as [?|[sched' [= -> _]]]; auto.
  - destruct (dfs_run x vdom Hok Hdom fuel T ltac:(lia) m (conj Hvc Hbuf) Hs)
      as ([] & m' & Hrun & (Hsz & Hun & Hvi) & Hlen & Hfr & Hall & Hfull).
    exists m'. split_and!; try done.
    + intros u Hu Hnu. apply Hun; [done|].
      destruct (vis m' !!! u) eqn:E; [|done]. by destruct Hnu; apply Hvi.
    + intros [Hsym|[sched [=]]] u Hu. apply (Hfull Hsym); [done|by apply Hall].
  - destruct Hbuf as [Hvis Hcb], Hs as [HT Hcom].
    destruct (bfs_run x vdom Hok Hdom fuel T ltac:(lia) Hcom m (conj Hvc Hvis) Hcb HT)
      as ([] & m' & Hrun & ((Hsz & Hun & Hvi) & Hlen & Hfr & Hall & Hfull) & _).
    exists m'. split_and!; try done.
    + intros u Hu Hnu. apply Hun; [done|].
      destruct (vis m' !!! u) eqn:E; [|done]. by destruct Hnu; apply Hvi.
    + intros [Hsym|[sched [=]]] u Hu. apply (Hfull Hsym); [done|by apply Hall].
Qed.

(** Labels as the vector holds them. *)
Lemma lab_lookup m u : u < length (vcom m) → vcom m !! u = Some (lab m u).
Proof. apply list_lookup_lookup_total_lt. Qed.

(** ** Deciding the preconditions on a given graph *)

Global Instance present_dec x u : Decision (present x u).
Proof. unfold present. apply _. Defined.

Lemma graph_ok_alt x :
  graph_ok x ↔
  Forall (λ u, hasVertex x u = true → Forall (present x) (edges x u))
         (seq 0 (span x)).
Proof.
  rewrite Forall_forall. split.
  - intros Hok u Hu%elem_of_seq Hx. apply Forall_forall. intros v Hv.
    apply (Hok u v); [split; [lia|done]|done].
  - intros H u v [Hu Hx] Hv. specialize (H u). rewrite elem_of_seq in H.
    specialize (H ltac:(lia) Hx). rewrite Forall_forall in H. by apply H.
Qed.

Global Instance graph_ok_dec x : Decision (graph_ok x).
Proof.
  refine (cast_if (decide (Forall (λ u, hasVertex x u = true →
                                        Forall (present x) (edges x u))
                                  (seq 0 (span x)))));
    by rewrite graph_ok_alt.
Defined.

Lemma symmetric_alt x :
  symmetric x ↔
  Forall (λ u, hasVertex x u = true → Forall (λ v, u ∈ edges x v) (edges x u))
         (seq 0 (span x)).
Proof.
  rewrite Forall_forall. split.
  - intros Hsym u Hu%elem_of_seq Hx. apply Forall_forall. intros v Hv.
    apply (Hsym u v); [split; [lia|done]|done].
  - intros H u v [Hu Hx] Hv. specialize (H u). rewrite elem_of_seq in H.
    specialize (H ltac:(lia) Hx). rewrite Forall_forall in H. by apply H.
Qed.

Global Instance symmetric_dec x : Decision (symmetric x).
Proof.
  refine (cast_if (decide (Forall (λ u, hasVertex x u = true →
                                        Forall (λ v, u ∈ edges x v) (edges x u))
                                  (seq 0 (span x)))));
    by rewrite symmetric_alt.
Defined.

Lemma com_in_span_alt x vdom :
  com_in_span x vdom ↔
  Forall (λ u, hasVertex x u = true → com vdom u < span x) (seq 0 (span x)).
Proof.
  rewrite Forall_forall. split.
  - intros H u Hu%elem_of_seq Hx. apply H. split; [lia|done].
  - intros H u [Hu Hx]. apply H; [|done]. apply elem_of_seq. lia.
Qed.

Global Instance com_in_span_dec x vdom : Decision (com_in_span x vdom).
Proof.
  refine (cast_if (decide (Forall (λ u, hasVertex x u = true → com vdom u < span x)
                                  (seq 0 (span x)))));
    by rewrite com_in_span_alt.
Defined.

(** A decidable proposition about given data, by evaluation. *)
Ltac by_computation := apply (bool_decide_unpack _); vm_compute; exact I.

(** ** Example graphs *)

(** A graph of span [S] from its adjacency lists; the ids of [absent] are
    no vertices. *)
Definition graph_of (S : nat) (absent : list nat) (adj : list (list nat)) : graph :=
  Graph S (λ u, bool_decide (u < S) && negb (bool_decide (u ∈ absent)))
        (λ u, default [] (adj !! u)).

(** The schedule of a run on one thread. *)
Definition seq_sched (x : graph) : nat → list nat := λ _, seq 0 (span x).

(** The scenario of the specification: edges 0-1, 1-2, 3-4, vertex 5
    isolated. *)
Definition scenario : graph :=
  graph_of 6 [] [[1]; [0; 2]; [1]; [4]; [3]; []].
Definition scenario_vdom : list nat := [0; 0; 0; 1; 1; 0].

Lemma seq_sched_ok x : sched_ok x (seq_sched x).
Proof. by intros r. Qed.

(** Two vertices and the single directed edge 0 -> 1. *)
Definition one_way : graph := graph_of 2 [] [[1]; []].

(** Five vertices with the directed edges 2 -> 1, 2 -> 4, 3 -> 2, 4 -> 0. *)
Definition chain : graph := graph_of 5 [] [[]; []; [1; 4]; [2]; [0]].

(** A memory of [n] zero labels and [n] cleared flags of each kind. *)
Definition mem0 (n : nat) : mem :=
  Mem (replicate n 0) (replicate n false) (replicate n false) (replicate n false).

(** Two vertices and the undirected edge 0 - 1. *)
Definition link : graph := graph_of 2 [] [[1]; [0]].

(** A memory for [link] whose busy flags are longer than the span; the
    flag of index 5 is set. *)
Definition stale : mem :=
  Mem [0; 0] [] [false; false] [false; false; false; false; false; true].

(** * Iterations and threads that overlap

    The verification of the splitters above is about runs in which the
    iterations of a round of the label propagation run one at a time, and
    the threads of the traversing splitters one after the other.  In this
    part the blocks of the iterations of the label propagation, the
    iterations of the depth-first threads and the blocks of the calls of
    [fl] run in any order.  Blocks that do not overlap give the
    computations verified above.  However the blocks overlap, the labels of
    the label propagation never increase and its run ends; without pruning
    its result is the same, and so is the result of the depth-first
    splitter.  With pruning, and for the breadth-first splitter, orders
    that overlap give results that no run without overlap gives. *)

Section Blocks.
Variables (x : graph) (vdom : list nat).

(** ** The blocks of an iteration of the label propagation *)

Lemma lpa_visit_blocks PRUNE u m :
  lpa_visit x vdom PRUNE u m =
  (r <- lpa_read x vdom PRUNE u ;;
   match r with Some dc => lpa_write x vdom PRUNE u dc | None => ret false end) m.
Proof.
  unfold lpa_visit, lpa_read.
  destruct (hasVertex x u); simpl; [|done].
  rewrite bind_assoc. apply bind_ext; [done|]. intros a m1.
  destruct a; simpl; [|done].
  rewrite bind_assoc. apply bind_ext; [done|]. intros d m2.
  rewrite bind_assoc. apply bind_ext; [done|]. intros c0 m3.
  rewrite bind_assoc. apply bind_ext; [done|]. intros c m4. done.
Qed.

Lemma lpa_events_one_at_a_time PRUNE us n m :
  (st <- foldM (lpa_event x vdom PRUNE) (one_at_a_time us) (n, []) ;; ret st.1) m =
  foldM (λ ndel u, b <- lpa_visit x vdom PRUNE u ;; ret (if b then S ndel else ndel))
        us n m.
Proof.
  revert n m. induction us as [|u us IH]; intros n m; [done|].
  change (one_at_a_time (u :: us)) with (Scan u :: Update u :: one_at_a_time us).
  cbn [foldM]. unfold lpa_event at 1. cbn [fst snd].
  rewrite !bind_assoc.
  transitivity ((r <- lpa_read x vdom PRUNE u ;;
                 b <- match r with
                      | Some dc => lpa_write x vdom PRUNE u dc
                      | None => ret false
                      end ;;
                 st <- foldM (lpa_event x vdom PRUNE) (one_at_a_time us)
                         (if b then S n else n, []) ;; ret st.1) m).
  - apply bind_ext; [done|]. intros r m1. destruct r as [dc|].
    + unfold ret at 1, bind at 1. unfold lpa_event at 1. cbn [fst snd take_scanned].
      rewrite decide_True by done. rewrite !bind_assoc.
      apply bind_ext; [done|]. intros b m2. done.
    + unfold ret at 1, bind at 1. unfold lpa_event at 1. cbn [fst snd take_scanned].
      done.
  - transitivity ((b <- lpa_visit x vdom PRUNE u ;;
                   st <- foldM (lpa_event x vdom PRUNE) (one_at_a_time us)
                           (if b then S n else n, []) ;; ret st.1) m).
    + rewrite <- bind_assoc. apply bind_ext; [by rewrite lpa_visit_blocks|done].
    + apply bind_ext; [done|]. intros b m1. unfold ret at 2, bind at 2.  apply IH.
Qed.

Lemma lpa_round_one_at_a_time PRUNE us m :
  lpa_round_events x vdom PRUNE (one_at_a_time us) m = lpa_round x vdom PRUNE us m.
Proof. apply lpa_events_one_at_a_time. Qed.

Lemma lpa_loop_one_at_a_time PRUNE sched fuel r m :
  lpa_loop_events x vdom PRUNE (λ r, one_at_a_time (sched r)) fuel r m =
  lpa_loop x vdom PRUNE sched fuel r m.
Proof.
  revert r m. induction fuel as [|fuel IH]; intros r m; simpl; [done|].
  apply bind_ext; [apply lpa_round_one_at_a_time|].
  intros ndel m1. case_decide; [done|apply IH].
Qed.

(** When no two iterations overlap, the blocks give the rounds of
    [splitDisconnectedCommunitiesLpaOmpW]. *)
Lemma lpa_overlapped_one_at_a_time PRUNE sched fuel m :
  lpa_overlapped x vdom PRUNE (λ r, one_at_a_time (sched r)) fuel m =
  splitDisconnectedCommunitiesLpaOmpW x vdom PRUNE sched fuel m.
Proof.
  unfold lpa_overlapped, splitDisconnectedCommunitiesLpaOmpW.
  apply bind_ext; [done|]. intros _ m1. apply lpa_loop_one_at_a_time.
Qed.

(** ** The steps of the threads of the depth-first splitter *)

(** The steps of one thread in a row are a part of its loop. *)
Lemma dfs_steps_thread fuel T t n rest p ps m :
  ps !! t = Some p → p + n ≤ span x →
  foldM (dfs_step x vdom fuel T) (replicate n t ++ rest) ps m =
  (forEach (seq p n) (dfs_visit x vdom fuel t T) ;;;
   foldM (dfs_step x vdom fuel T) rest (<[t:=p + n]> ps)) m.
Proof.
  revert p ps m. induction n as [|n IH]; intros p ps m Ht Hn; simpl.
  - rewrite Nat.add_0_r, list_insert_id by done. done.
  - unfold dfs_step at 1. rewrite Ht. rewrite decide_True by lia.
    rewrite !bind_assoc. apply bind_ext; [done|]. intros [] m1.
    unfold ret at 1, bind at 1.
    rewrite (IH (S p)); [|by apply list_lookup_insert_eq; eapply lookup_lt_Some|lia].
    rewrite list_insert_insert_eq. by replace (S p + n) with (p + S n) by lia.
Qed.

(** The threads one after the other, in the order of their numbers. *)
Definition in_turn (T : nat) : list nat := seq 0 T ≫= replicate (span x).

Lemma dfs_steps_in_turn fuel T a n m :
  a + n ≤ T →
  foldM (dfs_step x vdom fuel T) (seq a n ≫= replicate (span x))
        (replicate a (span x) ++ replicate (T - a) 0) m =
  (forEach (seq a n) (λ t, dfs_thread x vdom fuel t T) ;;;
   ret (replicate (a + n) (span x) ++ replicate (T - (a + n)) 0)) m.
Proof.
  revert a m. induction n as [|n IH]; intros a m Han; simpl.
  - by rewrite Nat.add_0_r.
  - rewrite (dfs_steps_thread fuel T a (span x) _ 0); [|..|lia].
    2:{ rewrite lookup_app_r by (rewrite length_replicate; lia).
        rewrite length_replicate, Nat.sub_diag. apply lookup_replicate. lia. }
    rewrite bind_assoc. unfold dfs_thread at 1.
    apply bind_ext; [done|]. intros [] m1. simpl.
    assert (<[a:=span x]> (replicate a (span x) ++ replicate (T - a) 0)
            = replicate (S a) (span x) ++ replicate (T - S a) 0) as ->.
    { rewrite insert_app_r_alt by (rewrite length_replicate; lia).
      rewrite length_replicate, Nat.sub_diag.
      replace (T - a) with (S (T - S a)) by lia. simpl.
      by rewrite app_comm_cons, replicate_cons_app, <- app_assoc. }
    rewrite IH by lia. by replace (S a + n) with (a + S n) by lia.
Qed.

(** When the threads run in turn, the steps are the run of
    [splitDisconnectedCommunitiesDfsOmpW]. *)
Lemma dfs_interleaved_in_turn fuel T m :
  dfs_interleaved x vdom fuel T (in_turn T) m =
  (splitDisconnectedCommunitiesDfsOmpW x vdom fuel T ;;;
   ret (replicate T (span x))) m.
Proof.
  unfold dfs_interleaved, splitDisconnectedCommunitiesDfsOmpW, in_turn.
  rewrite bind_assoc. apply bind_ext; [done|]. intros [] m1.
  pose proof (dfs_steps_in_turn fuel T 0 T m1 ltac:(lia)) as H.
  simpl in H. rewrite Nat.sub_0_r, Nat.sub_diag, app_nil_r in H. done.
Qed.

(** ** The blocks of a call of [fl] *)

Lemma fl_blocks fuel u m :
  fl x vdom fuel u m =
  (r <- fl_claim x vdom u ;;
   match r with Some dc => fl_work x vdom fuel u dc | None => ret tt end) m.
Proof.
  unfold fl, fl_claim.
  destruct (hasVertex x u); simpl; [|done].
  rewrite bind_assoc. apply bind_ext; [done|]. intros b m1.
  destruct b; [done|].
  rewrite bind_assoc. apply bind_ext; [done|]. intros d m2.
  rewrite bind_assoc. apply bind_ext; [done|]. intros c m3.
  rewrite bind_assoc. apply bind_ext; [done|]. intros busy m4.
  destruct busy; [done|].
  rewrite bind_assoc. apply bind_ext; [done|]. intros old m5.
  destruct old; done.
Qed.

(** A block of a thread, and then the rest of it, is the rest of the
    thread. *)
Lemma thread_step_rest fuel th m :
  (th' <- thread_step x vdom fuel th ;; thread_rest x vdom fuel th') m =
  thread_rest x vdom fuel th m.
Proof.
  unfold thread_step, thread_rest. destruct th as [us [[u dc]|]]; simpl.
  - rewrite bind_assoc. apply bind_ext; [done|]. intros [] m1. done.
  - destruct us as [|u us]; simpl; [done|].
    rewrite bind_assoc.
    transitivity ((fl x vdom fuel u ;;; forEach us (fl x vdom fuel)) m); [|done].
    symmetry. etrans; [apply bind_ext; [apply fl_blocks|done]|].
    rewrite bind_assoc.
    apply bind_ext; [done|]. intros r m1. by destruct r.
Qed.

(** A thread that runs alone runs the two loops of the source. *)
Lemma thread_rest_bfs_thread fuel t T m :
  thread_rest x vdom fuel (Thread (bfs_order x t T) None) m =
  bfs_thread x vdom fuel t T m.
Proof.
  unfold thread_rest, bfs_thread, bfs_order. simpl.
  unfold ret at 1, bind at 1. apply forEach_app.
Qed.
End Blocks.

(** ** Labels under overlap *)

Section Overlap.
Variables (x : graph) (vdom : list nat) (PRUNE : bool).
Hypothesis Hok : graph_ok x.
Hypothesis Hdom : vdom_ok x vdom.

Lemma lpa_read_spec m u :
  lpa_sized x PRUNE m → u < span x →
  ∃ r, lpa_read x vdom PRUNE u m = (m, Val r) ∧
       match r with
       | Some dc =>
           present x u ∧
           dc = (com vdom u, minlab vdom m (com vdom u) (edges x u) (lab m u))
       | None => ¬ (present x u ∧ lpa_active PRUNE m u)
       end.
Proof.
  intros Hm Hu. unfold lpa_read.
  destruct (hasVertex x u) eqn:Hx; simpl.
  2:{ exists None. split; [done|]. intros [[_ ?] _]. congruence. }
  assert (present x u) as Hpu by done.
  assert (∃ a, (if PRUNE then get_vaff u else ret true) m = (m, Val a) ∧
               (a = false → ¬ lpa_active PRUNE m u)) as (a & Ha & Hact).
  { destruct (decide (PRUNE = true)) as [HP|HP].
    - rewrite HP. unfold get_vaff, rd.
      rewrite (vaff_lookup x PRUNE m u Hm HP Hu). eexists. split; [done|].
      intros Hf [?|?]; congruence.
    - apply not_true_is_false in HP. rewrite HP. by exists true. }
  unfold bind at 1. rewrite Ha. destruct a; simpl.
  - eexists (Some _). split; [|split; [done|reflexivity]].
    unfold bind, get_vdom, get_vcom, rd.
    rewrite (vdom_lookup x vdom Hdom u Hu). simpl.
    rewrite (vcom_lookup x PRUNE m u Hm Hu). simpl.
    rewrite (lpa_scan_run x vdom Hdom PRUNE m); [done|done|].
    intros v Hv. by eapply edges_in_span.
  - exists None. split; [done|]. intros [_ ?]. by apply Hact.
Qed.

Lemma lpa_write_spec m u dc :
  lpa_sized x PRUNE m → present x u → dc.2 ≤ lab m u →
  ∃ b m', lpa_write x vdom PRUNE u dc m = (m', Val b) ∧
          lpa_sized x PRUNE m' ∧
          (b = true ↔ dc.2 < lab m u) ∧
          vcom m' = <[u:=dc.2]> (vcom m) ∧
          (b = false → m' = m).
Proof.
  intros Hm Hpu Hle. pose proof Hpu as [Hu _].
  assert (∀ v, v ∈ edges x u → v < span x) as He
    by (intros v; by apply edges_in_span).
  assert (wp (lpa_write x vdom PRUNE u dc)
            (λ b m', lpa_sized x PRUNE m' ∧ (b = true ↔ dc.2 < lab m u) ∧
                     vcom m' = <[u:=dc.2]> (vcom m) ∧ (b = false → m' = m)) m)
    as (b & m' & ? & ?); [|by exists b, m'].
  unfold lpa_write.
  apply wp_bind. eapply wp_get_vcom; [by eapply vcom_lookup|].
  case_decide as Hc.
  { apply wp_ret. split_and!; [done|split; [done|lia]| |done].
    rewrite Hc. symmetry. apply list_insert_id. by eapply vcom_lookup. }
  apply wp_bind. apply wp_set_vcom; [destruct Hm; lia|].
  destruct (decide (PRUNE = true)) as [HP|HP].
  - rewrite HP. simpl.
    apply wp_bind.
    apply wp_set_vaff; [simpl; destruct Hm as [_ Hm]; specialize (Hm HP); lia|].
    simpl. apply wp_bind.
    eapply wp_mono; [apply (lpa_mark_run x vdom Hdom PRUNE); [done| |done]|].
    { destruct Hm as [Hm1 Hm2]. split; simpl; rewrite length_insert; auto. }
    simpl. intros [] m' (Hvc & _ & _ & Hlen & _).
    apply wp_ret. rewrite length_insert in Hlen.
    split_and!; [|split; [lia|done]|done|done].
    destruct Hm as [Hm1 Hm2]. split.
    + rewrite Hvc, length_insert. done.
    + intros _. rewrite Hlen. by apply Hm2.
  - apply not_true_is_false in HP. rewrite HP. simpl.
    apply wp_ret. split_and!; [|split; [lia|done]|done|done].
    destruct Hm as [Hm1 Hm2]. split; simpl; [by rewrite length_insert|].
    intros ?. congruence.
Qed.

(** The iterations between their blocks are iterations for different
    vertices of the graph, and hold minima that are no larger than the
    labels of their vertices. *)
Definition scanned_ok (m : mem) (sc : scanned) : Prop :=
  NoDup sc.*1 ∧ ∀ u dc, (u, dc) ∈ sc → present x u ∧ dc.2 ≤ lab m u.

(** The minima they hold are ids reached from their vertices. *)
Definition scanned_inv (sc : scanned) : Prop :=
  ∀ u dc, (u, dc) ∈ sc → reach x vdom u dc.2.

(** The vertices scanned and not yet updated, and the vertices scanned. *)
Definition open_step (open : list nat) (e : event) : list nat :=
  match e with
  | Scan u => u :: open
  | Update u => filter (.≠ u) open
  end.

Definition seen_step (seen : list nat) (e : event) : list nat :=
  match e with
  | Scan u => u :: seen
  | Update _ => seen
  end.

(** No vertex is scanned while an iteration for it is between its
    blocks. *)
Definition event_ok (open : list nat) (e : event) : Prop :=
  match e with
  | Scan u => u < span x ∧ u ∉ open
  | Update _ => True
  end.

Fixpoint events_ok (open : list nat) (es : list event) : Prop :=
  match es with
  | [] => True
  | e :: es' => event_ok open e ∧ events_ok (open_step open e) es'
  end.

(** A round: every iteration of the parallel [for] runs, and runs both of
    its blocks. *)
Definition round_ok (es : list event) : Prop :=
  events_ok [] es ∧ foldl open_step [] es = [] ∧ ∀ u, u < span x → Scan u ∈ es.

Global Instance event_ok_dec open e : Decision (event_ok open e).
Proof. destruct e; simpl; apply _. Defined.

Global Instance events_ok_dec open es : Decision (events_ok open es).
Proof. revert open. induction es as [|e es IH]; intros open; simpl; apply _. Defined.

Lemma take_scanned_spec u sc dc rest :
  take_scanned u sc = Some (dc, rest) →
  (u, dc) ∈ sc ∧ (∀ p, p ∈ rest → p ∈ sc) ∧
  (∀ v, v ∈ sc.*1 → v ≠ u → v ∈ rest.*1) ∧
  (NoDup sc.*1 → NoDup rest.*1 ∧ u ∉ rest.*1).
Proof.
  revert dc rest. induction sc as [|[v dv] sc IH]; intros dc rest; simpl; [done|].
  case_decide as Hv.
  - intros [= <- <-]. subst v. split_and!; [left| | |].
    + intros p Hp. by right.
    + intros v [->|?]%elem_of_cons; done.
    + intros [? ?]%NoDup_cons. done.
  - destruct (take_scanned u sc) as [[dc' rest']|] eqn:E; [|done].
    intros [= <- <-]. destruct (IH dc' rest' eq_refl) as (Hin & Hsub & Hkeep & Hnd).
    split_and!; [by right| | |].
    + intros p [->|Hp]%elem_of_cons; [left|right; by apply Hsub].
    + simpl. intros w [->|Hw]%elem_of_cons Hwu; [left|right; by apply Hkeep].
    + intros [Hv1 Hv2]%NoDup_cons. destruct (Hnd Hv2) as [Hnd1 Hnd2].
      split.
      * simpl. apply NoDup_cons. split; [|done].
        intros ([v' d'] & -> & Hp)%list_elem_of_fmap. apply Hv1.
        apply list_elem_of_fmap. exists (v', d'). split; [done|by apply Hsub].
      * simpl. intros [->|?]%elem_of_cons; done.
Qed.

Lemma take_scanned_none u sc : take_scanned u sc = None → u ∉ sc.*1.
Proof.
  induction sc as [|[v dv] sc IH]; simpl; [intros _; apply not_elem_of_nil|].
  case_decide; [done|]. destruct (take_scanned u sc) as [[? ?]|]; [done|].
  intros _ [->|?]%elem_of_cons; [done|]. by apply IH.
Qed.

(** While a round has changed no label: the memory is the memory [m0] of
    its beginning, the minima held are those of [m0], and the iterations
    that have run both blocks have found nothing to change. *)
Definition round_quiet (m0 : mem) (seen : list nat) (m : mem) (sc : scanned) : Prop :=
  m = m0 ∧
  (∀ u dc, (u, dc) ∈ sc →
     dc.2 = minlab vdom m0 (com vdom u) (edges x u) (lab m0 u)) ∧
  (∀ u, u ∈ seen → u ∉ sc.*1 → lpa_quiet x vdom PRUNE m0 u).

Lemma minlab_reach m u :
  lpa_inv x vdom PRUNE m → present x u →
  reach x vdom u (minlab vdom m (com vdom u) (edges x u) (lab m u)).
Proof.
  intros [_ Hinv] Hpu. pose proof Hpu as [Hu _].
  destruct (minlab_attained vdom m (com vdom u) (edges x u) (lab m u))
    as [->|(v & Hv & Hd & ->)]; [apply Hinv, Hu|].
  eapply rtc_l; [by apply sedge_intro|]. apply Hinv. by eapply edges_in_span.
Qed.

Lemma lpa_event_spec m0 seen open e n sc m :
  lpa_sized x PRUNE m → scanned_ok m sc → sc.*1 ⊆ open → event_ok open e →
  ∃ n' sc' m',
    lpa_event x vdom PRUNE (n, sc) e m = (m', Val (n', sc')) ∧
    lpa_sized x PRUNE m' ∧ scanned_ok m' sc' ∧ sc'.*1 ⊆ open_step open e ∧
    lpa_mono x m m' ∧ mu x m' + n' ≤ mu x m + n ∧ n ≤ n' ∧
    (lpa_inv x vdom PRUNE m → scanned_inv sc →
     lpa_inv x vdom PRUNE m' ∧ scanned_inv sc') ∧
    (round_quiet m0 seen m sc → n' = n →
     round_quiet m0 (seen_step seen e) m' sc').
Proof.
  intros Hm [Hnd Hsc] Hsub He. destruct e as [u|u]; simpl in He.
  - destruct He as [Hu Hopen].
    destruct (lpa_read_spec m u Hm Hu) as (r & Hrun & Hr).
    unfold lpa_event, bind. rewrite Hrun. simpl.
    eexists n, _, m. split; [done|].
    split_and!; try done.
    + destruct r as [dc|]; [|by split]. destruct Hr as [Hpu ->].
      split.
      * simpl. apply NoDup_cons. split; [|done]. intros Hin. by apply Hopen, Hsub.
      * intros v dv [[= -> ->]|Hin]%elem_of_cons; [|by apply Hsc].
        split; [done|]. apply minlab_le.
    + destruct r as [dc|]; simpl.
      * intros v [->|Hv]%elem_of_cons; [left|right; by apply Hsub].
      * intros v Hv. right. by apply Hsub.
    + intros Hinv Hsi. split; [done|]. destruct r as [dc|]; [|done].
      destruct Hr as [Hpu ->].
      intros v dv [[= -> ->]|Hin]%elem_of_cons; [|by apply Hsi].
      by apply minlab_reach.
    + intros (-> & Hmin & Hq) _. split_and!; [done|..].
      * destruct r as [dc|]; [|done]. destruct Hr as [Hpu ->].
        intros v dv [[= -> ->]|Hin]%elem_of_cons; [done|by apply Hmin].
      * simpl. intros v [->|Hv]%elem_of_cons Hnv.
        -- destruct r as [dc|].
           ++ exfalso. apply Hnv. simpl. left.
           ++ intros Hpu Hact. by destruct Hr.
        -- apply Hq; [done|]. intros Hin. apply Hnv.
           destruct r as [dc|]; [simpl; by right|done].
  - unfold lpa_event. cbn [fst snd].
    destruct (take_scanned u sc) as [[dc rest]|] eqn:E.
    + destruct (take_scanned_spec u sc dc rest E) as (Hin & Hrest & Hkeep & Hnd').
      destruct (Hnd' Hnd) as [Hnd1 Hnd2].
      destruct (Hsc u dc Hin) as [Hpu Hle]. pose proof Hpu as [Hu _].
      destruct (lpa_write_spec m u dc Hm Hpu Hle)
        as (b & m' & Hrun & Hm' & Hb & Hvc & Hsame).
      unfold bind. rewrite Hrun. simpl.
      assert (∀ w, lab m' w = if decide (w = u) then dc.2 else lab m w) as Hlab.
      { intros w. apply lab_insert; [destruct Hm; lia|done]. }
      eexists _, rest, m'. split; [done|].
      split_and!; try done.
      * split; [done|]. intros v dv Hv. destruct (Hsc v dv (Hrest _ Hv)) as [Hpv Hlv].
        split; [done|]. rewrite Hlab, decide_False; [done|].
        intros ->. apply Hnd2. apply list_elem_of_fmap. by exists (u, dv).
      * intros v Hv. apply list_elem_of_filter. split.
        -- intros ->. done.
        -- apply Hsub. apply list_elem_of_fmap in Hv as (p & -> & Hp).
           apply list_elem_of_fmap. exists p. split; [done|by apply Hrest].
      * split_and!.
        -- rewrite Hvc. apply length_insert.
        -- intros w. rewrite Hlab. case_decide; [by subst|done].
        -- intros w Hw. rewrite Hlab, decide_False by lia. done.
      * destruct b.
        -- assert (dc.2 < lab m u) as Hlt by by apply Hb.
           pose proof (mu_insert x m m' u dc.2 ltac:(destruct Hm; lia) Hu Hlt Hvc).
           lia.
        -- rewrite (Hsame eq_refl). lia.
      * destruct b; lia.
      * intros [_ Hinv] Hsi. split; [split; [done|]|].
        -- intros w Hw. rewrite Hlab. destruct (Hinv w Hw) as (Hlw & Hrw & Haw).
           case_decide as Hwu; [subst w|done].
           split; [lia|]. split; [by apply (Hsi u dc)|done].
        -- intros v dv Hv. apply (Hsi v dv). by apply Hrest.
      * intros (-> & Hmin & Hq) Hn. destruct b; [lia|].
        rewrite (Hsame eq_refl). split_and!; [done|..].
        -- intros v dv Hv. apply Hmin. by apply Hrest.
        -- simpl. intros v Hv Hnv. destruct (decide (v = u)) as [->|Hvu].
           ++ intros _ _. rewrite <- (Hmin u dc Hin).
              destruct (decide (dc.2 < lab m0 u)) as [Hlt|]; [|lia].
              apply Hb in Hlt. done.
           ++ apply Hq; [done|]. intros Hvin. apply Hnv. by apply Hkeep.
    + exists n, sc, m. split; [done|].
      split_and!; try done.
      intros v Hv. apply list_elem_of_filter. split; [|by apply Hsub].
      intros ->. by apply (take_scanned_none u sc E).
Qed.

Lemma lpa_events_spec m0 es seen open n sc m :
  lpa_sized x PRUNE m → scanned_ok m sc → sc.*1 ⊆ open → events_ok open es →
  ∃ n' sc' m',
    foldM (lpa_event x vdom PRUNE) es (n, sc) m = (m', Val (n', sc')) ∧
    lpa_sized x PRUNE m' ∧ sc'.*1 ⊆ foldl open_step open es ∧
    lpa_mono x m m' ∧ mu x m' + n' ≤ mu x m + n ∧ n ≤ n' ∧
    (lpa_inv x vdom PRUNE m → scanned_inv sc → lpa_inv x vdom PRUNE m') ∧
    (round_quiet m0 seen m sc → n' = n →
     round_quiet m0 (foldl seen_step seen es) m' sc').
Proof.
  revert seen open n sc m.
  induction es as [|e es IH]; intros seen open n sc m Hm Hsc Hsub Hes.
  - exists n, sc, m. split; [done|]. by split_and!.
  - destruct Hes as [He Hes].
    destruct (lpa_event_spec m0 seen open e n sc m Hm Hsc Hsub He)
      as (n1 & sc1 & m1 & Hrun1 & Hm1 & Hsc1 & Hsub1 & Hmono1 & Hmu1 & Hn1
          & Hinv1 & Hq1).
    destruct (IH (seen_step seen e) (open_step open e) n1 sc1 m1 Hm1 Hsc1 Hsub1 Hes)
      as (n2 & sc2 & m2 & Hrun2 & Hm2 & Hsub2 & Hmono2 & Hmu2 & Hn2 & Hinv2 & Hq2).
    exists n2, sc2, m2. split.
    + simpl. unfold bind. by rewrite Hrun1.
    + split_and!; [done|done| |lia|lia| |].
      * by eapply lpa_mono_trans.
      * intros Hinv Hsi. destruct (Hinv1 Hinv Hsi). by apply Hinv2.
      * intros Hq Hn. simpl. apply Hq2; [|lia]. apply Hq1; [done|lia].
Qed.

Lemma seen_scans (es : list event) seen u :
  u ∈ seen ∨ Scan u ∈ es → u ∈ foldl seen_step seen es.
Proof.
  revert seen. induction es as [|e es IH]; intros seen; simpl.
  - intros [?|H]; [done|by apply elem_of_nil in H].
  - intros [Hs|[<-|He]%elem_of_cons]; apply IH.
    + left. destruct e; simpl; [by right|done].
    + left. simpl. left.
    + by right.
Qed.

(** A round of overlapping iterations lowers labels only, and the sum of
    the labels by at least the number of changes it counts; a round that
    counts no change has changed nothing, and has found every vertex with
    the minimum of its neighbourhood. *)
Lemma lpa_round_events_spec es m :
  lpa_sized x PRUNE m → events_ok [] es →
  ∃ ndel m',
    lpa_round_events x vdom PRUNE es m = (m', Val ndel) ∧
    lpa_sized x PRUNE m' ∧ lpa_mono x m m' ∧ mu x m' + ndel ≤ mu x m ∧
    (lpa_inv x vdom PRUNE m → lpa_inv x vdom PRUNE m') ∧
    (round_ok es → ndel = 0 →
     m' = m ∧ ∀ u, u < span x → lpa_quiet x vdom PRUNE m u).
Proof.
  intros Hm Hes.
  destruct (lpa_events_spec m es [] [] 0 [] m Hm)
    as (n & sc & m' & Hrun & Hm' & Hsub & Hmono & Hmu & _ & Hinv & Hq);
    [|done|done|].
  { split; [constructor|]. intros u dc Hin. by apply elem_of_nil in Hin. }
  exists n, m'. split; [|split_and!; [done|done|lia| |]].
  - unfold lpa_round_events, bind, scanned in *. by rewrite Hrun.
  - intros Hi. apply Hinv; [done|]. intros u dc Hin. by apply elem_of_nil in Hin.
  - intros (_ & Hclosed & Hall) Hn.
    destruct Hq as (-> & _ & Hquiet); [|done|].
    { split_and!; [done|..]; intros u; [intros dc|]; intros Hin;
        by apply elem_of_nil in Hin. }
    split; [done|]. intros u Hu. apply Hquiet.
    + apply seen_scans. right. by apply Hall.
    + rewrite Hclosed in Hsub. intros Hin. apply Hsub in Hin.
      by apply elem_of_nil in Hin.
Qed.

Lemma lpa_loop_events_spec sched fuel r m :
  lpa_sized x PRUNE m → (∀ r, events_ok [] (sched r)) → mu x m < fuel →
  ∃ m', lpa_loop_events x vdom PRUNE sched fuel r m = (m', Val tt) ∧
        lpa_mono x m m' ∧
        (lpa_inv x vdom PRUNE m → lpa_inv x vdom PRUNE m') ∧
        ((∀ r, round_ok (sched r)) →
         ∀ u, u < span x → lpa_quiet x vdom PRUNE m' u).
Proof.
  intros Hm Hs. revert r m Hm. induction fuel as [|fuel IH]; intros r m Hm Hfuel; [lia|].
  destruct (lpa_round_events_spec (sched r) m Hm (Hs r))
    as (ndel & m1 & Hrun & Hm1 & Hmono & Hmu & Hinv & Hq).
  simpl. unfold bind. rewrite Hrun. case_decide as Hn.
  - exists m1. split_and!; try done. intros Hr. by destruct (Hq (Hr r) Hn) as [-> ?].
  - destruct (IH (S r) m1 Hm1 ltac:(lia)) as (m' & Hrun' & Hmono' & Hinv' & Hq').
    exists m'. split_and!; [done| |auto|done]. by eapply lpa_mono_trans.
Qed.

(** However the iterations of a round overlap, the label propagation ends,
    within span * span rounds that change labels, and no label ever
    increases after the first loop.  Without pruning, when every round runs
    every iteration, each vertex ends with the smallest id reached from it
    inside its community. *)
Lemma lpa_overlapped_ends sched fuel m :
  lpa_sized x PRUNE m → (∀ r, events_ok [] (sched r)) → span x * span x < fuel →
  ∃ m1 m', lpa_init x PRUNE m = (m1, Val tt) ∧
           lpa_overlapped x vdom PRUNE sched fuel m = (m', Val tt) ∧
           length (vcom m') = length (vcom m) ∧
           (∀ w, lab m' w ≤ lab m1 w) ∧
           (PRUNE = false → (∀ r, round_ok (sched r)) →
            ∀ u, present x u → min_rep x vdom u (lab m' u)).
Proof.
  intros Hm Hs Hfuel.
  destruct (lpa_init_spec x vdom PRUNE m Hm)
    as ([] & m1 & Hinit & Hinv1 & _ & Hmu & Hlen1 & _).
  destruct (lpa_loop_events_spec sched fuel 0 m1 (proj1 Hinv1) Hs ltac:(lia))
    as (m' & Hrun & (Hlen & Hle & _) & Hinv & Hq).
  exists m1, m'. split_and!; [done| |congruence|done|].
  - unfold lpa_overlapped, bind. by rewrite Hinit.
  - intros HP Hr u Hu.
    apply (lpa_stable_min_rep x vdom Hok PRUNE); [by apply Hinv| |done].
    apply (lpa_quiet_stable x vdom Hok Hdom PRUNE m' (seq 0 (span x))).
    + intros v Hv. apply elem_of_seq. lia.
    + intros v Hv%elem_of_seq. apply Hq; [done|lia].
    + intros HP'. congruence.
Qed.

Lemma round_ok_alt es :
  round_ok es ↔
  events_ok [] es ∧ foldl open_step [] es = [] ∧
  Forall (λ u, Scan u ∈ es) (seq 0 (span x)).
Proof.
  unfold round_ok. rewrite Forall_forall. split.
  - intros (? & ? & Hall). split_and!; try done.
    intros u Hu%elem_of_seq. apply Hall. lia.
  - intros (? & ? & Hall). split_and!; try done.
    intros u Hu. apply Hall, elem_of_seq. lia.
Qed.

Global Instance event_eq_dec : EqDecision event.
Proof. solve_decision. Defined.

Global Instance round_ok_dec es : Decision (round_ok es).
Proof.
  refine (cast_if (decide (events_ok [] es ∧ foldl open_step [] es = [] ∧
                           Forall (λ u, Scan u ∈ es) (seq 0 (span x)))));
    by rewrite round_ok_alt.
Defined.

Lemma events_ok_one_at_a_time us :
  (∀ u, u ∈ us → u < span x) → events_ok [] (one_at_a_time us).
Proof.
  induction us as [|u us IH]; intros Hus; [done|].
  change (one_at_a_time (u :: us)) with (Scan u :: Update u :: one_at_a_time us).
  simpl. split_and!; try done.
  - apply Hus. left.
  - apply not_elem_of_nil.
  - rewrite filter_cons_False by (intros H; by apply H).
    apply IH. intros v Hv. apply Hus. by right.
Qed.

Lemma open_one_at_a_time (us : list nat) :
  foldl open_step [] (one_at_a_time us) = [].
Proof.
  induction us as [|u us IH]; [done|].
  change (one_at_a_time (u :: us)) with (Scan u :: Update u :: one_at_a_time us).
  simpl. by rewrite filter_cons_False by (intros H; by apply H).
Qed.

Lemma round_ok_one_at_a_time us : us ≡ₚ seq 0 (span x) → round_ok (one_at_a_time us).
Proof.
  intros Hus. split_and!.
  - apply events_ok_one_at_a_time. intros u Hu. rewrite Hus in Hu.
    apply elem_of_seq in Hu. lia.
  - apply open_one_at_a_time.
  - intros u Hu. apply list_elem_of_bind. exists u. split; [left|].
    rewrite Hus. apply elem_of_seq. lia.
Qed.
End Overlap.

(** Every iteration of a round scans before any iteration updates. *)
Definition scans_first (n : nat) : list event :=
  (Scan <$> seq 0 n) ++ (Update <$> seq 0 n).

(** Three vertices on the path 0 - 1 - 2. *)
Definition path3 : graph := graph_of 3 [] [[1]; [0; 2]; [1]].

(** In the first round the iteration for 2 scans before, and updates after,
    the iteration for 1. *)
Definition late_update (r : nat) : list event :=
  match r with
  | 0 => [Scan 0; Update 0; Scan 2; Scan 1; Update 1; Update 2]
  | _ => one_at_a_time (seq 0 3)
  end.

(** Every round of [late_update] runs every iteration. *)
Lemma late_update_round_ok r : round_ok path3 (late_update r).
Proof. destruct r as [|r]; [by_computation|]. by apply round_ok_one_at_a_time. Qed.

(** Without pruning the iterations may overlap: on the path 0 - 1 - 2 the
    order [late_update] of the blocks gives every vertex the label 0. *)
Lemma plain_lpa_late_update :
  ∃ m', lpa_overlapped path3 [0; 0; 0] false late_update 10 (mem0 3)
          = (m', Val tt) ∧
        vcom m' = [0; 0; 0] ∧
        ∀ u, present path3 u → min_rep path3 [0; 0; 0] u (lab m' u).
Proof.
  destruct (lpa_overlapped_ends path3 [0; 0; 0] false) with
    (sched := late_update) (fuel := 10) (m := mem0 3)
    as (m1 & m' & _ & Hrun & _ & _ & Hmin).
  - by_computation.
  - unfold vdom_ok. simpl. lia.
  - unfold lpa_sized. simpl. split; [lia|congruence].
  - intros r. apply late_update_round_ok.
  - simpl. lia.
  - exists m'. split; [done|]. split.
    + assert (lpa_overlapped path3 [0; 0; 0] false late_update 10 (mem0 3)
              = (Mem [0; 0; 0] (replicate 3 false) (replicate 3 false)
                     (replicate 3 false), Val tt)) as Heq
        by (vm_compute; reflexivity).
      rewrite Heq in Hrun. by injection Hrun as <-.
    + apply Hmin; [done|]. apply late_update_round_ok.
Qed.

(** ** The depth-first splitter under interleaving *)

(** However the iterations of the threads interleave, when every thread
    has passed the whole span each vertex of an undirected graph carries
    the smallest id of its piece. *)
Lemma dfs_interleaved_result x vdom fuel T sched m :
  graph_ok x → symmetric x → vdom_ok x vdom → buffers_ok x (Dfs T) m →
  0 < T → span x < fuel →
  ∃ ps m', dfs_interleaved x vdom fuel T sched m = (m', Val ps) ∧
           (ps = replicate T (span x) →
            length (vcom m') = length (vcom m) ∧
            ∀ u, present x u → min_rep x vdom u (lab m' u)).
Proof.
  intros Hok Hsym Hdom Hbuf HT Hfuel.
  destruct (dfs_interleaved_run x vdom Hok Hdom fuel T Hfuel sched m Hbuf HT)
    as (ps & m' & Hrun & Hres).
  exists ps, m'. split; [done|]. intros Hps.
  destruct (Hres Hps) as (_ & Hlen & _ & Hall & Hfull).
  split; [done|]. intros u Hu. apply (Hfull Hsym); [done|by apply Hall].
Qed.

(** The two threads of a run on the scenario take turns after every
    iteration. *)
Lemma dfs_taking_turns :
  ∃ m', dfs_interleaved scenario scenario_vdom 37 2
          [0; 1; 0; 1; 0; 1; 0; 1; 0; 1; 0; 1] (mem0 6)
        = (m', Val (replicate 2 (span scenario))) ∧
        vcom m' = [0; 0; 0; 3; 3; 5].
Proof. eexists. split; [vm_compute; reflexivity|done]. Qed.

(** ** Overlap loses marks and pieces *)

(** With pruning, on the path 0 - 1 - 2 in one community: the iteration
    for 2 reads the label 1 of vertex 1; the iteration for 1 then lowers
    that label to 0 and finds the flag of 2 still set; the iteration for 2
    then takes the label 1 and clears its flag.  No later change of a
    neighbour marks 2 again, and the run ends with the label 1 on vertex 2,
    which reaches 0. *)
Lemma pruned_lpa_loses_a_mark :
  graph_ok path3 ∧ symmetric path3 ∧ (∀ r, round_ok path3 (late_update r)) ∧
  reach path3 [0; 0; 0] 2 0 ∧
  ∃ m', lpa_overlapped path3 [0; 0; 0] true late_update 10 (mem0 3) = (m', Val tt) ∧
        vcom m' = [0; 0; 1].
Proof.
  split; [by_computation|]. split; [by_computation|]. split; [|split].
  - apply late_update_round_ok.
  - apply (rtc_l _ _ 1); [|apply rtc_once].
    + split; [by_computation|]. split; [|done]. simpl. left.
    + split; [by_computation|]. split; [|done]. simpl. left.
  - eexists. split; [vm_compute; reflexivity|done].
Qed.

(** The edge 1 - 2 and the isolated vertices 0, 3 and 4. *)
Definition islands : graph := graph_of 5 [] [[]; [2]; [1]; []; []].

(** The thread that runs each block: thread 0 claims at 0; thread 1 tries
    at 2; thread 0 traverses from 0; thread 1 claims at 3; thread 0 tries at
    1, 2 and 3; thread 1 traverses from 3; thread 0 claims at 4; thread 1
    tries at 4, 0 and 1; thread 0 traverses from 4. *)
Definition contended : list nat := [0; 1; 0; 1; 0; 0; 0; 1; 0; 1; 1; 1; 0].

(** Two threads on [islands], all in community 0; thread 1 starts at
    vertex 2.  Thread 0 claims the community at 0 and thread 1 finds it
    busy at 2; thread 1 then claims it at 3 and thread 0 finds it busy at
    1, 2 and 3; thread 0 claims it at 4 and thread 1 finds it busy at 4 and
    at 1.  A thread does not come back to a vertex it has skipped: both
    threads end, and no traversal has started at 1 or at 2, which keep
    their own labels although the edge 1 - 2 connects them. *)
Lemma bfs_skips_a_piece :
  graph_ok islands ∧ symmetric islands ∧ com_in_span islands [0; 0; 0; 0; 0] ∧
  present islands 1 ∧ present islands 2 ∧ reach islands [0; 0; 0; 0; 0] 1 2 ∧
  ∃ m' ths,
    bfs_interleaved islands [0; 0; 0; 0; 0] 26 2 contended (mem0 5)
      = (m', Val ths) ∧
    forallb finished ths = true ∧ vcom m' = [0; 1; 2; 3; 4].
Proof.
  split; [by_computation|]. split; [by_computation|]. split; [by_computation|].
  split; [by_computation|]. split; [by_computation|]. split.
  - apply rtc_once. split; [by_computation|]. split; [|done]. simpl. left.
  - eexists _, _. split; [vm_compute; reflexivity|done].
Qed.

(** * The refinement invariant *)

Section Results.
Variables (x : graph) (vdom : list nat).
Hypothesis Hok : graph_ok x.
Hypothesis Hsym : symmetric x.
Hypothesis Hdom : vdom_ok x vdom.

(** Two vertices carry the same minimal representative exactly when they
    are connected inside their community. *)
Lemma min_rep_iff_reach u v c c' :
  min_rep x vdom u c → min_rep x vdom v c' → c = c' ↔ reach x vdom u v.
Proof.
  intros Hu Hv. split.
  - intros ->. eapply rtc_trans; [apply Hu|].
    apply reach_sym; [done|done|apply Hv].
  - intros Hr. apply (min_rep_unique x vdom v); [|done].
    by apply (min_rep_reach x vdom u v c).
Qed.

(** The labels [L] of a finished split, taken as communities: their paths
    are paths of the communities they refine, and every vertex reaches its
    label along vertices of that label. *)
Lemma relabel_reach (L : list nat) a b :
  (∀ w, present x w → ∃ c, L !! w = Some c ∧ min_rep x vdom w c) →
  reach x L a b → reach x vdom a b.
Proof.
  intros HL. apply rtc_subrel. intros u v (Hu & Hv & HLuv).
  pose proof (Hok u v Hu Hv) as Hpv.
  destruct (HL u Hu) as (c & Hc & [Hrc _]).
  destruct (HL v Hpv) as (c' & Hc' & [Hrc' _]).
  assert (c' = c) as -> by congruence.
  split_and!; try done.
  rewrite <- (reach_vdom x vdom v c Hrc'). exact (reach_vdom x vdom u c Hrc).
Qed.

Lemma relabel_to_min (L : list nat) u c :
  (∀ w, present x w → ∃ c, L !! w = Some c ∧ min_rep x vdom w c) →
  present x u → min_rep x vdom u c → reach x L u c.
Proof.
  intros HL Hu [Hr Hmin]. revert Hu Hmin.
  induction Hr as [|a b c Hab Hbc IH]; intros Ha Hmin; [done|].
  pose proof Hab as (_ & Hb & _). pose proof (Hok a b Ha Hb) as Hpb.
  assert (∀ w, reach x vdom b w → c ≤ w) as Hminb.
  { intros w Hw. apply Hmin. by eapply rtc_l. }
  destruct (HL a Ha) as (ca & Hca & Hma). destruct (HL b Hpb) as (cb & Hcb & Hmb).
  assert (ca = c) as ->.
  { apply (min_rep_unique x vdom a); [done|]. split; [by eapply rtc_l|done]. }
  assert (cb = c) as -> by (by apply (min_rep_unique x vdom b)).
  eapply rtc_l; [|by apply IH]. split_and!; try done. congruence.
Qed.

Lemma relabel_min_rep (L : list nat) u c :
  (∀ w, present x w → ∃ c, L !! w = Some c ∧ min_rep x vdom w c) →
  present x u → min_rep x L u c ↔ min_rep x vdom u c.
Proof.
  intros HL Hu. split.
  - intros [Hr Hmin]. destruct (HL u Hu) as (c0 & _ & Hm0).
    assert (c = c0) as ->; [|done]. apply Nat.le_antisymm.
    + apply Hmin. by apply relabel_to_min.
    + apply Hm0. by eapply relabel_reach.
  - intros Hm. split; [by apply relabel_to_min|].
    intros w Hw. apply Hm. by eapply relabel_reach.
Qed.
End Results.

(** The refinement invariant of a result [m]. *)
Definition refined (x : graph) (vdom : list nat) (m : mem) : Prop :=
  ∀ u v, present x u → present x v → vdom !! u = vdom !! v →
         (vcom m !! u = vcom m !! v ↔ reach x vdom u v).

(** Every vertex carries the smallest id reached from it inside its
    community. *)
Definition minimal (x : graph) (vdom : list nat) (m : mem) : Prop :=
  ∀ u, present x u → ∃ c, vcom m !! u = Some c ∧ min_rep x vdom u c.

Lemma minimal_intro x vdom m :
  span x ≤ length (vcom m) →
  (∀ u, present x u → min_rep x vdom u (lab m u)) → minimal x vdom m.
Proof.
  intros Hlen Hmin u Hu. exists (lab m u). split; [|by apply Hmin].
  apply lab_lookup. destruct Hu. lia.
Qed.

Lemma minimal_refined x vdom m :
  graph_ok x → symmetric x → minimal x vdom m → refined x vdom m.
Proof.
  intros Hok Hsym Hmin u v Hu Hv _.
  destruct (Hmin u Hu) as (c & -> & Hc). destruct (Hmin v Hv) as (c' & -> & Hc').
  rewrite <- (min_rep_iff_reach x vdom Hok Hsym u v c c' Hc Hc').
  split; congruence.
Qed.




(** C2 (amended): on an undirected graph whose edges join vertices of the
    graph, with vdom and the buffers covering the span (and community ids
    below the span for the breadth-first splitter), any two of the
    splitters group the vertices alike, when the iterations of a round of
    the label propagation run one at a time, in any order, and the threads
    of the traversing splitters run one after the other in the order of
    their numbers. *)
Theorem splitters_same_partition s1 s2 x vdom fuel1 fuel2 m1 m2 :
  graph_ok x → symmetric x → vdom_ok x vdom →
  buffers_ok x s1 m1 → splitter_ok x vdom s1 → span x * span x < fuel1 →
  buffers_ok x s2 m2 → splitter_ok x vdom s2 → span x * span x < fuel2 →
  ∃ m1' m2',
    split s1 x vdom fuel1 m1 = (m1', Val tt) ∧
    split s2 x vdom fuel2 m2 = (m2', Val tt) ∧
    ∀ u v, present x u → present x v →
           (vcom m1' !! u = vcom m1' !! v ↔ vcom m2' !! u = vcom m2' !! v).
Proof.
  intros Hok Hsym Hdom Hbuf1 Hs1 Hfuel1 Hbuf2 Hs2 Hfuel2.
  destruct (split_run s1 x vdom fuel1 m1 Hok Hdom Hbuf1 Hs1 Hfuel1)
    as (m1' & Hrun1 & Hlen1 & _ & _ & Hmin1).
  destruct (split_run s2 x vdom fuel2 m2 Hok Hdom Hbuf2 Hs2 Hfuel2)
    as (m2' & Hrun2 & Hlen2 & _ & _ & Hmin2).
  exists m1', m2'. split_and!; try done. intros u v Hu Hv.
  specialize (Hmin1 (or_introl Hsym)). specialize (Hmin2 (or_introl Hsym)).
  destruct Hbuf1 as [Hvc1 _], Hbuf2 as [Hvc2 _].
  rewrite !lab_lookup by (destruct Hu, Hv; lia).
  rewrite (min_rep_unique x vdom u _ _ (Hmin1 u Hu) (Hmin2 u Hu)).
  rewrite (min_rep_unique x vdom v _ _ (Hmin1 v Hv) (Hmin2 v Hv)).
  done.
Qed.

Lemma splitters_same_partition_witness :
  ∃ m1' m2',
    split (Lpa true (seq_sched scenario)) scenario scenario_vdom 37 (mem0 6)
      = (m1', Val tt) ∧
    split (Dfs 2) scenario scenario_vdom 37 (mem0 6) = (m2', Val tt) ∧
    ∀ u v, present scenario u → present scenario v →
           (vcom m1' !! u = vcom m1' !! v ↔ vcom m2' !! u = vcom m2' !! v).
Proof.
  apply splitters_same_partition.
  - by_computation.
  - by_computation.
  - unfold vdom_ok. simpl. lia.
  - unfold buffers_ok. simpl. lia.
  - apply seq_sched_ok.
  - simpl. lia.
  - unfold buffers_ok. simpl. lia.
  - simpl. lia.
  - simpl. lia.
Defined.

(** C2 as stated fails in three ways.  On the single directed edge 0 -> 1
    the label propagation keeps 0 and 1 apart and the depth-first splitter
    joins them.  On the undirected edge 0 - 1 with both vertices in
    community 5 and the busy flag of index 5 set on entry, the label
    propagation joins 0 and 1 and the breadth-first splitter keeps them
    apart.  On the undirected graph [islands], in one community 0, the
    label propagation joins 1 and 2, and two threads of the breadth-first
    splitter that run at the same time keep them apart. *)
Lemma partitions_differ :
  (graph_ok one_way ∧ present one_way 0 ∧ present one_way 1 ∧
   ∃ m1' m2',
     split (Lpa false (seq_sched one_way)) one_way [0; 0] 5 (mem0 2)
       = (m1', Val tt) ∧
     split (Dfs 1) one_way [0; 0] 5 (mem0 2) = (m2', Val tt) ∧
     vcom m1' = [0; 1] ∧ vcom m2' = [0; 0]) ∧
  (graph_ok link ∧ symmetric link ∧ buffers_ok link (Bfs 1) stale ∧
   present link 0 ∧ present link 1 ∧
   ∃ m1' m2',
     split (Lpa false (seq_sched link)) link [5; 5] 5 stale = (m1', Val tt) ∧
     split (Bfs 1) link [5; 5] 5 stale = (m2', Val tt) ∧
     vcom m1' = [0; 0] ∧ vcom m2' = [0; 1]) ∧
  (graph_ok islands ∧ symmetric islands ∧ com_in_span islands [0; 0; 0; 0; 0] ∧
   present islands 1 ∧ present islands 2 ∧
   ∃ m1' m2' ths,
     split (Lpa false (seq_sched islands)) islands [0; 0; 0; 0; 0] 26 (mem0 5)
       = (m1', Val tt) ∧
     bfs_interleaved islands [0; 0; 0; 0; 0] 26 2 contended (mem0 5)
       = (m2', Val ths) ∧
     forallb finished ths = true ∧
     vcom m1' = [0; 1; 1; 3; 4] ∧ vcom m2' = [0; 1; 2; 3; 4]).
Proof.
  split; [|split].
  - split; [by_computation|]. split; [by_computation|]. split; [by_computation|].
    eexists _, _. split; [vm_compute; reflexivity|].
    split; [vm_compute; reflexivity|done].
  - split; [by_computation|]. split; [by_computation|].
    split; [unfold buffers_ok; simpl; lia|].
    split; [by_computation|]. split; [by_computation|].
    eexists _, _. split; [vm_compute; reflexivity|].
    split; [vm_compute; reflexivity|done].
  - destruct bfs_skips_a_piece
      as (Hok & Hsym & Hcom & H1 & H2 & _ & m2' & ths & Hrun & Hfin & Hvc).
    split; [exact Hok|]. split; [exact Hsym|]. split; [exact Hcom|].
    split; [exact H1|]. split; [exact H2|].
    eexists _, m2', ths. split; [vm_compute; reflexivity|].
    split; [exact Hrun|]. split; [exact Hfin|]. split; [reflexivity|exact Hvc].
Qed.

(** C3 (amended): on an undirected graph, and for the label propagation
    without pruning on every graph (edges join vertices of the graph, vdom
    and the buffers cover the span, community ids are below the span for the
    breadth-first splitter), when the iterations of a round of the label
    propagation run one at a time, in any order, and the threads of the
    traversing splitters run one after the other in the order of their
    numbers: running a splitter again with its own output as community
    assignment gives every id of the span the label it had. *)
Theorem split_idempotent s x vdom fuel m m0 :
  graph_ok x → undirected_or_plain x s → vdom_ok x vdom →
  buffers_ok x s m → splitter_ok x vdom s → span x * span x < fuel →
  buffers_ok x s m0 →
  ∃ m1 m2,
    split s x vdom fuel m = (m1, Val tt) ∧
    split s x (vcom m1) fuel m0 = (m2, Val tt) ∧
    ∀ u, u < span x → vcom m2 !! u = vcom m1 !! u.
Proof.
  intros Hok Hcase Hdom Hbuf Hs Hfuel Hbuf0.
  destruct (split_run s x vdom fuel m Hok Hdom Hbuf Hs Hfuel)
    as (m1 & Hrun1 & Hlen1 & _ & Habs1 & Hmin1).
  specialize (Hmin1 Hcase).
  assert (span x ≤ length (vcom m1)) as Hvc1 by (destruct Hbuf; lia).
  assert (∀ w, present x w → ∃ c, vcom m1 !! w = Some c ∧ min_rep x vdom w c) as HL.
  { intros w Hw. exists (lab m1 w). split; [|by apply Hmin1].
    apply lab_lookup. destruct Hw. lia. }
  assert (splitter_ok x (vcom m1) s) as Hs'.
  { destruct s as [P sched|T|T]; simpl in *; try done.
    destruct Hs as [HT _]. split; [done|]. intros u Hu.
    destruct (Hmin1 u Hu) as [Hr _].
    by destruct (reach_present x vdom u _ Hok Hu Hr). }
  destruct (split_run s x (vcom m1) fuel m0 Hok Hvc1 Hbuf0 Hs' Hfuel)
    as (m2 & Hrun2 & Hlen2 & _ & Habs2 & Hmin2).
  specialize (Hmin2 Hcase).
  exists m1, m2. split_and!; try done. intros u Hu.
  rewrite !lab_lookup by (destruct Hbuf0; lia). f_equal.
  destruct (decide (present x u)) as [Hp|Hp].
  - apply (min_rep_unique x vdom u); [|by apply Hmin1].
    apply (relabel_min_rep x vdom Hok (vcom m1)); [done|done|by apply Hmin2].
  - rewrite Habs1, Habs2; done.
Qed.

Lemma split_idempotent_witness :
  ∃ m1 m2,
    split (Dfs 2) scenario scenario_vdom 37 (mem0 6) = (m1, Val tt) ∧
    split (Dfs 2) scenario (vcom m1) 37 (mem0 6) = (m2, Val tt) ∧
    ∀ u, u < span scenario → vcom m2 !! u = vcom m1 !! u.
Proof.
  apply split_idempotent.
  - by_computation.
  - left. by_computation.
  - unfold vdom_ok. simpl. lia.
  - unfold buffers_ok. simpl. lia.
  - simpl. lia.
  - simpl. lia.
  - unfold buffers_ok. simpl. lia.
Defined.

(** C3 as stated fails in two ways.  For the pruned label propagation on
    the directed graph [chain], with all vertices in one community, the
    first run labels vertex 3 with 1 and the run on that output labels it
    with 3.  For the breadth-first splitter on the undirected edge 0 - 1 the
    label of a piece is the vertex at which a thread first claims it: when
    thread 1 of two, which starts at vertex 1, runs first, both vertices get
    the label 1; the run on that output in which thread 0 runs first gives
    both the label 0. *)
Lemma idempotence_fails :
  (graph_ok chain ∧
   ∃ m1 m2,
     split (Lpa true (seq_sched chain)) chain [0; 0; 0; 0; 0] 26 (mem0 5)
       = (m1, Val tt) ∧
     split (Lpa true (seq_sched chain)) chain (vcom m1) 26 (mem0 5)
       = (m2, Val tt) ∧
     vcom m1 = [0; 1; 0; 1; 0] ∧ vcom m2 = [0; 1; 0; 3; 0]) ∧
  (graph_ok link ∧ symmetric link ∧ com_in_span link [0; 0] ∧
   ∃ m1 ths m2,
     bfs_interleaved link [0; 0] 5 2 [1; 1; 1; 0; 0] (mem0 2) = (m1, Val ths) ∧
     forallb finished ths = true ∧
     split (Bfs 2) link (vcom m1) 5 (mem0 2) = (m2, Val tt) ∧
     vcom m1 = [1; 1] ∧ vcom m2 = [0; 0]).
Proof.
  split.
  - split; [by_computation|].
    eexists _, _. split; [vm_compute; reflexivity|].
    split; [vm_compute; reflexivity|]. split; reflexivity.
  - split; [by_computation|]. split; [by_computation|]. split; [by_computation|].
    eexists _, _, _. split; [vm_compute; reflexivity|]. split; [reflexivity|].
    split; [vm_compute; reflexivity|]. split; reflexivity.
Qed.

(** * The labels of the label propagation *)

(** C4 (amended): on a graph whose edges join vertices of the graph, the
    label propagation completes and gives every vertex the smallest id
    reached from it by paths inside its community: without pruning on every
    such graph, also when the blocks of the iterations of a round overlap;
    with pruning on undirected graphs, when the iterations of a round run
    one at a time, in any order. *)
Theorem lpa_minimal_representative x vdom fuel m :
  graph_ok x → vdom_ok x vdom → span x * span x < fuel →
  (∀ PRUNE sched,
     buffers_ok x (Lpa PRUNE sched) m → sched_ok x sched →
     PRUNE = false ∨ symmetric x →
     ∃ m', splitDisconnectedCommunitiesLpaOmpW x vdom PRUNE sched fuel m
             = (m', Val tt) ∧
           minimal x vdom m') ∧
  (∀ sched,
     span x ≤ length (vcom m) → (∀ r, round_ok x (sched r)) →
     ∃ m', lpa_overlapped x vdom false sched fuel m = (m', Val tt) ∧
           minimal x vdom m').
Proof.
  intros Hok Hdom Hfuel. split.
  - intros PRUNE sched Hbuf Hs Hcase.
    destruct (split_run (Lpa PRUNE sched) x vdom fuel m Hok Hdom Hbuf Hs Hfuel)
      as (m' & Hrun & Hlen & _ & _ & Hmin).
    exists m'. split; [done|]. apply minimal_intro; [destruct Hbuf; lia|].
    apply Hmin. destruct Hcase as [->|Hsym]; [right; eauto|by left].
  - intros sched Hlen Hr.
    destruct (lpa_overlapped_ends x vdom false Hok Hdom sched fuel m)
      as (m1 & m' & _ & Hrun & Hlen' & _ & Hmin); [|by intros r; apply Hr|done|].
    { split; [done|]. intros ?. congruence. }
    exists m'. split; [done|]. apply minimal_intro; [lia|]. by apply Hmin.
Qed.

Lemma lpa_minimal_representative_witness :
  (∃ m', splitDisconnectedCommunitiesLpaOmpW chain [0; 0; 0; 0; 0] false
           (seq_sched chain) 26 (mem0 5) = (m', Val tt) ∧
         minimal chain [0; 0; 0; 0; 0] m') ∧
  (∃ m', lpa_overlapped chain [0; 0; 0; 0; 0] false (λ _, scans_first 5) 26
           (mem0 5) = (m', Val tt) ∧
         minimal chain [0; 0; 0; 0; 0] m').
Proof.
  destruct (lpa_minimal_representative chain [0; 0; 0; 0; 0] 26 (mem0 5))
    as (Hseq & Hover).
  - by_computation.
  - unfold vdom_ok. simpl. lia.
  - simpl. lia.
  - split.
    + apply Hseq.
      * unfold buffers_ok. simpl. split; [lia|congruence].
      * apply seq_sched_ok.
      * by left.
    + apply Hover.
      * simpl. lia.
      * intros _. by_computation.
Defined.

(** C4 as stated fails with pruning in two ways.  On the directed graph
    [chain] vertex 3 ends with the label 1 although the path
    3 -> 2 -> 4 -> 0 reaches 0.  On the undirected path 0 - 1 - 2, when the
    iteration for 2 scans before, and updates after, the iteration for 1,
    vertex 2 ends with the label 1 although it reaches 0. *)
Lemma pruned_lpa_not_minimal :
  (graph_ok chain ∧ present chain 3 ∧
   ∃ m', splitDisconnectedCommunitiesLpaOmpW chain [0; 0; 0; 0; 0] true
           (seq_sched chain) 26 (mem0 5) = (m', Val tt) ∧
         vcom m' !! 3 = Some 1 ∧ reach chain [0; 0; 0; 0; 0] 3 0 ∧
         ¬ min_rep chain [0; 0; 0; 0; 0] 3 1) ∧
  (graph_ok path3 ∧ symmetric path3 ∧ present path3 2 ∧
   (∀ r, round_ok path3 (late_update r)) ∧
   ∃ m', lpa_overlapped path3 [0; 0; 0] true late_update 10 (mem0 3)
           = (m', Val tt) ∧
         vcom m' !! 2 = Some 1 ∧ reach path3 [0; 0; 0] 2 0 ∧
         ¬ min_rep path3 [0; 0; 0] 2 1).
Proof.
  split.
  - split; [by_computation|]. split; [by_computation|].
    assert (reach chain [0; 0; 0; 0; 0] 3 0) as Hr.
    { apply (rtc_l _ 3 2 0).
      { split; [by_computation|]. split; [simpl; left|done]. }
      apply (rtc_l _ 2 4 0).
      { split; [by_computation|]. split; [simpl; right; left|done]. }
      apply rtc_once. split; [by_computation|]. split; [simpl; left|done]. }
    eexists. split; [vm_compute; reflexivity|]. split; [done|]. split; [done|].
    intros [_ Hmin]. specialize (Hmin 0 Hr). lia.
  - destruct pruned_lpa_loses_a_mark as (Hok & Hsym & Hes & Hr & m' & Hrun & Hvc).
    split; [exact Hok|]. split; [exact Hsym|]. split; [by_computation|].
    split; [exact Hes|].
    exists m'. split; [exact Hrun|]. split; [by rewrite Hvc|]. split; [exact Hr|].
    intros [_ Hmin]. specialize (Hmin 0 Hr). lia.
Qed.

(** * Monotonic decrease and termination of the label propagation *)

(** [c'] is the minimum of the label of [u] and the labels of its
    neighbours in the same community. *)
Definition nbr_min (x : graph) (vdom : list nat) (m : mem) (u c' : nat) : Prop :=
  c' ≤ lab m u ∧
  (∀ v, v ∈ edges x u → com vdom v = com vdom u → c' ≤ lab m v) ∧
  (c' = lab m u ∨ ∃ v, v ∈ edges x u ∧ com vdom v = com vdom u ∧ c' = lab m v).

Lemma minlab_nbr_min x vdom m u :
  nbr_min x vdom m u (minlab vdom m (com vdom u) (edges x u) (lab m u)).
Proof.
  split_and!.
  - apply minlab_le.
  - intros v Hv Hd. by apply minlab_lower.
  - apply minlab_attained.
Qed.

Lemma lpa_rounds_mono x vdom PRUNE sched k r m :
  graph_ok x → vdom_ok x vdom → lpa_sized x PRUNE m → sched_in_span x sched →
  ∃ ns m', lpa_rounds x vdom PRUNE sched k r m = (m', Val ns) ∧
           ∀ w, lab m' w ≤ lab m w.
Proof.
  intros Hok Hdom Hm Hs. revert r m Hm. induction k as [|k IH]; intros r m Hm.
  - by exists [], m.
  - destruct (lpa_round_spec x vdom Hok Hdom PRUNE (sched r) m Hm (Hs r))
      as (ndel & m1 & Hrun & Hm1 & _ & (_ & Hle & _) & _).
    destruct (IH (S r) m1 Hm1) as (ns & m' & Hrun' & Hle').
    exists (ndel :: ns), m'. split.
    + simpl. unfold bind. by rewrite Hrun, Hrun'.
    + intros w. etrans; [apply Hle'|apply Hle].
Qed.

(** C5: from any memory whose buffers cover the span, a visit changes at
    most the label of its vertex, and then to a strictly smaller value,
    the minimum of its label and the labels of its same-community
    neighbours; hence no label increases over a round, in any order of its
    iterations, or over any number of rounds; nor does a label increase
    over a round whose iterations overlap. *)
Theorem lpa_labels_never_increase x vdom PRUNE m :
  graph_ok x → vdom_ok x vdom → lpa_sized x PRUNE m →
  (∀ u, u < span x →
     ∃ b m', lpa_visit x vdom PRUNE u m = (m', Val b) ∧
             (∀ w, w ≠ u → lab m' w = lab m w) ∧
             (lab m' u = lab m u ∨
              lab m' u < lab m u ∧ nbr_min x vdom m u (lab m' u))) ∧
  (∀ us, (∀ u, u ∈ us → u < span x) →
     ∃ ndel m', lpa_round x vdom PRUNE us m = (m', Val ndel) ∧
                ∀ w, lab m' w ≤ lab m w) ∧
  (∀ sched k r, sched_in_span x sched →
     ∃ ns m', lpa_rounds x vdom PRUNE sched k r m = (m', Val ns) ∧
              ∀ w, lab m' w ≤ lab m w) ∧
  (∀ es, events_ok x [] es →
     ∃ ndel m', lpa_round_events x vdom PRUNE es m = (m', Val ndel) ∧
                ∀ w, lab m' w ≤ lab m w).
Proof.
  intros Hok Hdom Hm. split_and!.
  - intros u Hu.
    destruct (lpa_visit_spec x vdom Hok Hdom PRUNE m u Hm Hu) as (b & m' & Hrun & Hpost).
    exists b, m'. split; [done|]. destruct b.
    + pose proof (lpa_changed_lab x vdom PRUNE m m' u) as Hlab.
      split.
      * intros w Hw. rewrite (Hlab w Hm Hu Hpost). by rewrite decide_False.
      * right. rewrite (Hlab u Hm Hu Hpost), decide_True by done.
        split; [by destruct Hpost as (_ & _ & ? & _)|apply minlab_nbr_min].
    + destruct Hpost as [-> _]. split; [done|by left].
  - intros us Hus.
    destruct (lpa_round_spec x vdom Hok Hdom PRUNE us m Hm Hus)
      as (ndel & m' & Hrun & _ & _ & (_ & Hle & _) & _).
    by exists ndel, m'.
  - intros sched k r Hs. by apply lpa_rounds_mono.
  - intros es Hes.
    destruct (lpa_round_events_spec x vdom PRUNE Hok Hdom es m Hm Hes)
      as (ndel & m' & Hrun & _ & (_ & Hle & _) & _).
    by exists ndel, m'.
Qed.

Lemma lpa_labels_never_increase_witness :
  let m := Mem [0; 1; 2; 3; 4; 5] (replicate 6 true) [] [] in
  (∀ u, u < span scenario →
     ∃ b m', lpa_visit scenario scenario_vdom true u m = (m', Val b) ∧
             (∀ w, w ≠ u → lab m' w = lab m w) ∧
             (lab m' u = lab m u ∨
              lab m' u < lab m u ∧ nbr_min scenario scenario_vdom m u (lab m' u))) ∧
  (∀ us, (∀ u, u ∈ us → u < span scenario) →
     ∃ ndel m', lpa_round scenario scenario_vdom true us m = (m', Val ndel) ∧
                ∀ w, lab m' w ≤ lab m w) ∧
  (∀ sched k r, sched_in_span scenario sched →
     ∃ ns m', lpa_rounds scenario scenario_vdom true sched k r m = (m', Val ns) ∧
              ∀ w, lab m' w ≤ lab m w) ∧
  (∀ es, events_ok scenario [] es →
     ∃ ndel m', lpa_round_events scenario scenario_vdom true es m = (m', Val ndel) ∧
                ∀ w, lab m' w ≤ lab m w).
Proof.
  apply lpa_labels_never_increase.
  - by_computation.
  - unfold vdom_ok. simpl. lia.
  - unfold lpa_sized. simpl. lia.
Defined.

(** C6: the label propagation terminates.  When the iterations of a round
    run one at a time, after the first loop it runs [k+1] rounds for some
    [k] of at most span * span; the first [k] rounds change labels, the
    last one changes none, and the run ends there: with more than [k] units
    of fuel it returns the memory of that round, with [k] or less it is
    still inside the loop.  When the iterations of a round overlap, the run
    ends as well, with span * span + 1 units of fuel. *)
Theorem lpa_terminates x vdom PRUNE m :
  graph_ok x → vdom_ok x vdom → lpa_sized x PRUNE m →
  (∀ sched, sched_ok x sched →
     ∃ k ns m1 m',
       k ≤ span x * span x ∧
       lpa_init x PRUNE m = (m1, Val tt) ∧
       lpa_rounds x vdom PRUNE sched (S k) 0 m1 = (m', Val (ns ++ [0])) ∧
       length ns = k ∧ Forall (λ n, n ≠ 0) ns ∧
       (∀ fuel, k < fuel →
          splitDisconnectedCommunitiesLpaOmpW x vdom PRUNE sched fuel m
          = (m', Val tt)) ∧
       (∀ fuel, fuel ≤ k → ∃ m2,
          splitDisconnectedCommunitiesLpaOmpW x vdom PRUNE sched fuel m
          = (m2, Err OutOfFuel))) ∧
  (∀ sched fuel, (∀ r, events_ok x [] (sched r)) → span x * span x < fuel →
     ∃ m', lpa_overlapped x vdom PRUNE sched fuel m = (m', Val tt)).
Proof.
  intros Hok Hdom Hm. split.
  - intros sched Hs.
    destruct (lpa_run x vdom Hok Hdom PRUNE sched m Hm Hs)
      as (k & ns & m1 & m' & Hinit & Hk & Hlen & Hns & Hrounds & Hrun & Hstuck & _).
    exists k, ns, m1, m'. by split_and!.
  - intros sched fuel Hs Hfuel.
    destruct (lpa_overlapped_ends x vdom PRUNE Hok Hdom sched fuel m Hm Hs Hfuel)
      as (m1 & m' & _ & Hrun & _).
    by exists m'.
Qed.

Lemma lpa_terminates_witness :
  (∃ k ns m1 m',
     k ≤ span scenario * span scenario ∧
     lpa_init scenario false (mem0 6) = (m1, Val tt) ∧
     lpa_rounds scenario scenario_vdom false (seq_sched scenario) (S k) 0 m1
       = (m', Val (ns ++ [0])) ∧
     length ns = k ∧ Forall (λ n, n ≠ 0) ns ∧
     (∀ fuel, k < fuel →
        splitDisconnectedCommunitiesLpaOmpW scenario scenario_vdom false
          (seq_sched scenario) fuel (mem0 6) = (m', Val tt)) ∧
     (∀ fuel, fuel ≤ k → ∃ m2,
        splitDisconnectedCommunitiesLpaOmpW scenario scenario_vdom false
          (seq_sched scenario) fuel (mem0 6) = (m2, Err OutOfFuel))) ∧
  (∃ m', lpa_overlapped scenario scenario_vdom false (λ _, scans_first 6) 37
           (mem0 6) = (m', Val tt)).
Proof.
  destruct (lpa_terminates scenario scenario_vdom false (mem0 6)) as [Hseq Hover].
  - by_computation.
  - unfold vdom_ok. simpl. lia.
  - unfold lpa_sized. simpl. split; [lia|congruence].
  - split.
    + apply Hseq. apply seq_sched_ok.
    + apply Hover; [|simpl; lia]. intros _. by_computation.
Defined.

(** * The affected flags of the pruned label propagation *)

(** C8 (amended): the rescan of a flagged vertex [u] that leaves its label
    unchanged leaves all flags unchanged, so [vaff[u]] stays set; a rescan
    that lowers the label clears [vaff[u]] and then marks the neighbours of
    the same community, so afterwards [vaff[u]] is set exactly when [u] is
    among its own edges. *)
Theorem lpa_flag_after_rescan x vdom m u :
  graph_ok x → vdom_ok x vdom → lpa_sized x true m →
  present x u → vaff m !! u = Some true →
  ∃ b m', lpa_visit x vdom true u m = (m', Val b) ∧
          (b = true ↔ lab m' u ≠ lab m u) ∧
          (b = false → m' = m) ∧
          (b = true → vaff m' !! u = Some (bool_decide (u ∈ edges x u))).
Proof.
  intros Hok Hdom Hm Hu Hfl. pose proof Hu as [Hus _].
  destruct (lpa_visit_spec x vdom Hok Hdom true m u Hm Hus) as (b & m' & Hrun & Hpost).
  exists b, m'. split; [done|]. destruct b.
  - pose proof (lpa_changed_lab x vdom true m m' u u Hm Hus Hpost) as Hlab.
    rewrite decide_True in Hlab by done.
    destruct Hpost as (_ & _ & Hlt & _ & _ & _ & Hlen & Haff).
    split_and!; try done.
    + split; [lia|done].
    + intros _.
      assert (u < length (vaff m')) as Hlu.
      { rewrite Hlen. destruct Hm as [_ Hm]. specialize (Hm eq_refl). lia. }
      rewrite (list_lookup_lookup_total_lt _ _ Hlu), Haff, decide_True by done.
      simpl. f_equal. apply bool_decide_ext. split; [by intros [? _]|done].
  - destruct Hpost as [-> _]. split_and!; try done.
Qed.

Lemma lpa_flag_after_rescan_witness :
  let m := Mem [0; 1; 2; 3; 4; 5] (replicate 6 true) [] [] in
  ∃ b m', lpa_visit scenario scenario_vdom true 1 m = (m', Val b) ∧
          (b = true ↔ lab m' 1 ≠ lab m 1) ∧
          (b = false → m' = m) ∧
          (b = true → vaff m' !! 1 = Some (bool_decide (1 ∈ edges scenario 1))).
Proof.
  apply lpa_flag_after_rescan.
  - by_computation.
  - unfold vdom_ok. simpl. lia.
  - unfold lpa_sized. simpl. lia.
  - by_computation.
  - reflexivity.
Defined.

(** One isolated vertex. *)
Definition single : graph := graph_of 1 [] [[]].

(** C8 as stated fails on one isolated vertex: the first round rescans the
    flagged vertex 0, which has no neighbour that could mark it again, and
    its flag is still set after the round. *)
Lemma flag_survives_rescan :
  present single 0 ∧ edges single 0 = [] ∧
  ∃ m1 m2 ndel,
    lpa_init single true (mem0 1) = (m1, Val tt) ∧ vaff m1 !! 0 = Some true ∧
    lpa_round single [0] true [0] m1 = (m2, Val ndel) ∧
    vaff m2 !! 0 = Some true.
Proof.
  split; [by_computation|]. split; [done|].
  eexists _, _, _. split; [vm_compute; reflexivity|]. split; [done|].
  split; [vm_compute; reflexivity|done].
Qed.

(** * Ids outside the graph *)

(** The graphs [x] and [x'] have the same vertices, with the same edges. *)
Definition same_vertices (x x' : graph) : Prop :=
  span x' = span x ∧
  (∀ u, hasVertex x' u = hasVertex x u) ∧
  (∀ u, present x u → edges x' u = edges x u).

(** [vdom] and [vdom'] give the vertices of [x] the same communities. *)
Definition same_communities (x : graph) (vdom vdom' : list nat) : Prop :=
  ∀ u, present x u → vdom' !! u = vdom !! u.

(** The graph restricted to its vertices: without the edges stored for ids
    outside it and without edges that lead outside it. *)
Definition restrict (x : graph) : graph :=
  Graph (span x) (hasVertex x)
        (λ u, if bool_decide (u < span x) && hasVertex x u
              then filter (present x) (edges x u) else []).

Lemma filter_all {A} (P : A → Prop) `{∀ a, Decision (P a)} (l : list A) :
  (∀ a, a ∈ l → P a) → filter P l = l.
Proof.
  induction l as [|a l IH]; intros Hl; [done|].
  rewrite filter_cons_True by (apply Hl; left). f_equal.
  apply IH. intros b Hb. apply Hl. by right.
Qed.

Lemma restrict_same x : graph_ok x → same_vertices x (restrict x).
Proof.
  intros Hok. split_and!; try done. intros u Hpu. pose proof Hpu as [Hu Hx].
  simpl. rewrite bool_decide_eq_true_2, Hx by done. simpl.
  apply filter_all. intros v Hv. by apply (Hok u v).
Qed.

Section Agree.
Variables (x x' : graph) (vdom vdom' : list nat).
Hypothesis Hok : graph_ok x.
Hypothesis Hsame : same_vertices x x'.
Hypothesis Hcom : same_communities x vdom vdom'.

Lemma get_vdom_agree u m :
  present x u → get_vdom vdom' u m = get_vdom vdom u m.
Proof. intros Hu. unfold get_vdom, rd. by rewrite Hcom. Qed.

Lemma edges_agree u : present x u → edges x' u = edges x u.
Proof. apply Hsame. Qed.

Lemma edges_present u v : present x u → v ∈ edges x u → present x v.
Proof. apply Hok. Qed.

(** ** Label propagation *)

Lemma lpa_scan_agree d c v m :
  present x v → lpa_scan vdom' d c v m = lpa_scan vdom d c v m.
Proof. intros Hv. unfold lpa_scan. apply bind_ext; [by apply get_vdom_agree|done]. Qed.

Lemma lpa_mark_agree d v m :
  present x v → lpa_mark vdom' d v m = lpa_mark vdom d v m.
Proof. intros Hv. unfold lpa_mark. apply bind_ext; [by apply get_vdom_agree|done]. Qed.

Lemma lpa_visit_agree PRUNE u m :
  u < span x → lpa_visit x' vdom' PRUNE u m = lpa_visit x vdom PRUNE u m.
Proof.
  intros Hu. unfold lpa_visit. destruct Hsame as (_ & Hhas & _). rewrite Hhas.
  destruct (hasVertex x u) eqn:Hx; simpl; [|done].
  assert (present x u) as Hpu by done.
  rewrite (edges_agree u Hpu).
  apply bind_ext; [done|]. intros a m1. destruct (negb a); [done|].
  apply bind_ext; [by apply get_vdom_agree|]. intros d m2.
  apply bind_ext; [done|]. intros c0 m3.
  apply bind_ext.
  { apply foldM_ext. intros c v m4 Hv. apply lpa_scan_agree. by eapply edges_present. }
  intros c m4. apply bind_ext; [done|]. intros cu m5.
  case_decide; [done|]. apply bind_ext; [done|]. intros _ m6.
  destruct (negb PRUNE); [done|]. apply bind_ext; [done|]. intros _ m7.
  apply bind_ext; [|done].
  apply forEach_ext. intros v m8 Hv. apply lpa_mark_agree. by eapply edges_present.
Qed.

Lemma lpa_round_agree PRUNE (us : list nat) m :
  (∀ u, u ∈ us → u < span x) →
  lpa_round x' vdom' PRUNE us m = lpa_round x vdom PRUNE us m.
Proof.
  intros Hus. unfold lpa_round. apply foldM_ext. intros n u m1 Hu.
  apply bind_ext; [|done]. apply lpa_visit_agree. by apply Hus.
Qed.

Lemma lpa_loop_agree PRUNE sched fuel r m :
  sched_in_span x sched →
  lpa_loop x' vdom' PRUNE sched fuel r m = lpa_loop x vdom PRUNE sched fuel r m.
Proof.
  intros Hs. revert r m. induction fuel as [|fuel IH]; intros r m; simpl; [done|].
  apply bind_ext; [apply lpa_round_agree, Hs|]. intros ndel m1.
  case_decide; [done|]. apply IH.
Qed.

Lemma lpa_agree PRUNE sched fuel m :
  sched_in_span x sched →
  splitDisconnectedCommunitiesLpaOmpW x' vdom' PRUNE sched fuel m
  = splitDisconnectedCommunitiesLpaOmpW x vdom PRUNE sched fuel m.
Proof.
  intros Hs. unfold splitDisconnectedCommunitiesLpaOmpW, lpa_init.
  destruct Hsame as (-> & _). apply bind_ext; [done|]. intros _ m1.
  by apply lpa_loop_agree.
Qed.

(** ** The depth-first splitter *)

Lemma split_ft_agree d v m :
  present x v → split_ft vdom' d v m = split_ft vdom d v m.
Proof. intros Hv. unfold split_ft. apply bind_ext; [by apply get_vdom_agree|done]. Qed.

Lemma dfs_traversal_agree fuel d fp u m :
  present x u →
  dfsVisitedForEachU x' fuel (split_ft vdom' d) fp u m
  = dfsVisitedForEachU x fuel (split_ft vdom d) fp u m.
Proof.
  revert u m. induction fuel as [|fuel IH]; intros u m Hu; simpl; [done|].
  apply bind_ext; [done|]. intros b m1. destruct b; [done|].
  apply bind_ext; [by apply split_ft_agree|]. intros t m2.
  destruct (negb t); [done|]. apply bind_ext; [done|]. intros _ m3.
  apply bind_ext; [done|]. intros _ m4. rewrite (edges_agree u Hu).
  apply forEach_ext. intros v m5 Hv. apply IH. by eapply edges_present.
Qed.

Lemma dfs_visit_agree fuel t T u m :
  u < span x → dfs_visit x' vdom' fuel t T u m = dfs_visit x vdom fuel t T u m.
Proof.
  intros Hu. unfold dfs_visit. destruct Hsame as (_ & Hhas & _). rewrite Hhas.
  destruct (hasVertex x u) eqn:Hx; simpl; [|done].
  assert (present x u) as Hpu by done.
  apply bind_ext; [by apply get_vdom_agree|]. intros d m1.
  apply bind_ext; [done|]. intros c m2.
  destruct (negb (belongsOmp d t T)); [done|].
  apply bind_ext; [done|]. intros b m3. destruct b; [done|].
  by apply dfs_traversal_agree.
Qed.

Lemma dfs_agree fuel T m :
  splitDisconnectedCommunitiesDfsOmpW x' vdom' fuel T m
  = splitDisconnectedCommunitiesDfsOmpW x vdom fuel T m.
Proof.
  unfold splitDisconnectedCommunitiesDfsOmpW, dfs_init, dfs_thread.
  destruct Hsame as (Hspan & _). rewrite Hspan.
  apply bind_ext; [done|]. intros _ m1.
  apply forEach_ext. intros t m2 _.
  apply forEach_ext. intros u m3 Hu%elem_of_seq. apply dfs_visit_agree. lia.
Qed.

(** ** The breadth-first splitter *)

Lemma bfs_discover_agree d fp dep vs v m :
  present x v →
  bfs_discover (λ v _, split_ft vdom' d v) fp dep vs v m
  = bfs_discover (λ v _, split_ft vdom d v) fp dep vs v m.
Proof.
  intros Hv. unfold bfs_discover. apply bind_ext; [done|]. intros b m1.
  destruct b; [done|]. apply bind_ext; [by apply split_ft_agree|done].
Qed.

(** The frontier grows by examined candidates only. *)
Lemma bfs_discover_frontier ft fp dep vs v m m' vs' :
  bfs_discover ft fp dep vs v m = (m', Val vs') → vs' = vs ∨ vs' = vs ++ [v].
Proof.
  unfold bfs_discover. intros ([] & m1 & _ & H)%bind_inv.
  { injection H as _ <-. by left. }
  apply bind_inv in H as ([] & m2 & _ & H); simpl in H.
  - apply bind_inv in H as (_ & m3 & _ & H).
    apply bind_inv in H as (_ & m4 & _ & H). injection H as _ <-. by right.
  - injection H as _ <-. by left.
Qed.

Lemma bfs_inner_frontier ft fp dep l vs m m' vs' :
  foldM (bfs_discover ft fp dep) l vs m = (m', Val vs') →
  ∀ w, w ∈ vs' → w ∈ vs ∨ w ∈ l.
Proof.
  revert vs m. induction l as [|v l IH]; intros vs m H w Hw; simpl in H.
  - injection H as _ <-. by left.
  - apply bind_inv in H as (vs1 & m1 & H1 & H).
    destruct (IH vs1 m1 H w Hw) as [Hw1|Hw1]; [|right; by right].
    apply bfs_discover_frontier in H1 as [-> | ->]; [by left|].
    apply elem_of_app in Hw1 as [? | ->%list_elem_of_singleton]; [by left|].
    right. left.
Qed.

Lemma bfs_expand_frontier ft fp dep (us : list nat) vs m m' vs' :
  foldM (λ vs u, foldM (bfs_discover ft fp dep) (edges x u) vs) us vs m
  = (m', Val vs') →
  ∀ w, w ∈ vs' → w ∈ vs ∨ ∃ u, u ∈ us ∧ w ∈ edges x u.
Proof.
  revert vs m. induction us as [|u us IH]; intros vs m H w Hw; simpl in H.
  - injection H as _ <-. by left.
  - apply bind_inv in H as (vs1 & m1 & H1 & H).
    destruct (IH vs1 m1 H w Hw) as [Hw1|(u' & Hu' & Hw1)].
    + destruct (bfs_inner_frontier _ _ _ _ _ _ _ _ H1 w Hw1) as [?|?]; [by left|].
      right. exists u. split; [left|done].
    + right. exists u'. split; [by right|done].
Qed.

Lemma bfs_expand_agree d fp dep (us : list nat) m :
  (∀ u, u ∈ us → present x u) →
  bfs_expand x' (λ v _, split_ft vdom' d v) fp dep us m
  = bfs_expand x (λ v _, split_ft vdom d v) fp dep us m.
Proof.
  intros Hus. unfold bfs_expand. apply foldM_ext. intros vs u m1 Hu.
  rewrite (edges_agree u (Hus u Hu)). apply foldM_ext. intros vs1 v m2 Hv.
  apply bfs_discover_agree. eapply edges_present; [|done]. by apply Hus.
Qed.

Lemma bfs_levels_agree fuel d fp dep (us : list nat) m :
  (∀ u, u ∈ us → present x u) →
  bfs_levels x' fuel (λ v _, split_ft vdom' d v) fp dep us m
  = bfs_levels x fuel (λ v _, split_ft vdom d v) fp dep us m.
Proof.
  revert dep us m. induction fuel as [|fuel IH]; intros dep us m Hus;
    destruct us as [|u0 us0] eqn:Eus; simpl; try done.
  rewrite <- Eus in *.
  apply bind_ext_run; [by apply bfs_expand_agree|]. intros vs m1 Hrun.
  apply IH. intros w Hw.
  destruct (bfs_expand_frontier _ _ _ _ _ _ _ _ Hrun w Hw) as [Hn|(u & Hu & Hwu)].
  - by apply elem_of_nil in Hn.
  - eapply edges_present; [|done]. by apply Hus.
Qed.

Lemma fl_agree fuel u m :
  u < span x → fl x' vdom' fuel u m = fl x vdom fuel u m.
Proof.
  intros Hu. unfold fl. destruct Hsame as (_ & Hhas & _). rewrite Hhas.
  destruct (hasVertex x u) eqn:Hx; simpl; [|done].
  assert (present x u) as Hpu by done.
  apply bind_ext; [done|]. intros b m1. destruct b; [done|].
  apply bind_ext; [by apply get_vdom_agree|]. intros d m2.
  apply bind_ext; [done|]. intros c m3.
  apply bind_ext; [done|]. intros busy m4. destruct busy; [done|].
  apply bind_ext; [done|]. intros old m5. destruct old; [done|].
  apply bind_ext; [|done].
  unfold bfsVisitedForEachU. apply bind_ext; [done|]. intros _ m6.
  apply bfs_levels_agree. by intros w ->%list_elem_of_singleton.
Qed.

Lemma bfs_agree fuel T m :
  0 < T →
  splitDisconnectedCommunitiesBfsOmpW x' vdom' fuel T m
  = splitDisconnectedCommunitiesBfsOmpW x vdom fuel T m.
Proof.
  intros HT.
  unfold splitDisconnectedCommunitiesBfsOmpW, bfs_init, bfs_thread, bfs_offset.
  destruct Hsame as (Hspan & _). rewrite Hspan.
  apply bind_ext; [done|]. intros _ m1.
  apply forEach_ext. intros t m2 Ht%elem_of_seq.
  assert ((t * span x) `div` T ≤ span x) as Hub.
  { apply Nat.Div0.div_le_upper_bound. nia. }
  apply bind_ext.
  - apply forEach_ext. intros u m3 Hu%elem_of_seq. apply fl_agree. lia.
  - intros _ m3. apply forEach_ext. intros u m4 Hu%elem_of_seq.
    apply fl_agree. lia.
Qed.

Lemma split_agree s fuel m :
  splitter_ok x vdom s →
  split s x' vdom' fuel m = split s x vdom fuel m.
Proof.
  intros Hs. destruct s as [PRUNE sched|T|T]; simpl in *.
  - apply lpa_agree. by apply sched_ok_in_span.
  - apply dfs_agree.
  - apply bfs_agree. by destruct Hs.
Qed.
End Agree.


(** The scenario with the ids 6 and 7 outside the graph. *)
Definition scenario_holes : graph :=
  graph_of 8 [6; 7] [[1]; [0; 2]; [1]; [4]; [3]; []; [0; 7]; [3]].


(** The vertices 1 and 2, which both list the id 0 among their edges; the
    id 0 is outside the graph. *)
Definition dangling : graph := graph_of 3 [0] [[]; [0]; [0]].


(** * Buffers smaller than the span *)

(** The scratch vectors that the first loop writes are no shorter than the
    output vector. *)
Definition scratch_no_shorter (s : splitter) (m : mem) : Prop :=
  match s with
  | Lpa PRUNE _ => PRUNE = true → length (vcom m) ≤ length (vaff m)
  | Dfs _ => length (vcom m) ≤ length (vis m)
  | Bfs _ => length (vcom m) ≤ length (vis m) ∧ length (vcom m) ≤ length (cbsy m)
  end.

(** A first loop on an output vector of [n] entries, [n] inside the range of
    the loop: the entries below [n] are overwritten, then the write to entry
    [n] is out of bounds. *)
Lemma first_loop_overrun (rest : nat → M unit) (I : mem → Prop) n a k m :
  length (vcom m) = n → I m → a ≤ n < a + k →
  (∀ u m1, I m1 → length (vcom m1) = n → u < n →
     wp (rest u) (λ _ m2, I m2 ∧ vcom m2 = <[u:=u]> (vcom m1))
        (Mem (<[u:=u]> (vcom m1)) (vaff m1) (vis m1) (cbsy m1))) →
  ∃ m', forEach (seq a k) (λ u, set_vcom u u;;; rest u) m
        = (m', Err (OutOfBounds Bvcom n)) ∧
        length (vcom m') = n ∧
        (∀ u, a ≤ u < n → vcom m' !! u = Some u) ∧
        (∀ u, u < a → vcom m' !! u = vcom m !! u).
Proof.
  intros Hlen HI Han Hrest. revert a m Hlen HI Han.
  induction k as [|k IH]; intros a m Hlen HI Han; [lia|]. simpl.
  destruct (decide (a = n)) as [->|Hne].
  - exists m. split_and!; try done; [|intros; lia].
    unfold bind at 1. unfold bind at 1, set_vcom.
    rewrite decide_False by lia. done.
  - assert (a < n) as Ha by lia.
    destruct (Hrest a m HI Hlen Ha) as ([] & m2 & Hrun & HI2 & Hvc2).
    destruct (IH (S a) m2) as (m' & Hrun' & Hlen' & Hnew & Hold).
    { by rewrite Hvc2, length_insert. }
    { done. }
    { lia. }
    exists m'. split_and!; try done.
    + unfold bind at 1. unfold bind at 1, set_vcom.
      rewrite decide_True by lia. by rewrite Hrun.
    + intros u Hu. destruct (decide (u = a)) as [->|Hua].
      * rewrite Hold by lia. rewrite Hvc2. apply list_lookup_insert_eq. lia.
      * apply Hnew. lia.
    + intros u Hu. rewrite Hold by lia. rewrite Hvc2.
      apply list_lookup_insert_ne. lia.
Qed.

(** C7 (amended): no splitter compares sizes.  With an output vector vcom
    shorter than the span (and scratch vectors no shorter than vcom), each
    of the three splitters, on every graph, overwrites every entry of vcom
    with its index and then stops at the out-of-bounds write to
    [vcom[length vcom]]. *)
Theorem short_vcom_is_overrun s x vdom fuel m :
  length (vcom m) < span x → scratch_no_shorter s m →
  ∃ m', split s x vdom fuel m = (m', Err (OutOfBounds Bvcom (length (vcom m)))) ∧
        length (vcom m') = length (vcom m) ∧
        ∀ u, u < length (vcom m) → vcom m' !! u = Some u.
Proof.
  intros Hlen Hscr. set (n := length (vcom m)).
  assert (∀ (init rest : M unit) m',
            init m = (m', Err (OutOfBounds Bvcom n)) →
            bind init (λ _, rest) m = (m', Err (OutOfBounds Bvcom n))) as Hbind.
  { intros init rest m' H. unfold bind. by rewrite H. }
  destruct s as [PRUNE sched|T|T]; simpl in *.
  - destruct (first_loop_overrun
                (λ u, if PRUNE then set_vaff u true else ret tt)
                (λ m1, PRUNE = true → n ≤ length (vaff m1)) n 0 (span x) m)
      as (m' & Hrun & Hlen' & Hnew & _); try done; [lia| |].
    + intros u m1 HI Hl Hu. destruct PRUNE.
      * apply wp_set_vaff; [simpl; specialize (HI eq_refl); lia|].
        simpl. split; [|done]. intros _. rewrite length_insert. by apply HI.
      * by apply wp_ret.
    + exists m'. split_and!; [by apply Hbind|done|].
      intros u Hu. apply Hnew. lia.
  - destruct (first_loop_overrun (λ u, set_vis u false)
                (λ m1, n ≤ length (vis m1)) n 0 (span x) m)
      as (m' & Hrun & Hlen' & Hnew & _); try done; [lia| |].
    + intros u m1 HI Hl Hu. apply wp_set_vis; [simpl; lia|].
      simpl. split; [|done]. by rewrite length_insert.
    + exists m'. split_and!; [by apply Hbind|done|].
      intros u Hu. apply Hnew. lia.
  - destruct (first_loop_overrun (λ u, set_cbsy u false;;; set_vis u false)
                (λ m1, n ≤ length (vis m1) ∧ n ≤ length (cbsy m1)) n 0 (span x) m)
      as (m' & Hrun & Hlen' & Hnew & _); try done; [lia| |].
    + intros u m1 [HI1 HI2] Hl Hu. apply wp_bind.
      apply wp_set_cbsy; [simpl; lia|]. apply wp_set_vis; [simpl; lia|].
      simpl. split; [|done]. by rewrite !length_insert.
    + exists m'. split_and!; [by apply Hbind|done|].
      intros u Hu. apply Hnew. lia.
Qed.

Lemma short_vcom_is_overrun_witness :
  let m := Mem [9; 9; 9] [] (replicate 6 true) (replicate 6 true) in
  ∃ m', split (Bfs 2) scenario scenario_vdom 37 m
        = (m', Err (OutOfBounds Bvcom (length (vcom m)))) ∧
        length (vcom m') = length (vcom m) ∧
        ∀ u, u < length (vcom m) → vcom m' !! u = Some u.
Proof.
  apply short_vcom_is_overrun.
  - simpl. lia.
  - simpl. lia.
Defined.

(** C7 as stated fails for a vdom shorter than the span: on one isolated
    vertex with an empty vdom the pruned label propagation overwrites vcom
    and vaff in its first loop, and stops only at the read of [vdom[0]],
    which is out of bounds; no size is compared before. *)
Lemma short_vdom_is_read_out_of_bounds :
  length ([] : list nat) < span single ∧
  split (Lpa true (seq_sched single)) single [] 5 (Mem [7] [false] [] [])
  = (Mem [0] [true] [] [], Err (OutOfBounds Bvdom 0)).
Proof. split; [simpl; lia|]. vm_compute. reflexivity. Qed.

(** * The busy flags of the breadth-first splitter *)

(** The first access of [fl] to the busy flags is [cbsy[vdom[u]]]: out of
    bounds when the community id is not below the length of [cbsy]. *)
Lemma fl_busy_flag_out_of_bounds x vdom fuel u m d c :
  hasVertex x u = true → vis m !! u = Some false →
  vdom !! u = Some d → vcom m !! u = Some c → length (cbsy m) ≤ d →
  fl x vdom fuel u m = (m, Err (OutOfBounds Bcbsy d)).
Proof.
  intros Hx Hv Hd Hc Hlen. unfold fl. rewrite Hx. simpl.
  assert (get_vis u m = (m, Val false)) as H1
    by (unfold get_vis, rd; by rewrite Hv).
  assert (get_vdom vdom u m = (m, Val d)) as H2
    by (unfold get_vdom, rd; by rewrite Hd).
  assert (get_vcom u m = (m, Val c)) as H3
    by (unfold get_vcom, rd; by rewrite Hc).
  assert (get_cbsy d m = (m, Err (OutOfBounds Bcbsy d))) as H4
    by (unfold get_cbsy, rd; by rewrite lookup_ge_None_2).
  unfold bind at 1. rewrite H1. unfold bind at 1. rewrite H2.
  unfold bind at 1. rewrite H3. unfold bind at 1. by rewrite H4.
Qed.

(** C9 (amended): when, besides the buffers covering the span, the
    community ids of the vertices are below the span, the breadth-first
    splitter completes with every access in bounds, and every busy flag of
    the span is free again at the end. *)
Theorem bfs_busy_flags_in_bounds x vdom fuel T m :
  graph_ok x → vdom_ok x vdom → buffers_ok x (Bfs T) m → 0 < T →
  com_in_span x vdom → span x * span x < fuel →
  ∃ m', splitDisconnectedCommunitiesBfsOmpW x vdom fuel T m = (m', Val tt) ∧
        ∀ d, d < span x → cbsy m' !! d = Some false.
Proof.
  intros Hok Hdom (Hvc & Hvis & Hcb) HT Hcom Hfuel.
  pose proof (span_le_square (span x)) as Hsq.
  destruct (bfs_run x vdom Hok Hdom fuel T ltac:(lia) Hcom m (conj Hvc Hvis) Hcb HT)
    as ([] & m' & Hrun & _ & Hlen & Hclear).
  exists m'. split; [done|]. intros d Hd.
  rewrite <- (Hclear d Hd). apply list_lookup_lookup_total_lt. lia.
Qed.

Lemma bfs_busy_flags_in_bounds_witness :
  ∃ m', splitDisconnectedCommunitiesBfsOmpW scenario scenario_vdom 37 2
          (Mem (replicate 6 0) [] (replicate 6 true) (replicate 6 true))
        = (m', Val tt) ∧
        ∀ d, d < span scenario → cbsy m' !! d = Some false.
Proof.
  apply bfs_busy_flags_in_bounds.
  - by_computation.
  - unfold vdom_ok. simpl. lia.
  - unfold buffers_ok. simpl. lia.
  - lia.
  - by_computation.
  - simpl. lia.
Defined.

(** C9 as stated fails on one vertex of community 1 with all buffers of
    length 1, the span: [fl] reads [cbsy[1]], out of bounds. *)
Lemma busy_flag_out_of_bounds :
  present single 0 ∧ buffers_ok single (Bfs 1) (mem0 1) ∧
  vdom_ok single [1] ∧
  splitDisconnectedCommunitiesBfsOmpW single [1] 5 1 (mem0 1)
  = (mem0 1, Err (OutOfBounds Bcbsy 1)).
Proof.
  split; [by_computation|]. split; [unfold buffers_ok; simpl; lia|].
  split; [unfold vdom_ok; simpl; lia|]. vm_compute. reflexivity.
Qed.

(** * Further properties of the splitters *)

(** ** The labels at the end of the label propagation *)

Section LpaEnds.
Variables (x : graph) (vdom : list nat) (PRUNE : bool).
Hypothesis Hok : graph_ok x.
Hypothesis Hdom : vdom_ok x vdom.

(** However the blocks of the iterations overlap, the run ends in a memory
    that satisfies the invariant of the rounds. *)
Lemma lpa_overlapped_inv sched fuel m :
  lpa_sized x PRUNE m → (∀ r, events_ok x [] (sched r)) → span x * span x < fuel →
  ∃ m', lpa_overlapped x vdom PRUNE sched fuel m = (m', Val tt) ∧
        lpa_inv x vdom PRUNE m' ∧
        length (vcom m') = length (vcom m) ∧
        (∀ u, span x ≤ u → lab m' u = lab m u) ∧
        ((∀ r, round_ok x (sched r)) →
         ∀ u, u < span x → lpa_quiet x vdom PRUNE m' u).
Proof.
  intros Hm Hs Hfuel.
  destruct (lpa_init_spec x vdom PRUNE m Hm)
    as ([] & m1 & Hinit & Hinv1 & _ & Hmu & Hlen1 & Hlab1).
  destruct (lpa_loop_events_spec x vdom PRUNE Hok Hdom sched fuel 0 m1
              (proj1 Hinv1) Hs ltac:(lia))
    as (m' & Hrun & (Hlen & _ & Hfr) & Hinv & Hq).
  exists m'. split_and!; [|by apply Hinv|congruence| |done].
  - unfold lpa_overlapped, bind. by rewrite Hinit.
  - intros u Hu. rewrite Hfr, Hlab1 by done. by rewrite decide_False by lia.
Qed.

(** Iterations that run one at a time are a case of iterations that
    overlap. *)
Lemma lpa_one_at_a_time_inv sched fuel m :
  lpa_sized x PRUNE m → sched_in_span x sched → span x * span x < fuel →
  ∃ m', splitDisconnectedCommunitiesLpaOmpW x vdom PRUNE sched fuel m = (m', Val tt) ∧
        lpa_inv x vdom PRUNE m' ∧
        length (vcom m') = length (vcom m) ∧
        (∀ u, span x ≤ u → lab m' u = lab m u).
Proof.
  intros Hm Hs Hfuel.
  destruct (lpa_overlapped_inv (λ r, one_at_a_time (sched r)) fuel m)
    as (m' & Hrun & Hinv & Hlen & Hfr & _); [done| |done|].
  { intros r. apply events_ok_one_at_a_time. apply Hs. }
  exists m'. split_and!; try done.
  by rewrite <- lpa_overlapped_one_at_a_time.
Qed.
End LpaEnds.

(** Every id of the span carries a label that is no larger than the id and
    is reached from it inside its community. *)
Definition label_reached (x : graph) (vdom : list nat) (m : mem) : Prop :=
  ∀ u, u < span x → ∃ c, vcom m !! u = Some c ∧ c ≤ u ∧ reach x vdom u c.

(** Ids of the span with the same label are connected inside a
    community. *)
Definition no_merge (x : graph) (vdom : list nat) (m : mem) : Prop :=
  ∀ u v, u < span x → v < span x → vcom m !! u = vcom m !! v → reach x vdom u v.

Lemma lpa_inv_label_reached x vdom PRUNE m :
  lpa_inv x vdom PRUNE m → label_reached x vdom m.
Proof.
  intros [[Hlen _] Hinv] u Hu. exists (lab m u).
  destruct (Hinv u Hu) as (Hle & Hr & _).
  split; [apply lab_lookup; lia|done].
Qed.

Lemma label_reached_no_merge x vdom m :
  graph_ok x → symmetric x → label_reached x vdom m → no_merge x vdom m.
Proof.
  intros Hok Hsym Hl u v Hu Hv Heq.
  destruct (Hl u Hu) as (c & Hc & _ & Hrc). destruct (Hl v Hv) as (c' & Hc' & _ & Hrc').
  assert (c' = c) as -> by congruence.
  eapply rtc_trans; [exact Hrc|]. by apply reach_sym.
Qed.

(** X1: on a graph whose edges lead to vertices of the graph only, with
    [vdom], [vcom] and (under [PRUNE]) [vaff] covering the span: with or
    without pruning, for rounds of any iterations of the span in any order,
    one at a time, and however the two blocks of the iterations overlap, as
    long as no iteration starts for an id that has one between its blocks,
    the label propagation ends and has given every id of the span a label
    that is at most the id and is reached from it by a path inside its
    community; if the graph is also undirected, two ids of the span with
    the same label are therefore connected inside a community: the label
    propagation never merges two pieces.  (The condition on the edges is
    needed: the scan reads [vcom] and [vdom] of a listed id without a test
    of [hasVertex].) *)
Theorem lpa_never_merges x vdom PRUNE m :
  graph_ok x → vdom_ok x vdom → lpa_sized x PRUNE m →
  (∀ sched fuel, sched_in_span x sched → span x * span x < fuel →
     ∃ m', splitDisconnectedCommunitiesLpaOmpW x vdom PRUNE sched fuel m
             = (m', Val tt) ∧
           label_reached x vdom m' ∧ (symmetric x → no_merge x vdom m')) ∧
  (∀ sched fuel, (∀ r, events_ok x [] (sched r)) → span x * span x < fuel →
     ∃ m', lpa_overlapped x vdom PRUNE sched fuel m = (m', Val tt) ∧
           label_reached x vdom m' ∧ (symmetric x → no_merge x vdom m')).
Proof.
  intros Hok Hdom Hm. split.
  - intros sched fuel Hs Hfuel.
    destruct (lpa_one_at_a_time_inv x vdom PRUNE Hok Hdom sched fuel m Hm Hs Hfuel)
      as (m' & Hrun & Hinv & _).
    pose proof (lpa_inv_label_reached x vdom PRUNE m' Hinv) as Hl.
    exists m'. split; [done|]. split; [done|].
    intros Hsym. by apply label_reached_no_merge.
  - intros sched fuel Hs Hfuel.
    destruct (lpa_overlapped_inv x vdom PRUNE Hok Hdom sched fuel m Hm Hs Hfuel)
      as (m' & Hrun & Hinv & _).
    pose proof (lpa_inv_label_reached x vdom PRUNE m' Hinv) as Hl.
    exists m'. split; [done|]. split; [done|].
    intros Hsym. by apply label_reached_no_merge.
Qed.

Lemma lpa_never_merges_witness :
  (∃ m', splitDisconnectedCommunitiesLpaOmpW scenario scenario_vdom true
           (seq_sched scenario) 37 (mem0 6) = (m', Val tt) ∧
         label_reached scenario scenario_vdom m' ∧
         (symmetric scenario → no_merge scenario scenario_vdom m')) ∧
  (∃ m', lpa_overlapped scenario scenario_vdom true (λ _, scans_first 6) 37 (mem0 6)
           = (m', Val tt) ∧
         label_reached scenario scenario_vdom m' ∧
         (symmetric scenario → no_merge scenario scenario_vdom m')).
Proof.
  destruct (lpa_never_merges scenario scenario_vdom true (mem0 6)) as [Hseq Hover].
  - by_computation.
  - unfold vdom_ok. simpl. lia.
  - unfold lpa_sized. simpl. lia.
  - split.
    + apply Hseq; [|simpl; lia].
      intros r u Hu%elem_of_seq. simpl in *. lia.
    + apply Hover; [|simpl; lia]. intros _. by_computation.
Defined.

(** ** One result for every order *)

(** The labels of the span after a run on a graph whose ids outside the
    graph keep their ids and whose vertices carry their minimal
    representatives. *)
Lemma span_labels_unique x vdom m1 m2 :
  span x ≤ length (vcom m1) → span x ≤ length (vcom m2) →
  (∀ u, u < span x → ¬ present x u → lab m1 u = u) →
  (∀ u, u < span x → ¬ present x u → lab m2 u = u) →
  (∀ u, present x u → min_rep x vdom u (lab m1 u)) →
  (∀ u, present x u → min_rep x vdom u (lab m2 u)) →
  take (span x) (vcom m1) = take (span x) (vcom m2).
Proof.
  intros Hl1 Hl2 Ha1 Ha2 Hm1 Hm2. apply list_eq_same_length with (span x).
  - rewrite length_take. lia.
  - rewrite length_take. lia.
  - intros i a b Hi Ha Hb.
    apply lookup_take_Some in Ha as [Ha Hi1]. apply lookup_take_Some in Hb as [Hb Hi2].
    assert (lab m1 i = a) as <-
      by (unfold lab; by rewrite (list_lookup_total_correct _ _ _ Ha)).
    assert (lab m2 i = b) as <-
      by (unfold lab; by rewrite (list_lookup_total_correct _ _ _ Hb)).
    destruct (decide (present x i)) as [Hp|Hp].
    + apply (min_rep_unique x vdom i); auto.
    + rewrite Ha1, Ha2; done.
Qed.

(** X2: without pruning, on every graph whose edges join vertices of the
    graph, the labels that the label propagation leaves in the span do not
    depend on the order in which the blocks of the iterations run, nor on
    the contents of [vcom] before the run. *)
Theorem plain_lpa_one_result x vdom sched1 sched2 fuel1 fuel2 m1 m2 :
  graph_ok x → vdom_ok x vdom →
  span x ≤ length (vcom m1) → span x ≤ length (vcom m2) →
  (∀ r, round_ok x (sched1 r)) → (∀ r, round_ok x (sched2 r)) →
  span x * span x < fuel1 → span x * span x < fuel2 →
  ∃ m1' m2',
    lpa_overlapped x vdom false sched1 fuel1 m1 = (m1', Val tt) ∧
    lpa_overlapped x vdom false sched2 fuel2 m2 = (m2', Val tt) ∧
    take (span x) (vcom m1') = take (span x) (vcom m2').
Proof.
  intros Hok Hdom Hl1 Hl2 Hr1 Hr2 Hf1 Hf2.
  assert (∀ sched fuel m, span x ≤ length (vcom m) → (∀ r, round_ok x (sched r)) →
            span x * span x < fuel →
            ∃ m', lpa_overlapped x vdom false sched fuel m = (m', Val tt) ∧
                  span x ≤ length (vcom m') ∧
                  (∀ u, u < span x → ¬ present x u → lab m' u = u) ∧
                  (∀ u, present x u → min_rep x vdom u (lab m' u))) as Hrun.
  { intros sched fuel m Hl Hr Hf.
    destruct (lpa_overlapped_inv x vdom false Hok Hdom sched fuel m)
      as (m' & Hrun & Hinv & Hlen & _ & Hq); [|by intros r; apply Hr|done|].
    { split; [done|]. intros ?. congruence. }
    exists m'. split_and!; [done|lia| |].
    - intros u Hu Hnu. by apply Hinv.
    - intros u Hu. apply (lpa_stable_min_rep x vdom Hok false); [done| |done].
      apply (lpa_quiet_stable x vdom Hok Hdom false m' (seq 0 (span x))).
      + intros v Hv. apply elem_of_seq. lia.
      + intros v Hv%elem_of_seq. apply Hq; [done|lia].
      + intros ?. congruence. }
  destruct (Hrun sched1 fuel1 m1 Hl1 Hr1 Hf1) as (m1' & Hrun1 & Hlen1 & Ha1 & Hm1).
  destruct (Hrun sched2 fuel2 m2 Hl2 Hr2 Hf2) as (m2' & Hrun2 & Hlen2 & Ha2 & Hm2).
  exists m1', m2'. split; [done|]. split; [done|].
  apply (span_labels_unique x vdom); auto.
Qed.

Lemma plain_lpa_one_result_witness :
  ∃ m1' m2',
    lpa_overlapped path3 [0; 0; 0] false late_update 10 (mem0 3) = (m1', Val tt) ∧
    lpa_overlapped path3 [0; 0; 0] false (λ _, scans_first 3) 10
      (Mem [7; 8; 9; 10] [] [] []) = (m2', Val tt) ∧
    take (span path3) (vcom m1') = take (span path3) (vcom m2').
Proof.
  apply plain_lpa_one_result.
  - by_computation.
  - unfold vdom_ok. simpl. lia.
  - simpl. lia.
  - simpl. lia.
  - apply late_update_round_ok.
  - intros _. by_computation.
  - simpl. lia.
  - simpl. lia.
Defined.

(** ** Rounds that change nothing, and what a round counts *)

Lemma filter_agree {A} (P Q : A → Prop) `{∀ a, Decision (P a)}
    `{∀ a, Decision (Q a)} (l : list A) :
  (∀ a, a ∈ l → P a ↔ Q a) → filter P l = filter Q l.
Proof.
  induction l as [|a l IH]; intros Hl; [done|].
  assert (filter P l = filter Q l) as IH' by (apply IH; intros b Hb; apply Hl; by right).
  destruct (decide (P a)) as [Ha|Ha].
  - rewrite !filter_cons_True; [by rewrite IH'|by apply Hl; [left|]|done].
  - rewrite !filter_cons_False; [done| |done]. intros HQ. apply Ha. apply Hl; [left|done].
Qed.

Section LpaRounds.
Variables (x : graph) (vdom : list nat) (PRUNE : bool).
Hypothesis Hok : graph_ok x.
Hypothesis Hdom : vdom_ok x vdom.

(** A round all of whose iterations find nothing to change. *)
Lemma lpa_round_quiet us n0 m :
  lpa_sized x PRUNE m → (∀ u, u ∈ us → u < span x) →
  (∀ u, u ∈ us → lpa_quiet x vdom PRUNE m u) →
  foldM (λ ndel u, b <- lpa_visit x vdom PRUNE u;;
                   ret (if b then S ndel else ndel)) us n0 m = (m, Val n0).
Proof.
  intros Hm. induction us as [|u us IH]; intros Hus Hq; simpl; [done|].
  destruct (lpa_visit_spec x vdom Hok Hdom PRUNE m u Hm) as (b & m' & Hrun & Hpost).
  { apply Hus. left. }
  destruct b.
  - exfalso. destruct Hpost as (Hpu & Hact & Hlt & _).
    rewrite (Hq u ltac:(left) Hpu Hact) in Hlt. lia.
  - destruct Hpost as [-> _]. unfold bind at 1. unfold bind at 1. rewrite Hrun.
    simpl. apply IH.
    + intros v Hv. apply Hus. by right.
    + intros v Hv. apply Hq. by right.
Qed.

(** The iterations of a round leave the labels of the other ids, and the
    round counts the ids whose label it has changed. *)
Lemma lpa_round_count us n0 m :
  lpa_sized x PRUNE m → (∀ u, u ∈ us → u < span x) →
  wp (foldM (λ ndel u, b <- lpa_visit x vdom PRUNE u;;
                       ret (if b then S ndel else ndel)) us n0)
     (λ ndel m',
        lpa_sized x PRUNE m' ∧
        (∀ w, w ∉ us → lab m' w = lab m w) ∧
        (NoDup us →
         ndel = n0 + length (filter (λ u, lab m' u ≠ lab m u) us))) m.
Proof.
  revert n0 m. induction us as [|u us IH]; intros n0 m Hm Hus; simpl.
  - apply wp_ret. split_and!; [done|done|]. intros _. simpl. lia.
  - assert (u < span x) as Hu by (apply Hus; left).
    assert (∀ w, w ∈ us → w < span x) as Hus' by (intros w Hw; apply Hus; by right).
    apply wp_bind, wp_bind.
    eapply wp_mono; [by apply lpa_visit_spec|].
    intros b m1 H1. apply wp_ret.
    assert (lpa_sized x PRUNE m1 ∧
            (∀ w, w ≠ u → lab m1 w = lab m w) ∧
            (if b then lab m1 u ≠ lab m u else lab m1 u = lab m u))
      as (Hm1 & Hoth & Hself).
    { destruct b.
      - split; [by eapply lpa_changed_sized|].
        pose proof (lpa_changed_lab x vdom PRUNE m m1 u) as Hlab.
        split.
        + intros w Hw. rewrite (Hlab w Hm Hu H1). by rewrite decide_False.
        + rewrite (Hlab u Hm Hu H1), decide_True by done.
          destruct H1 as (_ & _ & Hlt & _). lia.
      - by destruct H1 as [-> _]. }
    eapply wp_mono; [by apply IH|]. simpl.
    intros ndel m' (Hm' & Hfr & Hcnt). split_and!; [done| |].
    + intros w Hw. apply not_elem_of_cons in Hw as [Hwu Hw].
      rewrite Hfr, Hoth; done.
    + intros [Hnu Hnd]%NoDup_cons. rewrite (Hcnt Hnd).
      assert (filter (λ w, lab m' w ≠ lab m1 w) us
              = filter (λ w, lab m' w ≠ lab m w) us) as ->.
      { apply filter_agree. intros w Hw.
        rewrite Hoth; [done|]. intros ->. done. }
      pose proof (Hfr u Hnu) as Hu'. destruct b.
      * rewrite filter_cons_True by (by rewrite Hu'). simpl. lia.
      * rewrite filter_cons_False by (rewrite Hu', Hself; intros H; by apply H). done.
Qed.
End LpaRounds.


(** Four vertices without edges. *)
Definition apart : graph := graph_of 4 [] [[]; []; []; []].


(** X4: a round returns [ndel == 0] exactly when it has left the memory as it
    was; its iterations change no label but those of their own ids; and
    when it runs no iteration twice, [ndel] is the number of ids whose
    label it has changed. *)
Theorem lpa_round_counts_changes x vdom PRUNE us m :
  graph_ok x → vdom_ok x vdom → lpa_sized x PRUNE m →
  (∀ u, u ∈ us → u < span x) →
  ∃ ndel m',
    lpa_round x vdom PRUNE us m = (m', Val ndel) ∧
    (ndel = 0 ↔ m' = m) ∧
    (∀ w, w ∉ us → lab m' w = lab m w) ∧
    (NoDup us → ndel = length (filter (λ u, lab m' u ≠ lab m u) us)).
Proof.
  intros Hok Hdom Hm Hus.
  destruct (lpa_round_spec x vdom Hok Hdom PRUNE us m Hm Hus)
    as (ndel & m' & Hrun & _ & Hmu & _ & Hq & _).
  destruct (lpa_round_count x vdom PRUNE Hok Hdom us 0 m Hm Hus)
    as (ndel' & m'' & Hrun' & _ & Hfr & Hcnt).
  unfold lpa_round in Hrun. rewrite Hrun in Hrun'. injection Hrun' as <- <-.
  exists ndel, m'. split_and!; [done| |done|done].
  split; [by intros Hn; apply Hq|]. intros ->. lia.
Qed.

Lemma lpa_round_counts_changes_witness :
  ∃ ndel m',
    lpa_round scenario scenario_vdom false [5; 4; 2; 1]
      (Mem [0; 1; 2; 3; 4; 5] [] [] []) = (m', Val ndel) ∧
    (ndel = 0 ↔ m' = Mem [0; 1; 2; 3; 4; 5] [] [] []) ∧
    (∀ w, w ∉ [5; 4; 2; 1] → lab m' w = lab (Mem [0; 1; 2; 3; 4; 5] [] [] []) w) ∧
    (NoDup [5; 4; 2; 1] →
     ndel = length (filter (λ u, lab m' u ≠ lab (Mem [0; 1; 2; 3; 4; 5] [] [] []) u)
                           [5; 4; 2; 1])).
Proof.
  apply lpa_round_counts_changes.
  - by_computation.
  - unfold vdom_ok. simpl. lia.
  - unfold lpa_sized. simpl. split; [lia|congruence].
  - intros u Hu. simpl.
    repeat (apply elem_of_cons in Hu as [->|Hu]); [lia..|by apply elem_of_nil in Hu].
Defined.

(** ** The changes that the rounds count *)

Lemma lpa_rounds_work x vdom PRUNE sched k r m ns m' :
  graph_ok x → vdom_ok x vdom → lpa_sized x PRUNE m → sched_in_span x sched →
  lpa_rounds x vdom PRUNE sched k r m = (m', Val ns) →
  mu x m' + sum_list ns ≤ mu x m.
Proof.
  intros Hok Hdom Hm Hs. revert r m ns Hm. induction k as [|k IH]; intros r m ns Hm.
  - simpl. intros [= <- <-]. simpl. lia.
  - destruct (lpa_round_spec x vdom Hok Hdom PRUNE (sched r) m Hm (Hs r))
      as (ndel & m1 & Hrun & Hm1 & Hmu & _).
    simpl. unfold bind at 1. rewrite Hrun. unfold bind.
    destruct (lpa_rounds x vdom PRUNE sched k (S r) m1) as [m2 [ns'|e]] eqn:E; [|done].
    intros [= <- <-]. specialize (IH (S r) m1 ns' Hm1 E). simpl. lia.
Qed.

Lemma sum_list_snoc (ns : list nat) n : sum_list (ns ++ [n]) = sum_list ns + n.
Proof. induction ns as [|a ns IH]; simpl; lia. Qed.

Lemma sum_list_nonzero (ns : list nat) :
  Forall (λ n, n ≠ 0) ns → length ns ≤ sum_list ns.
Proof. induction 1 as [|n ns Hn _ IH]; simpl; lia. Qed.

(** X5: the label propagation counts a change only when it lowers a label.
    The changes that its rounds count add up to no more than the amount by
    which the labels of the span end below their ids, and every round but
    the last counts one at least: the number of rounds is at most one more
    than that amount. *)
Theorem lpa_work_bound x vdom PRUNE sched m :
  graph_ok x → vdom_ok x vdom → lpa_sized x PRUNE m → sched_in_span x sched →
  ∃ k ns m1 m',
    lpa_init x PRUNE m = (m1, Val tt) ∧
    lpa_rounds x vdom PRUNE sched (S k) 0 m1 = (m', Val (ns ++ [0])) ∧
    splitDisconnectedCommunitiesLpaOmpW x vdom PRUNE sched (S k) m = (m', Val tt) ∧
    length ns = k ∧ k ≤ sum_list ns ∧
    sum_list ns + sum_list (take (span x) (vcom m')) ≤ sum_list (seq 0 (span x)).
Proof.
  intros Hok Hdom Hm Hs.
  destruct (lpa_init_spec x vdom PRUNE m Hm)
    as ([] & m1 & Hinit & [Hm1 _] & _ & _ & _ & Hlab1).
  destruct (lpa_loop_spec x vdom Hok Hdom PRUNE sched 0 m1 Hm1 Hs)
    as (k & ns & m' & _ & Hlen & Hns & Hrounds & Hloop & _).
  exists k, ns, m1, m'. split_and!; [done|done| |done| |].
  - unfold splitDisconnectedCommunitiesLpaOmpW, bind. rewrite Hinit.
    apply Hloop. lia.
  - rewrite <- Hlen. by apply sum_list_nonzero.
  - pose proof (lpa_rounds_work x vdom PRUNE sched (S k) 0 m1 _ m' Hok Hdom Hm1 Hs
                  Hrounds) as Hw.
    rewrite sum_list_snoc in Hw.
    assert (mu x m1 = sum_list (seq 0 (span x))) as Hmu1.
    { unfold mu. f_equal. apply list_eq_same_length with (span x).
      - by rewrite length_seq.
      - rewrite length_take. destruct Hm1. lia.
      - intros i a b Hi Ha Hb.
        apply lookup_take_Some in Ha as [Ha _].
        rewrite lab_lookup in Ha by (destruct Hm1; lia).
        rewrite Hlab1, decide_True in Ha by done.
        rewrite lookup_seq_lt in Hb by done. simpl in Hb. congruence. }
    unfold mu in *. lia.
Qed.

Lemma lpa_work_bound_witness :
  ∃ k ns m1 m',
    lpa_init scenario true (mem0 6) = (m1, Val tt) ∧
    lpa_rounds scenario scenario_vdom true (seq_sched scenario) (S k) 0 m1
      = (m', Val (ns ++ [0])) ∧
    splitDisconnectedCommunitiesLpaOmpW scenario scenario_vdom true
      (seq_sched scenario) (S k) (mem0 6) = (m', Val tt) ∧
    length ns = k ∧ k ≤ sum_list ns ∧
    sum_list ns + sum_list (take (span scenario) (vcom m'))
      ≤ sum_list (seq 0 (span scenario)).
Proof.
  apply lpa_work_bound.
  - by_computation.
  - unfold vdom_ok. simpl. lia.
  - unfold lpa_sized. simpl. lia.
  - intros r u Hu%elem_of_seq. simpl in *. lia.
Defined.

(** ** What pruning skips *)

Lemma lpa_rounds_settled x vdom sched k r m :
  graph_ok x → vdom_ok x vdom → symmetric x → sched_in_span x sched →
  lpa_sized x true m → lpa_settled x vdom m →
  ∃ ns m', lpa_rounds x vdom true sched k r m = (m', Val ns) ∧
           lpa_sized x true m' ∧ lpa_settled x vdom m'.
Proof.
  intros Hok Hdom Hsym Hs. revert r m. induction k as [|k IH]; intros r m Hm Hset.
  - by exists [], m.
  - destruct (lpa_round_spec x vdom Hok Hdom true (sched r) m Hm (Hs r))
      as (ndel & m1 & Hrun & Hm1 & _ & _ & _ & _ & Hset1).
    destruct (IH (S r) m1 Hm1 (Hset1 eq_refl Hsym Hset)) as (ns & m' & Hrun' & Hm' & Hset').
    exists (ndel :: ns), m'. split; [|done].
    simpl. unfold bind. by rewrite Hrun, Hrun'.
Qed.

(** X6: on an undirected graph, with the iterations one at a time, pruning
    skips only iterations that would change nothing: after the first loop
    and any number of rounds (of any iterations, in any order), a vertex
    whose flag [vaff[u]] is clear has no neighbour of its community with a
    smaller label, and the iteration without pruning for it leaves the
    memory as it is. *)
Theorem pruning_skips_settled_vertices x vdom sched k m :
  graph_ok x → symmetric x → vdom_ok x vdom → lpa_sized x true m →
  sched_in_span x sched →
  ∃ m1 ns m',
    lpa_init x true m = (m1, Val tt) ∧
    lpa_rounds x vdom true sched k 0 m1 = (m', Val ns) ∧
    ∀ u, present x u → vaff m' !! u = Some false →
         (∀ v, sedge x vdom u v → lab m' u ≤ lab m' v) ∧
         lpa_visit x vdom false u m' = (m', Val false).
Proof.
  intros Hok Hsym Hdom Hm Hs.
  destruct (lpa_init_spec x vdom true m Hm)
    as ([] & m1 & Hinit & [Hm1 _] & Hset1 & _).
  destruct (lpa_rounds_settled x vdom sched k 0 m1 Hok Hdom Hsym Hs Hm1 (Hset1 eq_refl))
    as (ns & m' & Hrun & Hm' & Hset').
  exists m1, ns, m'. split; [done|]. split; [done|].
  intros u Hpu Hfl. pose proof Hpu as [Hu _].
  assert (vaff m' !!! u = false) as Hfl' by (by apply list_lookup_total_correct).
  assert (∀ v, sedge x vdom u v → lab m' u ≤ lab m' v) as Hlow
    by (intros v Huv; by apply Hset').
  split; [done|].
  assert (lpa_sized x false m') as Hmf.
  { destruct Hm' as [Hvc _]. split; [done|]. intros ?. congruence. }
  destruct (lpa_visit_spec x vdom Hok Hdom false m' u Hmf Hu) as (b & m2 & Hrun2 & Hpost).
  destruct b.
  - exfalso. destruct Hpost as (_ & _ & Hlt & _).
    destruct (minlab_attained vdom m' (com vdom u) (edges x u) (lab m' u))
      as [Heq|(v & Hv & Hd & Heq)]; [lia|].
    rewrite Heq in Hlt.
    pose proof (Hlow v (sedge_intro x vdom Hok Hdom u v Hpu Hv Hd)). lia.
  - destruct Hpost as [-> _]. done.
Qed.

Lemma pruning_skips_settled_vertices_witness :
  ∃ m1 ns m',
    lpa_init scenario true (mem0 6) = (m1, Val tt) ∧
    lpa_rounds scenario scenario_vdom true (λ r, [2; 1; 4]) 2 0 m1 = (m', Val ns) ∧
    ∀ u, present scenario u → vaff m' !! u = Some false →
         (∀ v, sedge scenario scenario_vdom u v → lab m' u ≤ lab m' v) ∧
         lpa_visit scenario scenario_vdom false u m' = (m', Val false).
Proof.
  apply pruning_skips_settled_vertices.
  - by_computation.
  - by_computation.
  - unfold vdom_ok. simpl. lia.
  - unfold lpa_sized. simpl. lia.
  - intros r u Hu. simpl.
    repeat (apply elem_of_cons in Hu as [->|Hu]); [lia..|by apply elem_of_nil in Hu].
Defined.

(** ** What the label propagation leaves as it was *)

Section LpaFrame.
Variables (x : graph) (vdom : list nat) (PRUNE : bool).
Hypothesis Hok : graph_ok x.
Hypothesis Hdom : vdom_ok x vdom.

(** Between [m] and [m'] the flags [vis] and [cbsy], the lengths of [vcom]
    and [vaff] and their entries from the span on are the same; without
    pruning, [vaff] is the same. *)
Definition lpa_untouched (m m' : mem) : Prop :=
  vis m' = vis m ∧ cbsy m' = cbsy m ∧
  length (vcom m') = length (vcom m) ∧ length (vaff m') = length (vaff m) ∧
  drop (span x) (vcom m') = drop (span x) (vcom m) ∧
  drop (span x) (vaff m') = drop (span x) (vaff m) ∧
  (PRUNE = false → vaff m' = vaff m).

Lemma lpa_untouched_refl m : lpa_untouched m m.
Proof. by split_and!. Qed.

Lemma lpa_untouched_trans m1 m2 m3 :
  lpa_untouched m1 m2 → lpa_untouched m2 m3 → lpa_untouched m1 m3.
Proof.
  intros (H1 & H2 & H3 & H4 & H5 & H6 & H7) (G1 & G2 & G3 & G4 & G5 & G6 & G7).
  split_and!; try congruence. intros HP. rewrite G7, H7; done.
Qed.

Lemma lpa_untouched_set_vcom m0 m i c :
  lpa_untouched m0 m → i < span x →
  lpa_untouched m0 (Mem (<[i:=c]> (vcom m)) (vaff m) (vis m) (cbsy m)).
Proof.
  intros H Hi. eapply lpa_untouched_trans; [exact H|].
  split_and!; simpl; try done.
  - apply length_insert.
  - by apply drop_insert_lt.
Qed.

Lemma lpa_untouched_set_vaff m0 m i b :
  lpa_untouched m0 m → PRUNE = true → i < span x →
  lpa_untouched m0 (Mem (vcom m) (<[i:=b]> (vaff m)) (vis m) (cbsy m)).
Proof.
  intros H HP Hi. eapply lpa_untouched_trans; [exact H|].
  split_and!; simpl; try done.
  - apply length_insert.
  - by apply drop_insert_lt.
  - intros ?. congruence.
Qed.

(** The vectors cover the span, and the rest is as in [m0]. *)
Definition lpa_kept (m0 m : mem) : Prop :=
  lpa_sized x PRUNE m ∧ lpa_untouched m0 m.

Lemma lpa_kept_set_vcom m0 m i c :
  lpa_kept m0 m → i < span x →
  lpa_kept m0 (Mem (<[i:=c]> (vcom m)) (vaff m) (vis m) (cbsy m)).
Proof.
  intros [[H1 H2] H] Hi. split; [|by apply lpa_untouched_set_vcom].
  split; simpl; [by rewrite length_insert|done].
Qed.

Lemma lpa_kept_set_vaff m0 m i b :
  lpa_kept m0 m → PRUNE = true → i < span x →
  lpa_kept m0 (Mem (vcom m) (<[i:=b]> (vaff m)) (vis m) (cbsy m)).
Proof.
  intros [[H1 H2] H] HP Hi. split; [|by apply lpa_untouched_set_vaff].
  split; simpl; [done|]. intros _. rewrite length_insert. auto.
Qed.

Lemma lpa_init_kept m :
  lpa_sized x PRUNE m → wp (lpa_init x PRUNE) (λ _ m', lpa_kept m m') m.
Proof.
  intros Hm. unfold lpa_init. apply (wp_forEach (lpa_kept m)).
  { split; [done|apply lpa_untouched_refl]. }
  intros u m1 Hu%elem_of_seq Hk. pose proof Hk as [[Hvc Hva] _].
  apply wp_bind. apply wp_set_vcom; [lia|].
  pose proof (lpa_kept_set_vcom m m1 u u Hk ltac:(lia)) as Hk1.
  destruct (decide (PRUNE = true)) as [HP|HP].
  - rewrite HP at 1. apply wp_set_vaff; [simpl; specialize (Hva HP); lia|].
    apply (lpa_kept_set_vaff m _ u true Hk1 HP). lia.
  - apply not_true_is_false in HP. rewrite HP at 1. by apply wp_ret.
Qed.

Lemma lpa_mark_kept m0 m d l :
  PRUNE = true → lpa_kept m0 m → (∀ v, v ∈ l → v < span x) →
  wp (forEach l (lpa_mark vdom d)) (λ _ m', lpa_kept m0 m') m.
Proof.
  intros HP Hk Hl. apply (wp_forEach (lpa_kept m0)); [done|].
  intros v m1 Hv Hk1. pose proof Hk1 as [Hm1 _]. specialize (Hl v Hv).
  unfold lpa_mark. apply wp_bind.
  eapply wp_get_vdom; [by apply (vdom_lookup x)|].
  case_decide; [|by apply wp_ret].
  apply wp_bind. eapply wp_get_vaff; [by apply (vaff_lookup x PRUNE)|].
  destruct (vaff m1 !!! v); simpl; [by apply wp_ret|].
  apply wp_set_vaff; [destruct Hm1 as [_ Hva]; specialize (Hva HP); lia|].
  by apply lpa_kept_set_vaff.
Qed.

Lemma lpa_write_kept m0 m u dc :
  lpa_kept m0 m → present x u →
  wp (lpa_write x vdom PRUNE u dc) (λ _ m', lpa_kept m0 m') m.
Proof.
  intros Hk Hpu. pose proof Hpu as [Hu _]. pose proof Hk as [Hm _].
  unfold lpa_write.
  apply wp_bind. eapply wp_get_vcom; [by eapply vcom_lookup|].
  case_decide; [by apply wp_ret|].
  apply wp_bind. apply wp_set_vcom; [destruct Hm; lia|].
  pose proof (lpa_kept_set_vcom m0 m u dc.2 Hk Hu) as Hk1.
  destruct (decide (PRUNE = true)) as [HP|HP].
  - rewrite HP at 1. simpl. apply wp_bind.
    apply wp_set_vaff; [simpl; destruct Hm as [_ Hva]; specialize (Hva HP); lia|].
    apply wp_bind. eapply wp_mono.
    + apply lpa_mark_kept; [done| |].
      * apply (lpa_kept_set_vaff m0 _ u false Hk1 HP Hu).
      * intros v Hv. by destruct (Hok u v Hpu Hv).
    + intros [] m' Hk'. by apply wp_ret.
  - apply not_true_is_false in HP. rewrite HP at 1. simpl. by apply wp_ret.
Qed.

Lemma lpa_event_kept m0 st e m :
  lpa_kept m0 m → (∀ u dc, (u, dc) ∈ st.2 → present x u) →
  (∀ u, e = Scan u → u < span x) →
  wp (lpa_event x vdom PRUNE st e)
     (λ st' m', lpa_kept m0 m' ∧ ∀ u dc, (u, dc) ∈ st'.2 → present x u) m.
Proof.
  intros Hk Hsc He. pose proof Hk as [Hm _]. destruct e as [u|u]; simpl.
  - destruct (lpa_read_spec x vdom PRUNE Hok Hdom m u Hm (He u eq_refl))
      as (r & Hrun & Hr).
    apply wp_bind. eapply wp_eq; [exact Hrun|]. apply wp_ret. split; [done|].
    simpl. destruct r as [dc|]; [|done].
    intros v dv [[= -> ->]|Hin]%elem_of_cons; [by destruct Hr|by eapply Hsc].
  - destruct (take_scanned u st.2) as [[dc rest]|] eqn:E; [|by apply wp_ret].
    destruct (take_scanned_spec u st.2 dc rest E) as (Hin & Hrest & _).
    apply wp_bind. eapply wp_mono; [apply lpa_write_kept; [done|by eapply Hsc]|].
    intros b m' Hk'. apply wp_ret. split; [done|]. simpl.
    intros v dv Hv. eapply Hsc. by apply Hrest.
Qed.

Lemma lpa_round_events_kept m0 es m :
  lpa_kept m0 m → (∀ u, Scan u ∈ es → u < span x) →
  wp (lpa_round_events x vdom PRUNE es) (λ _ m', lpa_kept m0 m') m.
Proof.
  intros Hk Hes. unfold lpa_round_events. apply wp_bind.
  eapply wp_mono.
  - apply (wp_foldM (λ st m', lpa_kept m0 m' ∧
                              ∀ u dc, (u, dc) ∈ st.2 → present x u)).
    + split; [done|]. intros u dc Hin. by apply elem_of_nil in Hin.
    + intros e st m1 He [Hk1 Hsc]. apply lpa_event_kept; [done|done|].
      intros u ->. by apply Hes.
  - intros st m' [Hk' _]. by apply wp_ret.
Qed.

(** Whatever the fuel, and whether the round loop ends or not. *)
Lemma lpa_loop_events_kept m0 sched fuel r m m' res :
  lpa_kept m0 m → (∀ r u, Scan u ∈ sched r → u < span x) →
  lpa_loop_events x vdom PRUNE sched fuel r m = (m', res) → lpa_kept m0 m'.
Proof.
  intros Hk Hs. revert r m Hk. induction fuel as [|fuel IH]; intros r m Hk; simpl.
  - by intros [= <- _].
  - destruct (lpa_round_events_kept m0 (sched r) m Hk (Hs r))
      as (ndel & m1 & Hrun & Hk1).
    unfold bind. rewrite Hrun. case_decide.
    + by intros [= <- _].
    + by apply IH.
Qed.

Lemma events_ok_in_span open es u :
  events_ok x open es → Scan u ∈ es → u < span x.
Proof.
  revert open. induction es as [|e es IH]; intros open; simpl.
  - intros _ Hin. by apply elem_of_nil in Hin.
  - intros [He Hes] [<-|Hin]%elem_of_cons; [by destruct He|by eapply IH].
Qed.

Lemma lpa_overlapped_kept sched fuel m m' res :
  lpa_sized x PRUNE m → (∀ r, events_ok x [] (sched r)) →
  lpa_overlapped x vdom PRUNE sched fuel m = (m', res) → lpa_untouched m m'.
Proof.
  intros Hm Hs. unfold lpa_overlapped.
  destruct (lpa_init_kept m Hm) as ([] & m1 & Hinit & Hk1).
  unfold bind. rewrite Hinit. intros Hrun.
  apply (lpa_loop_events_kept m sched fuel 0 m1 m' res Hk1); [|done].
  intros r u. apply (events_ok_in_span []). apply Hs.
Qed.
End LpaFrame.

(** X7: with or without pruning, whatever the order of the iterations of a
    round and however their blocks overlap, the label propagation ends and
    has left [vis] and [cbsy] as they were, and of [vcom] and [vaff] the
    lengths and the entries from the span on; without pruning it has left
    all of [vaff] as it was, which may have any length. *)
Theorem lpa_touches_only_its_vectors x vdom PRUNE m :
  graph_ok x → vdom_ok x vdom → lpa_sized x PRUNE m →
  (∀ sched fuel, sched_in_span x sched → span x * span x < fuel →
     ∃ m', splitDisconnectedCommunitiesLpaOmpW x vdom PRUNE sched fuel m
             = (m', Val tt) ∧
           lpa_untouched x PRUNE m m') ∧
  (∀ sched fuel, (∀ r, events_ok x [] (sched r)) → span x * span x < fuel →
     ∃ m', lpa_overlapped x vdom PRUNE sched fuel m = (m', Val tt) ∧
           lpa_untouched x PRUNE m m').
Proof.
  intros Hok Hdom Hm.
  assert (∀ sched fuel, (∀ r, events_ok x [] (sched r)) → span x * span x < fuel →
            ∃ m', lpa_overlapped x vdom PRUNE sched fuel m = (m', Val tt) ∧
                  lpa_untouched x PRUNE m m') as Hover.
  { intros sched fuel Hs Hfuel.
    destruct (lpa_overlapped_inv x vdom PRUNE Hok Hdom sched fuel m Hm Hs Hfuel)
      as (m' & Hrun & _).
    exists m'. split; [done|]. by eapply lpa_overlapped_kept. }
  split; [|done]. intros sched fuel Hs Hfuel.
  destruct (Hover (λ r, one_at_a_time (sched r)) fuel) as (m' & Hrun & Hun); [|done|].
  { intros r. apply events_ok_one_at_a_time. apply Hs. }
  exists m'. split; [|done]. by rewrite <- lpa_overlapped_one_at_a_time.
Qed.

Lemma lpa_touches_only_its_vectors_witness :
  let m := Mem [9; 9; 9; 9; 9; 9; 7; 8] [true] [true; false] [false; true] in
  (∃ m', splitDisconnectedCommunitiesLpaOmpW scenario scenario_vdom false
           (seq_sched scenario) 37 m = (m', Val tt) ∧
         lpa_untouched scenario false m m') ∧
  (∃ m', lpa_overlapped scenario scenario_vdom false (λ _, scans_first 6) 37 m
           = (m', Val tt) ∧
         lpa_untouched scenario false m m').
Proof.
  intros m.
  destruct (lpa_touches_only_its_vectors scenario scenario_vdom false m)
    as [Hseq Hover].
  - by_computation.
  - unfold vdom_ok. simpl. lia.
  - unfold lpa_sized. simpl. split; [lia|congruence].
  - split.
    + apply Hseq; [|simpl; lia].
      intros r u Hu%elem_of_seq. simpl in *. lia.
    + apply Hover; [|simpl; lia]. intros _. by_computation.
Defined.

(** ** Scratch vectors shorter than the span *)

(** A loop over a range whose body faults at the index [n]. *)
Lemma first_loop_fault (f : nat → M unit) (I : nat → mem → Prop) e a k n m :
  a ≤ n < a + k → I a m →
  (∀ u m1, a ≤ u < n → I u m1 → wp (f u) (λ _ m2, I (S u) m2) m1) →
  (∀ m1, I n m1 → ∃ m2, f n m1 = (m2, Err e) ∧ I (S n) m2) →
  ∃ m', forEach (seq a k) f m = (m', Err e) ∧ I (S n) m'.
Proof.
  revert a m. induction k as [|k IH]; intros a m Han HI Hstep Hfault; [lia|].
  simpl. destruct (decide (a = n)) as [->|Hne].
  - destruct (Hfault m HI) as (m2 & Hrun & HI2).
    exists m2. split; [|done]. unfold bind. by rewrite Hrun.
  - destruct (Hstep a m ltac:(lia) HI) as ([] & m1 & Hrun & HI1).
    destruct (IH (S a) m1) as (m' & Hrun' & HI'); [lia|done| |done|].
    { intros u m2 Hu. apply Hstep. lia. }
    exists m'. split; [|done]. unfold bind. by rewrite Hrun.
Qed.

(** The scratch vector [b] of the splitter [s] has [n] entries, fewer than
    [vcom], and is the first that the first loop overruns. *)
Definition short_scratch (s : splitter) (m : mem) (b : buffer) (n : nat) : Prop :=
  n < length (vcom m) ∧
  match s, b with
  | Lpa PRUNE _, Bvaff => PRUNE = true ∧ length (vaff m) = n
  | Dfs _, Bvis => length (vis m) = n
  | Bfs _, Bcbsy => length (cbsy m) = n ∧ n ≤ length (vis m)
  | Bfs _, Bvis => length (vis m) = n ∧ n < length (cbsy m)
  | _, _ => False
  end.

(** The entries of [vcom] below [u] hold their indices. *)
Definition filled (n0 : nat) (u : nat) (m : mem) : Prop :=
  length (vcom m) = n0 ∧ ∀ i, i < u → vcom m !! i = Some i.

Lemma filled_set_vcom n0 u m :
  filled n0 u m → u < n0 →
  filled n0 (S u) (Mem (<[u:=u]> (vcom m)) (vaff m) (vis m) (cbsy m)).
Proof.
  intros [Hlen Hf] Hu. split; simpl; [by rewrite length_insert|].
  intros i Hi. destruct (decide (i = u)) as [->|Hne].
  - apply list_lookup_insert_eq. lia.
  - rewrite list_lookup_insert_ne by done. apply Hf. lia.
Qed.

(** X8: no splitter compares the sizes of its scratch vectors with the span.
    With a scratch vector of [n] entries, fewer than the span and than
    [vcom] has ([vaff] with pruning, [vis], [cbsy]), the first loop of the
    splitter writes [vcom[u] = u] for every [u] up to [n] and then stops at
    the out-of-bounds write to entry [n] of the scratch vector. *)
Theorem short_scratch_is_overrun s x vdom fuel m b n :
  n < span x → short_scratch s m b n →
  ∃ m', split s x vdom fuel m = (m', Err (OutOfBounds b n)) ∧
        length (vcom m') = length (vcom m) ∧
        ∀ u, u ≤ n → vcom m' !! u = Some u.
Proof.
  intros Hn [Hvc Hs].
  assert (∀ (init rest : M unit) (J : mem → Prop),
            (∃ m', init m = (m', Err (OutOfBounds b n)) ∧
                   filled (length (vcom m)) (S n) m' ∧ J m') →
            ∃ m', bind init (λ _, rest) m = (m', Err (OutOfBounds b n)) ∧
                  length (vcom m') = length (vcom m) ∧
                  ∀ u, u ≤ n → vcom m' !! u = Some u) as Hbind.
  { intros init rest J (m' & Hrun & [Hlen Hf] & _). exists m'.
    split; [unfold bind; by rewrite Hrun|]. split; [done|].
    intros u Hu. apply Hf. lia. }
  assert (filled (length (vcom m)) 0 m) as Hf0 by (split; [done|intros; lia]).
  destruct s as [PRUNE sched|T|T], b; simpl in Hs; try done.
  - destruct Hs as [-> Hva]. simpl.
    apply (Hbind _ _ (λ m1, length (vaff m1) = n)).
    apply (first_loop_fault _
             (λ u m1, filled (length (vcom m)) u m1 ∧ length (vaff m1) = n)
             _ 0 (span x) n); [lia|done|..].
    + intros u m1 Hu [Hf Hl]. pose proof Hf as [Hlen _].
      apply wp_bind. apply wp_set_vcom; [lia|].
      apply wp_set_vaff; [simpl; lia|]. simpl. rewrite length_insert.
      split; [|done]. apply (filled_set_vcom _ u m1); [done|lia].
    + intros m1 [Hf Hl]. pose proof Hf as [Hlen _].
      eexists. split.
      * unfold bind, set_vcom, set_vaff. rewrite decide_True by lia. simpl.
        rewrite decide_False by lia. done.
      * split; [|done]. apply (filled_set_vcom _ n m1); [done|lia].
  - simpl. apply (Hbind _ _ (λ m1, length (vis m1) = n)).
    apply (first_loop_fault _
             (λ u m1, filled (length (vcom m)) u m1 ∧ length (vis m1) = n)
             _ 0 (span x) n); [lia|done|..].
    + intros u m1 Hu [Hf Hl]. pose proof Hf as [Hlen _].
      apply wp_bind. apply wp_set_vcom; [lia|].
      apply wp_set_vis; [simpl; lia|]. simpl. rewrite length_insert.
      split; [|done]. apply (filled_set_vcom _ u m1); [done|lia].
    + intros m1 [Hf Hl]. pose proof Hf as [Hlen _].
      eexists. split.
      * unfold bind, set_vcom, set_vis. rewrite decide_True by lia. simpl.
        rewrite decide_False by lia. done.
      * split; [|done]. apply (filled_set_vcom _ n m1); [done|lia].
  - destruct Hs as [Hvi Hcb]. simpl.
    apply (Hbind _ _ (λ m1, length (vis m1) = n ∧ n < length (cbsy m1))).
    apply (first_loop_fault _
             (λ u m1, filled (length (vcom m)) u m1 ∧
                      length (vis m1) = n ∧ n < length (cbsy m1))
             _ 0 (span x) n); [lia|done|..].
    + intros u m1 Hu (Hf & Hl1 & Hl2). pose proof Hf as [Hlen _].
      apply wp_bind. apply wp_set_vcom; [lia|].
      apply wp_bind. apply wp_set_cbsy; [simpl; lia|].
      apply wp_set_vis; [simpl; lia|]. simpl. rewrite !length_insert.
      split; [|done]. apply (filled_set_vcom _ u m1); [done|lia].
    + intros m1 (Hf & Hl1 & Hl2). pose proof Hf as [Hlen _].
      eexists. split.
      * unfold bind, set_vcom, set_cbsy, set_vis. rewrite decide_True by lia. simpl.
        rewrite decide_True by lia. simpl. rewrite decide_False by lia. done.
      * simpl. rewrite length_insert.
        split; [|done]. apply (filled_set_vcom _ n m1); [done|lia].
  - destruct Hs as [Hcb Hvi]. simpl.
    apply (Hbind _ _ (λ m1, length (cbsy m1) = n ∧ n ≤ length (vis m1))).
    apply (first_loop_fault _
             (λ u m1, filled (length (vcom m)) u m1 ∧
                      length (cbsy m1) = n ∧ n ≤ length (vis m1))
             _ 0 (span x) n); [lia|done|..].
    + intros u m1 Hu (Hf & Hl1 & Hl2). pose proof Hf as [Hlen _].
      apply wp_bind. apply wp_set_vcom; [lia|].
      apply wp_bind. apply wp_set_cbsy; [simpl; lia|].
      apply wp_set_vis; [simpl; lia|]. simpl. rewrite !length_insert.
      split; [|done]. apply (filled_set_vcom _ u m1); [done|lia].
    + intros m1 (Hf & Hl1 & Hl2). pose proof Hf as [Hlen _].
      eexists. split.
      * unfold bind, set_vcom, set_cbsy. rewrite decide_True by lia. simpl.
        rewrite decide_False by lia. done.
      * split; [|done]. apply (filled_set_vcom _ n m1); [done|lia].
Qed.

Lemma short_scratch_is_overrun_witness :
  let m := Mem (replicate 6 0) [] (replicate 6 true) (replicate 4 true) in
  ∃ m', split (Bfs 2) scenario scenario_vdom 37 m = (m', Err (OutOfBounds Bcbsy 4)) ∧
        length (vcom m') = length (vcom m) ∧
        ∀ u, u ≤ 4 → vcom m' !! u = Some u.
Proof.
  intros m. apply short_scratch_is_overrun.
  - simpl. lia.
  - unfold short_scratch. simpl. lia.
Defined.

(** ** A community vector shorter than the span *)

Section ShortVdom.
Variables (x : graph) (vdom : list nat) (PRUNE : bool).
Hypothesis Hok : graph_ok x.

(** A read of [vdom] at an id of the span that [vdom] does not cover. *)
Definition vdom_fault (e : fault) : Prop :=
  ∃ i, length vdom ≤ i ∧ i < span x ∧ e = OutOfBounds Bvdom i.

(** The computation yields a value that satisfies [Q], or stops at such a
    read. *)
Definition wpf {A} (c : M A) (Q : A → mem → Prop) (m : mem) : Prop :=
  ∃ m' r, c m = (m', r) ∧
          match r with Val a => Q a m' | Err e => vdom_fault e end.

Lemma wpf_ret {A} (a : A) (Q : A → mem → Prop) m : Q a m → wpf (ret a) Q m.
Proof. intros HQ. by exists m, (Val a). Qed.

Lemma wpf_bind {A B} (c : M A) (k : A → M B) (Q : B → mem → Prop) m :
  wpf c (λ a m1, wpf (k a) Q m1) m → wpf (bind c k) Q m.
Proof.
  intros (m1 & r & Hc & Hr). unfold wpf, bind. rewrite Hc.
  destruct r as [a|e]; [done|]. by exists m1, (Err e).
Qed.

Lemma wpf_wp {A} (c : M A) (Q : A → mem → Prop) m : wp c Q m → wpf c Q m.
Proof. intros (a & m' & Hc & HQ). by exists m', (Val a). Qed.

Lemma wpf_mono {A} (c : M A) (Q Q' : A → mem → Prop) m :
  wpf c Q m → (∀ a m', Q a m' → Q' a m') → wpf c Q' m.
Proof.
  intros (m' & r & Hc & Hr) HQ. exists m', r. split; [done|].
  destruct r; [by apply HQ|done].
Qed.

Lemma wpf_get_vdom i (Q : nat → mem → Prop) m :
  i < span x → (∀ d, vdom !! i = Some d → Q d m) → wpf (get_vdom vdom i) Q m.
Proof.
  intros Hi HQ. unfold wpf, get_vdom, rd. destruct (vdom !! i) as [d|] eqn:E.
  - exists m, (Val d). split; [done|]. by apply HQ.
  - exists m, (Err (OutOfBounds Bvdom i)). split; [done|].
    exists i. split_and!; [by apply lookup_ge_None|done|done].
Qed.

Lemma wpf_forEach {A} (I : mem → Prop) (l : list A) (f : A → M unit) m :
  I m → (∀ a m1, a ∈ l → I m1 → wpf (f a) (λ _, I) m1) →
  wpf (forEach l f) (λ _, I) m.
Proof.
  revert m. induction l as [|a l IH]; intros m Hm Hf; simpl.
  - by apply wpf_ret.
  - apply wpf_bind. eapply wpf_mono; [apply Hf; [left|done]|].
    intros [] m1 Hm1. apply IH; [done|].
    intros b m2 Hb. apply Hf. by right.
Qed.

(** The scan of the edges reads only. *)
Lemma lpa_scan_short m d l c :
  lpa_sized x PRUNE m → (∀ v, v ∈ l → v < span x) →
  wpf (foldM (lpa_scan vdom d) l c) (λ _ m', m' = m) m.
Proof.
  intros Hm. revert c. induction l as [|v l IH]; intros c Hl; simpl.
  - by apply wpf_ret.
  - assert (v < span x) as Hv by (apply Hl; left).
    assert (∀ c', wpf (foldM (lpa_scan vdom d) l c') (λ _ m', m' = m) m) as IH'.
    { intros c'. apply IH. intros w Hw. apply Hl. by right. }
    apply wpf_bind. unfold lpa_scan. apply wpf_bind.
    apply wpf_get_vdom; [done|]. intros dv _. case_decide.
    + apply wpf_bind, wpf_wp. eapply wp_get_vcom; [by eapply vcom_lookup|].
      apply wpf_ret. apply IH'.
    + apply wpf_ret. apply IH'.
Qed.

Section Vertex.
(** A vertex [u] of the graph that [vdom] does not cover. *)
Variable u : nat.
Hypothesis Hpu : present x u.
Hypothesis Hshort : length vdom ≤ u.

(** The vectors cover the span, and with pruning the flag of [u] is set. *)
Definition awaits (m : mem) : Prop :=
  lpa_sized x PRUNE m ∧ (PRUNE = true → vaff m !!! u = true).

Lemma awaits_set_vcom m i c :
  awaits m → awaits (Mem (<[i:=c]> (vcom m)) (vaff m) (vis m) (cbsy m)).
Proof.
  intros [[H1 H2] H]. split; [|done]. split; simpl; [by rewrite length_insert|done].
Qed.

Lemma awaits_set_vaff m i b :
  awaits m → i ≠ u ∨ b = true → i < span x →
  awaits (Mem (vcom m) (<[i:=b]> (vaff m)) (vis m) (cbsy m)).
Proof.
  intros [[H1 H2] H] Hib Hi. split.
  - split; simpl; [done|]. intros HP. rewrite length_insert. auto.
  - intros HP. simpl. destruct (decide (i = u)) as [->|Hne].
    + destruct Hib as [? | ->]; [done|].
      apply list_lookup_total_insert_eq. specialize (H2 HP). lia.
    + rewrite list_lookup_total_insert_ne by done. auto.
Qed.

Lemma lpa_mark_short m d l :
  PRUNE = true → awaits m → (∀ v, v ∈ l → v < span x) →
  wpf (forEach l (lpa_mark vdom d)) (λ _ m', awaits m') m.
Proof.
  intros HP Hm Hl. apply (wpf_forEach awaits); [done|].
  intros v m1 Hv Hm1. specialize (Hl v Hv). pose proof Hm1 as [Hs1 _].
  unfold lpa_mark. apply wpf_bind. apply wpf_get_vdom; [done|]. intros dv _.
  case_decide; [|by apply wpf_ret].
  apply wpf_bind, wpf_wp. eapply wp_get_vaff; [by apply (vaff_lookup x PRUNE)|].
  destruct (vaff m1 !!! v); simpl; [by apply wpf_ret|].
  apply wpf_wp. apply wp_set_vaff; [destruct Hs1 as [_ Hva]; specialize (Hva HP); lia|].
  apply awaits_set_vaff; [done|by right|done].
Qed.

(** The iteration for another id yields a value or stops at a read of
    [vdom] out of bounds. *)
Lemma lpa_visit_short m w :
  awaits m → w < span x → w ≠ u →
  wpf (lpa_visit x vdom PRUNE w) (λ _ m', awaits m') m.
Proof.
  intros Hm Hw Hwu. pose proof Hm as [Hs _]. unfold lpa_visit.
  destruct (hasVertex x w) eqn:Hx; simpl; [|by apply wpf_ret].
  assert (present x w) as Hpw by done.
  assert (∀ v, v ∈ edges x w → v < span x) as He
    by (intros v Hv; by destruct (Hok w v Hpw Hv)).
  assert (wpf (d <- get_vdom vdom w;;
               c0 <- get_vcom w;;
               c <- foldM (lpa_scan vdom d) (edges x w) c0;;
               cu <- get_vcom w;;
               if decide (c = cu) then ret false else
               set_vcom w c;;;
               if negb PRUNE then ret true else
               set_vaff w false;;;
               forEach (edges x w) (lpa_mark vdom d);;; ret true)
              (λ _ m', awaits m') m) as Htail.
  { apply wpf_bind. apply wpf_get_vdom; [done|]. intros d _.
    apply wpf_bind, wpf_wp. eapply wp_get_vcom; [by eapply vcom_lookup|].
    apply wpf_bind. eapply wpf_mono; [by apply lpa_scan_short|].
    intros c m1 ->.
    apply wpf_bind, wpf_wp. eapply wp_get_vcom; [by eapply vcom_lookup|].
    case_decide; [by apply wpf_ret|].
    apply wpf_bind, wpf_wp. apply wp_set_vcom; [destruct Hs; lia|].
    pose proof (awaits_set_vcom m w c Hm) as Hm1.
    destruct (decide (PRUNE = true)) as [HP|HP].
    - rewrite HP at 1. simpl. apply wpf_bind, wpf_wp.
      apply wp_set_vaff; [simpl; destruct Hs as [_ H']; specialize (H' HP); lia|].
      apply wpf_bind. eapply wpf_mono.
      + apply lpa_mark_short; [done| |done].
        apply (awaits_set_vaff _ w false Hm1); [by left|done].
      + intros [] m' Hm'. by apply wpf_ret.
    - apply not_true_is_false in HP. rewrite HP at 1. simpl. by apply wpf_ret. }
  apply wpf_bind. destruct (decide (PRUNE = true)) as [HP|HP].
  - rewrite HP at 1. apply wpf_wp.
    eapply wp_get_vaff; [by apply (vaff_lookup x PRUNE)|].
    destruct (vaff m !!! w); simpl; [done|by apply wpf_ret].
  - apply not_true_is_false in HP. rewrite HP at 1. by apply wpf_ret.
Qed.

(** The iteration for [u] stops at the read of [vdom[u]]. *)
Lemma lpa_visit_fault m :
  awaits m → lpa_visit x vdom PRUNE u m = (m, Err (OutOfBounds Bvdom u)).
Proof.
  intros [Hs Hfl]. destruct Hpu as [Hu Hx]. unfold lpa_visit. rewrite Hx. simpl.
  assert ((if PRUNE then get_vaff u else ret true) m = (m, Val true)) as Ha.
  { destruct (decide (PRUNE = true)) as [HP|HP].
    - rewrite HP. unfold get_vaff, rd.
      rewrite (vaff_lookup x PRUNE m u Hs HP Hu). by rewrite (Hfl HP).
    - apply not_true_is_false in HP. by rewrite HP. }
  unfold bind at 1. rewrite Ha. simpl.
  unfold bind, get_vdom, rd. by rewrite lookup_ge_None_2.
Qed.

Lemma lpa_round_short us n0 m :
  awaits m → (∀ w, w ∈ us → w < span x) → u ∈ us →
  ∃ m' e, foldM (λ ndel w, b <- lpa_visit x vdom PRUNE w;;
                           ret (if b then S ndel else ndel)) us n0 m
          = (m', Err e) ∧ vdom_fault e.
Proof.
  revert n0 m. induction us as [|w us IH]; intros n0 m Hm Hus Hin.
  { by apply elem_of_nil in Hin. }
  simpl. destruct (decide (w = u)) as [->|Hwu].
  - exists m, (OutOfBounds Bvdom u). split.
    + unfold bind at 1. unfold bind at 1. by rewrite lpa_visit_fault.
    + exists u. split_and!; [done|by destruct Hpu|done].
  - destruct (lpa_visit_short m w Hm) as (m1 & r & Hrun & Hr);
      [apply Hus; left|done|].
    unfold bind at 1. unfold bind at 1. rewrite Hrun. destruct r as [b|e].
    + simpl. apply IH; [done| |].
      * intros v Hv. apply Hus. by right.
      * apply elem_of_cons in Hin as [->|Hin]; done.
    + by exists m1, e.
Qed.
End Vertex.
End ShortVdom.

(** X9: the label propagation does not compare the size of [vdom] with the
    span.  When [vdom] does not cover a vertex [u] of the graph, the first
    loop runs to its end, and the first round stops at a read of [vdom]
    out of bounds, at the latest in the iteration for [u], which reads
    [vdom[u]]. *)
Theorem short_vdom_is_read_past x vdom PRUNE sched fuel m u :
  graph_ok x → lpa_sized x PRUNE m → sched_in_span x sched → 0 < fuel →
  present x u → length vdom ≤ u → u ∈ sched 0 →
  ∃ m1 m' i,
    lpa_init x PRUNE m = (m1, Val tt) ∧
    splitDisconnectedCommunitiesLpaOmpW x vdom PRUNE sched fuel m
      = (m', Err (OutOfBounds Bvdom i)) ∧
    length vdom ≤ i ∧ i < span x.
Proof.
  intros Hok Hm Hs Hfuel Hpu Hshort Hin.
  destruct (lpa_init_from x PRUNE 0 (span x) m Hm ltac:(lia))
    as ([] & m1 & Hinit & Hm1 & _ & _ & Haff).
  assert (awaits x PRUNE u m1) as Haw.
  { split; [done|]. intros HP. rewrite (Haff HP), decide_True; [done|].
    destruct Hpu. lia. }
  destruct (lpa_round_short x vdom PRUNE Hok u Hpu Hshort (sched 0) 0 m1 Haw (Hs 0) Hin)
    as (m' & e & Hrun & i & Hi1 & Hi2 & ->).
  assert (lpa_init x PRUNE m = (m1, Val tt)) as Hinit' by exact Hinit.
  exists m1, m', i. split_and!; [done| |done|done].
  destruct fuel as [|fuel]; [lia|].
  unfold splitDisconnectedCommunitiesLpaOmpW. unfold bind at 1. rewrite Hinit'.
  simpl. unfold bind at 1. unfold lpa_round. by rewrite Hrun.
Qed.

Lemma short_vdom_is_read_past_witness :
  ∃ m1 m' i,
    lpa_init scenario true (mem0 6) = (m1, Val tt) ∧
    splitDisconnectedCommunitiesLpaOmpW scenario [0; 0; 0; 1] true
      (seq_sched scenario) 37 (mem0 6) = (m', Err (OutOfBounds Bvdom i)) ∧
    length [0; 0; 0; 1] ≤ i ∧ i < span scenario.
Proof.
  apply (short_vdom_is_read_past scenario [0; 0; 0; 1] true (seq_sched scenario) 37
           (mem0 6) 5).
  - by_computation.
  - unfold lpa_sized. simpl. lia.
  - intros r w Hw%elem_of_seq. simpl in *. lia.
  - lia.
  - by_computation.
  - simpl. lia.
  - apply elem_of_seq. simpl. lia.
Defined.

(** ** One result for every splitter *)

(** X10: on an undirected graph whose edges lead to vertices of the graph
    only, with [vdom] covering the span, any two of the splitters, each
    under its conditions ([splitter_ok]: every round of the label
    propagation runs each iteration once, one at a time; the traversing
    splitters have a thread and run their threads one after the other; for
    the breadth-first splitter the community ids of the vertices are below
    the span), on any buffers that cover the span, leave the same labels in
    the span of [vcom], not only the same grouping: the result depends
    neither on the splitter and its parameters nor on the contents of the
    buffers before the run. *)
Theorem splitters_same_labels s1 s2 x vdom fuel1 fuel2 m1 m2 :
  graph_ok x → symmetric x → vdom_ok x vdom →
  buffers_ok x s1 m1 → splitter_ok x vdom s1 → span x * span x < fuel1 →
  buffers_ok x s2 m2 → splitter_ok x vdom s2 → span x * span x < fuel2 →
  ∃ m1' m2',
    split s1 x vdom fuel1 m1 = (m1', Val tt) ∧
    split s2 x vdom fuel2 m2 = (m2', Val tt) ∧
    take (span x) (vcom m1') = take (span x) (vcom m2').
Proof.
  intros Hok Hsym Hdom Hbuf1 Hs1 Hfuel1 Hbuf2 Hs2 Hfuel2.
  destruct (split_run s1 x vdom fuel1 m1 Hok Hdom Hbuf1 Hs1 Hfuel1)
    as (m1' & Hrun1 & Hlen1 & _ & Ha1 & Hmin1).
  destruct (split_run s2 x vdom fuel2 m2 Hok Hdom Hbuf2 Hs2 Hfuel2)
    as (m2' & Hrun2 & Hlen2 & _ & Ha2 & Hmin2).
  exists m1', m2'. split; [done|]. split; [done|].
  destruct Hbuf1 as [Hvc1 _], Hbuf2 as [Hvc2 _].
  apply (span_labels_unique x vdom); [lia|lia|done|done|..].
  - apply Hmin1. by left.
  - apply Hmin2. by left.
Qed.

Lemma splitters_same_labels_witness :
  ∃ m1' m2',
    split (Lpa true (seq_sched scenario)) scenario scenario_vdom 37 (mem0 6)
      = (m1', Val tt) ∧
    split (Bfs 3) scenario scenario_vdom 37
      (Mem [9; 9; 9; 9; 9; 9; 9] [] (replicate 6 true) (replicate 6 true))
      = (m2', Val tt) ∧
    take (span scenario) (vcom m1') = take (span scenario) (vcom m2').
Proof.
  apply splitters_same_labels.
  - by_computation.
  - by_computation.
  - unfold vdom_ok. simpl. lia.
  - unfold buffers_ok. simpl. lia.
  - apply seq_sched_ok.
  - simpl. lia.
  - unfold buffers_ok. simpl. lia.
  - split; [lia|by_computation].
  - simpl. lia.
Defined.

(** ** Labels are representatives *)

(** The label of a vertex is a vertex of its community that carries
    itself as label. *)
Lemma min_rep_fixed x vdom (L : nat → nat) u :
  graph_ok x → (∀ w, present x w → min_rep x vdom w (L w)) → present x u →
  L u ≤ u ∧ present x (L u) ∧ vdom !! L u = vdom !! u ∧ L (L u) = L u.
Proof.
  intros Hok HL Hu. destruct (HL u Hu) as [Hr Hmin].
  pose proof (reach_present x vdom u (L u) Hok Hu Hr) as Hpc.
  split_and!; [by apply Hmin|done|by apply (reach_vdom x)|].
  destruct (HL (L u) Hpc) as [Hr' Hmin']. apply Nat.le_antisymm.
  - by apply Hmin'.
  - apply Hmin. by eapply rtc_trans.
Qed.

(** X11: on a graph whose edges lead to vertices of the graph only,
    undirected or, for the label propagation without pruning, directed as
    well, with [vdom] and the buffers covering the span and the splitter
    under its conditions ([splitter_ok]; among them, for the breadth-first
    splitter, community ids of the vertices below the span): after the
    splitter the label [c] of every id [u] of the span is an id of the
    span, at most [u], that carries itself as label:
    [vcom[vcom[u]] == vcom[u]]; the label of a vertex is a vertex of the
    same community. *)
Theorem labels_are_representatives s x vdom fuel m :
  graph_ok x → undirected_or_plain x s → vdom_ok x vdom →
  buffers_ok x s m → splitter_ok x vdom s → span x * span x < fuel →
  ∃ m', split s x vdom fuel m = (m', Val tt) ∧
        ∀ u, u < span x →
          ∃ c, vcom m' !! u = Some c ∧ c ≤ u ∧ vcom m' !! c = Some c ∧
               (present x u → present x c ∧ vdom !! c = vdom !! u).
Proof.
  intros Hok Hcase Hdom Hbuf Hs Hfuel.
  destruct (split_run s x vdom fuel m Hok Hdom Hbuf Hs Hfuel)
    as (m' & Hrun & Hlen & _ & Habs & Hmin).
  specialize (Hmin Hcase). destruct Hbuf as [Hvc _].
  exists m'. split; [done|]. intros u Hu. exists (lab m' u).
  destruct (decide (present x u)) as [Hp|Hp].
  - destruct (min_rep_fixed x vdom (lab m') u Hok Hmin Hp) as (Hle & Hpc & Hd & Hfix).
    split_and!; [apply lab_lookup; lia|done| |done].
    rewrite lab_lookup by lia. by rewrite Hfix.
  - rewrite (Habs u Hu Hp). split_and!; [|done| |done].
    + rewrite lab_lookup by lia. by rewrite (Habs u Hu Hp).
    + rewrite lab_lookup by lia. by rewrite (Habs u Hu Hp).
Qed.

Lemma labels_are_representatives_witness :
  ∃ m', split (Lpa false (seq_sched chain)) chain [0; 0; 0; 0; 0] 26 (mem0 5)
          = (m', Val tt) ∧
        ∀ u, u < span chain →
          ∃ c, vcom m' !! u = Some c ∧ c ≤ u ∧ vcom m' !! c = Some c ∧
               (present chain u →
                present chain c ∧ [0; 0; 0; 0; 0] !! c = [0; 0; 0; 0; 0] !! u).
Proof.
  apply labels_are_representatives.
  - by_computation.
  - right. by eexists.
  - unfold vdom_ok. simpl. lia.
  - unfold buffers_ok. simpl. split; [lia|congruence].
  - apply seq_sched_ok.
  - simpl. lia.
Defined.

(** ** The output of a splitter as community assignment *)

(** The parameters of a splitter alone: every round of the label
    propagation runs each iteration once; the traversing splitters have a
    thread. *)
Definition threads_ok (x : graph) (s : splitter) : Prop :=
  match s with
  | Lpa _ sched => sched_ok x sched
  | Dfs T => 0 < T
  | Bfs T => 0 < T
  end.

(** X12: on a graph whose edges lead to vertices of the graph only,
    undirected or, when both runs are the label propagation without
    pruning, directed as well: the output [vcom] of a splitter that ran
    under its conditions ([vdom] and the buffers covering the span,
    [splitter_ok]) is a community assignment on which a second run, by a
    splitter of the same kinds, on any buffers covering the span, completes
    and splits no further.  Labels are ids of the span, so the busy flags
    of the breadth-first splitter need no condition on them in the second
    run ([threads_ok] only), and the second run leaves in the span the
    labels it was given. *)
Theorem split_output_splits_no_further s1 s2 x vdom fuel m m0 :
  graph_ok x → undirected_or_plain x s1 → undirected_or_plain x s2 →
  vdom_ok x vdom →
  buffers_ok x s1 m → splitter_ok x vdom s1 →
  buffers_ok x s2 m0 → threads_ok x s2 →
  span x * span x < fuel →
  ∃ m1 m2,
    split s1 x vdom fuel m = (m1, Val tt) ∧
    split s2 x (vcom m1) fuel m0 = (m2, Val tt) ∧
    take (span x) (vcom m2) = take (span x) (vcom m1).
Proof.
  intros Hok Hcase1 Hcase2 Hdom Hbuf Hs Hbuf0 Hs2 Hfuel.
  destruct (split_run s1 x vdom fuel m Hok Hdom Hbuf Hs Hfuel)
    as (m1 & Hrun1 & Hlen1 & _ & Habs1 & Hmin1).
  specialize (Hmin1 Hcase1).
  assert (span x ≤ length (vcom m1)) as Hvc1 by (destruct Hbuf; lia).
  assert (∀ w, present x w → ∃ c, vcom m1 !! w = Some c ∧ min_rep x vdom w c) as HL.
  { intros w Hw. exists (lab m1 w). split; [|by apply Hmin1].
    apply lab_lookup. destruct Hw. lia. }
  assert (splitter_ok x (vcom m1) s2) as Hs'.
  { destruct s2 as [P sched|T|T]; simpl in *; try done.
    split; [done|]. intros u Hu.
    destruct (Hmin1 u Hu) as [Hr _].
    by destruct (reach_present x vdom u _ Hok Hu Hr). }
  destruct (split_run s2 x (vcom m1) fuel m0 Hok Hvc1 Hbuf0 Hs' Hfuel)
    as (m2 & Hrun2 & Hlen2 & _ & Habs2 & Hmin2).
  specialize (Hmin2 Hcase2).
  exists m1, m2. split; [done|]. split; [done|].
  apply (span_labels_unique x vdom); [destruct Hbuf0; lia|lia|done|done| |done].
  intros u Hu. apply (relabel_min_rep x vdom Hok (vcom m1)); [done|done|by apply Hmin2].
Qed.

Lemma split_output_splits_no_further_witness :
  ∃ m1 m2,
    split (Lpa true (seq_sched scenario)) scenario [7; 7; 7; 9; 9; 7] 37 (mem0 6)
      = (m1, Val tt) ∧
    split (Bfs 2) scenario (vcom m1) 37 (mem0 6) = (m2, Val tt) ∧
    take (span scenario) (vcom m2) = take (span scenario) (vcom m1).
Proof.
  apply split_output_splits_no_further.
  - by_computation.
  - left. by_computation.
  - left. by_computation.
  - unfold vdom_ok. simpl. lia.
  - unfold buffers_ok. simpl. lia.
  - apply seq_sched_ok.
  - unfold buffers_ok. simpl. lia.
  - simpl. lia.
  - simpl. lia.
Defined.

(** ** The visited flags of the traversing splitters *)

Lemma split_result_vis x vdom m m' :
  split_result x vdom m m' →
  ∀ u, u < span x → vis m' !! u = Some (hasVertex x u).
Proof.
  intros (((_ & Hsz) & _ & Hvi) & _ & _ & Hall & _) u Hu.
  rewrite (list_lookup_lookup_total_lt (vis m') u) by lia. f_equal.
  destruct (hasVertex x u) eqn:Hx.
  - by apply Hall.
  - destruct (vis m' !!! u) eqn:E; [|done].
    destruct (Hvi u Hu E) as [_ ?]. congruence.
Qed.

(** X13: on every graph whose edges lead to vertices of the graph only,
    undirected or not, with [vdom], [vcom] and [vis] covering the span and
    at least one thread (threads one after the other), the depth-first
    splitter ends with [vis[u] == x.hasVertex(u)] for every id [u] of the
    span; so does the breadth-first splitter when [cbsy] covers the span
    too and the community ids of the vertices, which index [cbsy], are
    below the span.  A traversal has visited every vertex, and no other
    id. *)
Theorem visited_flags_mark_the_vertices x vdom fuel T m :
  graph_ok x → vdom_ok x vdom → 0 < T → span x < fuel →
  (buffers_ok x (Dfs T) m →
   ∃ m', splitDisconnectedCommunitiesDfsOmpW x vdom fuel T m = (m', Val tt) ∧
         ∀ u, u < span x → vis m' !! u = Some (hasVertex x u)) ∧
  (buffers_ok x (Bfs T) m → com_in_span x vdom →
   ∃ m', splitDisconnectedCommunitiesBfsOmpW x vdom fuel T m = (m', Val tt) ∧
         ∀ u, u < span x → vis m' !! u = Some (hasVertex x u)).
Proof.
  intros Hok Hdom HT Hfuel. split.
  - intros Hbuf.
    destruct (dfs_run x vdom Hok Hdom fuel T Hfuel m Hbuf HT)
      as ([] & m' & Hrun & Hres).
    exists m'. split; [done|]. by eapply split_result_vis.
  - intros (Hvc & Hvis & Hcb) Hcom.
    destruct (bfs_run x vdom Hok Hdom fuel T Hfuel Hcom m (conj Hvc Hvis) Hcb HT)
      as ([] & m' & Hrun & Hres & _).
    exists m'. split; [done|]. by eapply split_result_vis.
Qed.

Lemma visited_flags_mark_the_vertices_witness :
  (∃ m', splitDisconnectedCommunitiesDfsOmpW scenario_holes
           [0; 0; 0; 1; 1; 0; 0; 0] 9 2 (mem0 8) = (m', Val tt) ∧
         ∀ u, u < span scenario_holes →
              vis m' !! u = Some (hasVertex scenario_holes u)) ∧
  (∃ m', splitDisconnectedCommunitiesBfsOmpW scenario_holes
           [0; 0; 0; 1; 1; 0; 0; 0] 9 2 (mem0 8) = (m', Val tt) ∧
         ∀ u, u < span scenario_holes →
              vis m' !! u = Some (hasVertex scenario_holes u)).
Proof.
  destruct (visited_flags_mark_the_vertices scenario_holes
              [0; 0; 0; 1; 1; 0; 0; 0] 9 2 (mem0 8)) as [Hdfs Hbfs].
  - by_computation.
  - unfold vdom_ok. simpl. lia.
  - lia.
  - simpl. lia.
  - split.
    + apply Hdfs. unfold buffers_ok. simpl. lia.
    + apply Hbfs; [unfold buffers_ok; simpl; lia|by_computation].
Defined.

(** ** The depth-first splitter with any number of threads *)

(** X14: on an undirected graph, two runs of the depth-first splitter in which
    every thread has passed the whole span leave the same labels in the
    span, whatever their numbers of threads, however the iterations of the
    threads interleave, and whatever the buffers held before. *)
Theorem dfs_one_result x vdom T1 T2 sched1 sched2 fuel1 fuel2 m1 m2 :
  graph_ok x → symmetric x → vdom_ok x vdom →
  buffers_ok x (Dfs T1) m1 → buffers_ok x (Dfs T2) m2 →
  0 < T1 → 0 < T2 → span x < fuel1 → span x < fuel2 →
  ∃ ps1 ps2 m1' m2',
    dfs_interleaved x vdom fuel1 T1 sched1 m1 = (m1', Val ps1) ∧
    dfs_interleaved x vdom fuel2 T2 sched2 m2 = (m2', Val ps2) ∧
    (ps1 = replicate T1 (span x) → ps2 = replicate T2 (span x) →
     take (span x) (vcom m1') = take (span x) (vcom m2')).
Proof.
  intros Hok Hsym Hdom Hbuf1 Hbuf2 HT1 HT2 Hf1 Hf2.
  destruct (dfs_interleaved_run x vdom Hok Hdom fuel1 T1 Hf1 sched1 m1 Hbuf1 HT1)
    as (ps1 & m1' & Hrun1 & Hres1).
  destruct (dfs_interleaved_run x vdom Hok Hdom fuel2 T2 Hf2 sched2 m2 Hbuf2 HT2)
    as (ps2 & m2' & Hrun2 & Hres2).
  exists ps1, ps2, m1', m2'. split; [done|]. split; [done|]. intros Hp1 Hp2.
  destruct (Hres1 Hp1) as ((Hsz1 & Hun1 & Hvi1) & Hlen1 & _ & Hall1 & Hfull1).
  destruct (Hres2 Hp2) as ((Hsz2 & Hun2 & Hvi2) & Hlen2 & _ & Hall2 & Hfull2).
  destruct Hbuf1 as [Hvc1 _], Hbuf2 as [Hvc2 _].
  apply (span_labels_unique x vdom); [lia|lia|..].
  - intros u Hu Hnu. apply Hun1; [done|].
    destruct (vis m1' !!! u) eqn:E; [|done]. by destruct Hnu; apply Hvi1.
  - intros u Hu Hnu. apply Hun2; [done|].
    destruct (vis m2' !!! u) eqn:E; [|done]. by destruct Hnu; apply Hvi2.
  - intros u Hu. apply (Hfull1 Hsym); [done|by apply Hall1].
  - intros u Hu. apply (Hfull2 Hsym); [done|by apply Hall2].
Qed.

Lemma dfs_one_result_witness :
  ∃ ps1 ps2 m1' m2',
    dfs_interleaved scenario scenario_vdom 37 2
      [0; 1; 0; 1; 0; 1; 0; 1; 0; 1; 0; 1] (mem0 6) = (m1', Val ps1) ∧
    dfs_interleaved scenario scenario_vdom 37 3 (in_turn scenario 3) (mem0 6)
      = (m2', Val ps2) ∧
    (ps1 = replicate 2 (span scenario) → ps2 = replicate 3 (span scenario) →
     take (span scenario) (vcom m1') = take (span scenario) (vcom m2')).
Proof.
  apply dfs_one_result.
  - by_computation.
  - by_computation.
  - unfold vdom_ok. simpl. lia.
  - unfold buffers_ok. simpl. lia.
  - unfold buffers_ok. simpl. lia.
  - lia.
  - lia.
  - simpl. lia.
  - simpl. lia.
Defined.

(** ** The order of the edge keys *)

(** The graphs [x] and [x'] have the same vertices, and every vertex has
    the same neighbours in both: [forEachEdgeKey] may pass them in another
    order, and more than once. *)
Definition same_neighbours (x x' : graph) : Prop :=
  span x' = span x ∧
  (∀ u, hasVertex x' u = hasVertex x u) ∧
  (∀ u v, present x u → v ∈ edges x' u ↔ v ∈ edges x u).

Section Neighbours.
Variables (x x' : graph) (vdom : list nat).
Hypothesis Hsame : same_neighbours x x'.

Lemma same_present u : present x' u ↔ present x u.
Proof. destruct Hsame as (Hs & Hv & _). unfold present. by rewrite Hs, Hv. Qed.

Lemma same_graph_ok : graph_ok x → graph_ok x'.
Proof.
  intros Hok u v Hu%same_present Hv. apply same_present.
  apply (Hok u v Hu). by apply Hsame.
Qed.

Lemma same_symmetric : graph_ok x → symmetric x → symmetric x'.
Proof.
  intros Hok Hsym u v Hu%same_present Hv. apply Hsame in Hv; [|done].
  apply Hsame; [by apply (Hok u v)|]. by apply Hsym.
Qed.

Lemma same_sedge u v : sedge x' vdom u v ↔ sedge x vdom u v.
Proof.
  unfold sedge. rewrite same_present. split.
  - intros (Hu & Hv & Hd). split_and!; [done| |done]. by apply Hsame.
  - intros (Hu & Hv & Hd). split_and!; [done| |done]. by apply Hsame.
Qed.

Lemma same_reach u v : reach x' vdom u v ↔ reach x vdom u v.
Proof.
  split; apply rtc_subrel; intros a b Hab; by apply same_sedge.
Qed.

Lemma same_min_rep u c : min_rep x' vdom u c ↔ min_rep x vdom u c.
Proof.
  unfold min_rep. rewrite same_reach. split.
  - intros [Hr Hmin]. split; [done|]. intros w Hw. by apply Hmin, same_reach.
  - intros [Hr Hmin]. split; [done|]. intros w Hw. by apply Hmin, same_reach.
Qed.
End Neighbours.

(** X15: the labels that a splitter leaves in the span (on an undirected graph,
    or the label propagation without pruning on any graph) depend on the
    neighbours of each vertex only: on a graph whose edge keys come in
    another order, or more than once, the splitter leaves the same labels. *)
Theorem labels_depend_on_neighbours s x x' vdom fuel m :
  graph_ok x → undirected_or_plain x s → vdom_ok x vdom → same_neighbours x x' →
  buffers_ok x s m → splitter_ok x vdom s → span x * span x < fuel →
  ∃ m1 m2,
    split s x vdom fuel m = (m1, Val tt) ∧
    split s x' vdom fuel m = (m2, Val tt) ∧
    take (span x) (vcom m1) = take (span x) (vcom m2).
Proof.
  intros Hok Hcase Hdom Hsame Hbuf Hs Hfuel.
  pose proof Hsame as (Hspan & Hv & He).
  destruct (split_run s x vdom fuel m Hok Hdom Hbuf Hs Hfuel)
    as (m1 & Hrun1 & Hlen1 & _ & Ha1 & Hmin1).
  destruct (split_run s x' vdom fuel m) as (m2 & Hrun2 & Hlen2 & _ & Ha2 & Hmin2).
  - by apply (same_graph_ok x).
  - unfold vdom_ok. by rewrite Hspan.
  - destruct Hbuf as [Hvc Hb]. split; [by rewrite Hspan|].
    destruct s; rewrite Hspan; done.
  - destruct s as [P sched|T|T]; simpl in *.
    + intros r. rewrite Hspan. apply Hs.
    + done.
    + destruct Hs as [HT Hcom]. split; [done|].
      intros u Hu. apply (same_present x x' Hsame) in Hu. rewrite Hspan. by apply Hcom.
  - by rewrite Hspan.
  - exists m1, m2. split; [done|]. split; [done|].
    destruct Hbuf as [Hvc _].
    apply (span_labels_unique x vdom); [lia|lia|done|..].
    + intros u Hu Hnu. apply Ha2; [by rewrite Hspan|].
      by rewrite (same_present x x' Hsame).
    + by apply Hmin1.
    + intros u Hu. apply (same_min_rep x x' vdom Hsame). apply Hmin2.
      * destruct Hcase as [Hsym|Hplain]; [left|by right].
        by apply (same_symmetric x).
      * by apply (same_present x x' Hsame).
Qed.

(** The scenario with the edge keys in another order, some of them
    twice. *)
Definition scenario_shuffled : graph :=
  graph_of 6 [] [[1; 1]; [2; 0; 2]; [1]; [4]; [3; 3]; []].

Lemma labels_depend_on_neighbours_witness :
  ∃ m1 m2,
    split (Dfs 2) scenario scenario_vdom 37 (mem0 6) = (m1, Val tt) ∧
    split (Dfs 2) scenario_shuffled scenario_vdom 37 (mem0 6) = (m2, Val tt) ∧
    take (span scenario) (vcom m1) = take (span scenario) (vcom m2).
Proof.
  apply labels_depend_on_neighbours.
  - by_computation.
  - left. by_computation.
  - unfold vdom_ok. simpl. lia.
  - split; [done|]. split; [done|].
    intros u v [Hu _]. simpl in Hu.
    destruct u as [|[|[|[|[|[|u]]]]]]; simpl; [..|lia];
      rewrite ?elem_of_cons, ?elem_of_nil; tauto.
  - unfold buffers_ok. simpl. lia.
  - simpl. lia.
  - simpl. lia.
Defined.

(** ** The breadth-first splitter when its threads run at the same time *)

Section BfsRace.
Variables (x : graph) (vdom : list nat).
Hypothesis Hok : graph_ok x.
Hypothesis Hdom : vdom_ok x vdom.
Variable fuel : nat.
Hypothesis Hfuel : span x < fuel.
Hypothesis Hcom : com_in_span x vdom.

(** A thread between the two blocks of a call [fl(u)] has claimed the
    community of [u]: [u] is an unvisited vertex, the label it has read is
    [u], and the busy flag of the community is set. *)
Definition claim_ok (m : mem) (th : thread) : Prop :=
  match claimed th with
  | Some (u, dc) =>
      present x u ∧ dc = (com vdom u, u) ∧
      vis m !!! u = false ∧ cbsy m !!! com vdom u = true
  | None => True
  end.

(** The thread holds the claim of the community [d]. *)
Definition holds (th : thread) (d : nat) : Prop :=
  ∃ u c, claimed th = Some (u, (d, c)).

(** No two threads hold the claim of one community. *)
Definition exclusive (ths : list thread) : Prop :=
  ∀ i j thi thj d,
    ths !! i = Some thi → ths !! j = Some thj → holds thi d → holds thj d → i = j.

(** Every label reaches its vertex inside the community. *)
Definition rooted (m : mem) : Prop :=
  ∀ w, w < span x → reach x vdom (lab m w) w.

(** What holds between the blocks of the threads. *)
Definition race_inv (ths : list thread) (m : mem) : Prop :=
  split_inv x m ∧ span x ≤ length (cbsy m) ∧
  (∀ j th, ths !! j = Some th → claim_ok m th ∧ ∀ u, u ∈ todo th → u < span x) ∧
  exclusive ths ∧ rooted m.

Lemma race_inv_update ths m t th th' m' :
  race_inv ths m → ths !! t = Some th →
  split_inv x m' → span x ≤ length (cbsy m') →
  (∀ j thj, j ≠ t → ths !! j = Some thj → claim_ok m thj → claim_ok m' thj) →
  claim_ok m' th' → (∀ u, u ∈ todo th' → u ∈ todo th) →
  (∀ d j thj, holds th' d → j ≠ t → ths !! j = Some thj → ¬ holds thj d) →
  rooted m' →
  race_inv (<[t:=th']> ths) m'.
Proof.
  intros (_ & _ & Hths & Hex & _) Ht Hinv' Hcb' Hoth Hnew Htodo Hfree Hroot'.
  assert (t < length ths) as Hlt by (by eapply lookup_lt_Some).
  split_and!; [done|done| | |done].
  - intros j thj Hj. destruct (decide (j = t)) as [->|Hne].
    + rewrite list_lookup_insert_eq in Hj by done. injection Hj as <-.
      split; [done|]. intros u Hu. apply (Hths t th Ht). by apply Htodo.
    + rewrite list_lookup_insert_ne in Hj by done.
      destruct (Hths j thj Hj) as [Hc Htd]. split; [|done]. by apply (Hoth j).
  - intros i j thi thj d Hi Hj Hhi Hhj.
    destruct (decide (i = t)) as [->|Hit]; destruct (decide (j = t)) as [->|Hjt];
      [done|..].
    + rewrite list_lookup_insert_eq in Hi by done. injection Hi as <-.
      rewrite list_lookup_insert_ne in Hj by done.
      by destruct (Hfree d j thj Hhi Hjt Hj).
    + rewrite list_lookup_insert_eq in Hj by done. injection Hj as <-.
      rewrite list_lookup_insert_ne in Hi by done.
      by destruct (Hfree d i thi Hhj Hit Hi).
    + rewrite list_lookup_insert_ne in Hi by done.
      rewrite list_lookup_insert_ne in Hj by done.
      by apply (Hex i j thi thj d).
Qed.

(** A thread that gives up its vertex, or has none left. *)
Lemma race_inv_pass ths m t th us :
  race_inv ths m → ths !! t = Some th → (∀ u, u ∈ us → u ∈ todo th) →
  race_inv (<[t:=Thread us None]> ths) m.
Proof.
  intros Hinv Ht Hus. pose proof Hinv as (Hsp & Hcb & _ & _ & Hroot).
  apply (race_inv_update ths m t th); try done.
  intros d j thj (u & c & Hh). done.
Qed.

(** The first block of [fl]: lines 119-121. *)
Lemma fl_claim_race ths m t u us :
  race_inv ths m → ths !! t = Some (Thread (u :: us) None) →
  wp (fl_claim x vdom u)
     (λ r m', race_inv (<[t:=Thread us (match r with
                                         | Some dc => Some (u, dc)
                                         | None => None
                                         end)]> ths) m') m.
Proof.
  intros Hinv Ht. pose proof Hinv as ((Hsz & Hun & Hvi) & Hcb & Hths & Hex & Hroot).
  assert (race_inv (<[t:=Thread us None]> ths) m) as Hpass.
  { apply (race_inv_pass ths m t _ us Hinv Ht). intros v Hv. simpl. by right. }
  assert (u < span x) as Hu by (apply (Hths t _ Ht); simpl; left).
  unfold fl_claim. destruct (hasVertex x u) eqn:Hx; simpl; [|by apply wp_ret].
  assert (present x u) as Hpu by done.
  apply wp_bind. eapply wp_get_vis; [by apply (vis_lookup x)|].
  destruct (vis m !!! u) eqn:Hvu; [by apply wp_ret|].
  apply wp_bind. eapply wp_get_vdom; [by apply (vdom_lookup x)|].
  apply wp_bind. eapply wp_get_vcom; [by apply (trav_vcom_lookup x)|].
  pose proof (Hcom u Hpu) as Hd.
  assert (cbsy m !! com vdom u = Some (cbsy m !!! com vdom u)) as Hlk
    by (apply list_lookup_lookup_total_lt; lia).
  apply wp_bind. eapply wp_get_cbsy; [exact Hlk|].
  destruct (cbsy m !!! com vdom u) eqn:Hbusy; [by apply wp_ret|].
  apply wp_bind. unfold exchange_cbsy. apply wp_bind.
  eapply wp_get_cbsy; [exact Hlk|]. apply wp_bind. apply wp_set_cbsy; [lia|].
  apply wp_ret. apply wp_ret.
  rewrite (Hun u Hu Hvu).
  apply (race_inv_update ths m t (Thread (u :: us) None)); try done.
  - simpl. rewrite length_insert. lia.
  - intros j thj Hjt Hj. unfold claim_ok.
    destruct (claimed thj) as [[u' dc']|]; [|done].
    intros (Hpu' & Hdc & Hvu' & Hb'). split_and!; try done. simpl.
    destruct (decide (com vdom u' = com vdom u)) as [Heq|Hne].
    + rewrite Heq. apply list_lookup_total_insert_eq. lia.
    + by rewrite list_lookup_total_insert_ne.
  - unfold claim_ok. simpl. split_and!; try done.
    apply list_lookup_total_insert_eq. lia.
  - intros v Hv. simpl in *. by right.
  - intros d j thj (u0 & c0 & Hh) Hjt Hj (u' & c' & Hh'). simpl in Hh.
    injection Hh as <- <- <-.
    destruct (Hths j thj Hj) as [Hcl _]. unfold claim_ok in Hcl. rewrite Hh' in Hcl.
    destruct Hcl as (_ & [= Hd' _] & _ & Hb'). rewrite <- Hd' in Hb'. congruence.
Qed.

(** The second block of [fl]: lines 122-126. *)
Lemma fl_work_race ths m t us u dc :
  race_inv ths m → ths !! t = Some (Thread us (Some (u, dc))) →
  wp (fl_work x vdom fuel u dc)
     (λ _ m', race_inv (<[t:=Thread us None]> ths) m') m.
Proof.
  intros Hinv Ht. pose proof Hinv as (Hsp & Hcb & Hths & Hex & Hroot).
  pose proof Hsp as (Hsz & Hun & Hvi).
  destruct (Hths t _ Ht) as [Hcl _]. unfold claim_ok in Hcl. simpl in Hcl.
  destruct Hcl as (Hpu & -> & Hvu & Hbusy). pose proof Hpu as [Hu _].
  pose proof (Hcom u Hpu) as Hd.
  unfold fl_work. simpl. apply wp_bind.
  eapply wp_mono.
  { apply (bfs_spec x vdom Hok Hdom (com vdom u) u fuel u m); try done.
    pose proof (unvis_le_span x m). lia. }
  intros [] m2 Hp.
  assert (lab m u = u) as Hlu by (by apply Hun).
  assert (trav_post x vdom (com vdom u) (lab m u) [u] [] m m2) as Hp'
    by (by rewrite Hlu).
  destruct (split_step x vdom Hok Hdom u m m2 Hsp Hpu Hvu Hp')
    as (Hsp2 & _ & Hvu2 & _).
  destruct Hp as ((Hl1 & Hl2 & Hcb2 & _ & Hmono & Hlab) & Hr & Hclo & _).
  assert (∀ w, newly m m2 w → com vdom w = com vdom u ∧ reach x vdom u w) as Hnew.
  { intros w Hw. destruct (Hr w Hw) as (Hdw & s & Hs & Hsw). split; [done|].
    rewrite app_nil_r in Hs. by apply list_elem_of_singleton in Hs as ->. }
  apply wp_set_cbsy; [rewrite Hcb2; lia|].
  apply (race_inv_update ths m t (Thread us (Some (u, (com vdom u, u))))); try done.
  - simpl. rewrite length_insert, Hcb2. done.
  - intros j thj Hjt Hj. unfold claim_ok.
    destruct (claimed thj) as [[u' dc']|] eqn:Hcj; [|done].
    intros (Hpu' & Hdc & Hvu' & Hb'). subst dc'.
    assert (com vdom u' ≠ com vdom u) as Hne.
    { intros Heq. apply Hjt. apply (Hex j t thj _ (com vdom u) Hj Ht).
      - exists u', u'. by rewrite Hcj, Heq.
      - by exists u, u. }
    split_and!; try done; simpl.
    + destruct (vis m2 !!! u') eqn:E; [|done].
      destruct (Hnew u') as [? _]; [by split|done].
    + rewrite list_lookup_total_insert_ne by done. by rewrite Hcb2.
  - intros d j thj (u0 & c0 & Hh). done.
  - intros w Hw. change (reach x vdom (lab m2 w) w). rewrite Hlab. case_decide as Hn.
    + by apply Hnew.
    + by apply Hroot.
Qed.

Lemma thread_step_race ths m t th :
  race_inv ths m → ths !! t = Some th →
  wp (thread_step x vdom fuel th) (λ th' m', race_inv (<[t:=th']> ths) m') m.
Proof.
  intros Hinv Ht. unfold thread_step. destruct th as [td [[u dc]|]]; simpl.
  - apply wp_bind. eapply wp_mono; [by apply (fl_work_race ths m t td u dc)|].
    intros [] m' Hinv'. by apply wp_ret.
  - destruct td as [|u us].
    + apply wp_ret. by rewrite list_insert_id.
    + apply wp_bind. eapply wp_mono; [by apply (fl_claim_race ths m t u us)|].
      intros r m' Hinv'. by apply wp_ret.
Qed.

Lemma run_threads_race sched ths m :
  race_inv ths m →
  wp (run_threads x vdom fuel sched ths) (λ ths' m', race_inv ths' m') m.
Proof.
  revert ths m. induction sched as [|t sched IH]; intros ths m Hinv; simpl.
  - by apply wp_ret.
  - destruct (ths !! t) as [th|] eqn:Ht; [|by apply IH].
    apply wp_bind. eapply wp_mono; [by apply thread_step_race|].
    intros th' m' Hinv'. by apply IH.
Qed.

Lemma bfs_order_in_span t T u : t < T → u ∈ bfs_order x t T → u < span x.
Proof.
  intros Ht. assert (bfs_offset x t T ≤ span x) as Hub.
  { unfold bfs_offset. apply Nat.Div0.div_le_upper_bound. nia. }
  unfold bfs_order. intros [Hin|Hin]%elem_of_app; apply elem_of_seq in Hin; lia.
Qed.

(** However the blocks of the threads interleave, the run ends, and in the
    memory and the threads it ends with the invariant holds. *)
Lemma bfs_interleaved_race T sched m :
  buffers_ok x (Bfs T) m →
  wp (bfs_interleaved x vdom fuel T sched) (λ ths m', race_inv ths m') m.
Proof.
  intros (Hvc & Hvi & Hcb). unfold bfs_interleaved, bfs_init. apply wp_bind.
  eapply wp_mono; [apply (bfs_init_from x fuel Hfuel 0 (span x)); [done|done|lia]|].
  intros [] m1 (Hsz1 & Hlen1 & Hlenc1 & Hlab1 & Hvis1 & Hcb1).
  apply run_threads_race. split_and!.
  - split_and!; [done|..].
    + intros w Hw _. rewrite Hlab1, decide_True by lia. done.
    + intros w Hw Hv. rewrite Hvis1, decide_True in Hv by lia. done.
  - lia.
  - intros j th Hj. apply list_lookup_fmap_Some in Hj as (t & -> & Ht).
    apply lookup_seq in Ht as [-> Ht]. split; [done|].
    intros u Hu. simpl in Hu. by eapply bfs_order_in_span.
  - intros i j thi thj d Hi _ (u & c & Hh).
    apply list_lookup_fmap_Some in Hi as (t & -> & _). done.
  - intros w Hw. rewrite Hlab1, decide_True by lia. done.
Qed.
End BfsRace.

(** X16: however the two blocks of the calls of [fl] of the threads interleave
    (vectors covering the span, community ids below the span), the
    breadth-first splitter ends without a fault, and at every point of the
    run no two threads hold the claim of one community: the exchange on
    [cbsy[d]] lets one thread at a time pass, and while a thread is between
    the blocks of a call for a vertex of the community [d], the flag
    [cbsy[d]] is set. *)
Theorem bfs_claims_exclude x vdom fuel T sched m :
  graph_ok x → vdom_ok x vdom → buffers_ok x (Bfs T) m → com_in_span x vdom →
  span x < fuel →
  ∃ m' ths,
    bfs_interleaved x vdom fuel T sched m = (m', Val ths) ∧
    exclusive ths ∧
    ∀ t th d, ths !! t = Some th → holds th d → cbsy m' !! d = Some true.
Proof.
  intros Hok Hdom Hbuf Hcom Hfuel.
  destruct (bfs_interleaved_race x vdom Hok Hdom fuel Hfuel Hcom T sched m Hbuf)
    as (ths & m' & Hrun & _ & Hcb & Hths & Hex & _).
  exists m', ths. split; [done|]. split; [done|].
  intros t th d Ht (u & c & Hh). destruct (Hths t th Ht) as [Hcl _].
  unfold claim_ok in Hcl. rewrite Hh in Hcl.
  destruct Hcl as (Hpu & [= -> _] & _ & Hb).
  rewrite <- Hb. apply list_lookup_lookup_total_lt.
  specialize (Hcom u Hpu). lia.
Qed.

Lemma bfs_claims_exclude_witness :
  ∃ m' ths,
    bfs_interleaved islands [0; 0; 0; 0; 0] 26 2 [0; 1; 0; 1] (mem0 5)
      = (m', Val ths) ∧
    exclusive ths ∧
    ∀ t th d, ths !! t = Some th → holds th d → cbsy m' !! d = Some true.
Proof.
  apply bfs_claims_exclude.
  - by_computation.
  - unfold vdom_ok. simpl. lia.
  - unfold buffers_ok. simpl. lia.
  - by_computation.
  - simpl. lia.
Defined.

(** X17: on a graph whose edges lead to vertices of the graph only, with
    [vdom], [vcom], [vis] and [cbsy] covering the span and the community
    ids of the vertices below the span: however the two blocks of the calls
    of [fl] of the threads interleave, the breadth-first splitter ends and
    never merges two pieces: the label of every id of the span reaches the
    id inside the community, so that, if the graph is also undirected, two
    ids of the span with the same label are connected inside a community;
    and an unvisited id carries itself as label.  (What the threads can
    lose is a piece: its vertices stay unvisited.) *)
Theorem bfs_race_never_merges x vdom fuel T sched m :
  graph_ok x → vdom_ok x vdom → buffers_ok x (Bfs T) m → com_in_span x vdom →
  span x < fuel →
  ∃ m' ths,
    bfs_interleaved x vdom fuel T sched m = (m', Val ths) ∧
    (∀ u, u < span x → ∃ c, vcom m' !! u = Some c ∧ reach x vdom c u) ∧
    (∀ u, u < span x → vis m' !! u = Some false → vcom m' !! u = Some u) ∧
    (symmetric x → no_merge x vdom m').
Proof.
  intros Hok Hdom Hbuf Hcom Hfuel.
  destruct (bfs_interleaved_race x vdom Hok Hdom fuel Hfuel Hcom T sched m Hbuf)
    as (ths & m' & Hrun & ((Hvc & Hvi) & Hun & Hvp) & _ & _ & _ & Hroot).
  assert (∀ u, u < span x → vcom m' !! u = Some (lab m' u)) as Hlk
    by (intros u Hu; apply lab_lookup; lia).
  exists m', ths. split; [done|]. split_and!.
  - intros u Hu. exists (lab m' u). split; [by apply Hlk|by apply Hroot].
  - intros u Hu Hv. rewrite Hlk by done. f_equal. apply Hun; [done|].
    by apply list_lookup_total_correct.
  - intros Hsym u v Hu Hv Heq. rewrite !Hlk in Heq by done. injection Heq as Heq.
    eapply rtc_trans; [apply (reach_sym x vdom _ _ Hok Hsym), Hroot, Hu|].
    rewrite Heq. by apply Hroot.
Qed.

Lemma bfs_race_never_merges_witness :
  ∃ m' ths,
    bfs_interleaved islands [0; 0; 0; 0; 0] 26 2 contended (mem0 5)
      = (m', Val ths) ∧
    (∀ u, u < span islands → ∃ c, vcom m' !! u = Some c ∧
                                  reach islands [0; 0; 0; 0; 0] c u) ∧
    (∀ u, u < span islands → vis m' !! u = Some false → vcom m' !! u = Some u) ∧
    (symmetric islands → no_merge islands [0; 0; 0; 0; 0] m').
Proof.
  apply bfs_race_never_merges.
  - by_computation.
  - unfold vdom_ok. simpl. lia.
  - unfold buffers_ok. simpl. lia.
  - by_computation.
  - simpl. lia.
Defined.
